(** * Inverter minimization and inverter propagation on majority-inverter graphs

    A shallow embedding of
    [include/mockturtle/algorithms/mig_inv_minimization.hpp] and
    [include/mockturtle/algorithms/mig_inv_propogation.hpp].

    The two passes are templates over a network type [Ntk]; they read and
    write [ntk._storage->nodes], [ntk._storage->hash], [ntk._storage->outputs]
    directly and call the mutators of the MIG store and of the fanout view.
    The storage is modelled as a record; the store's and the view's own
    operations, whose code lives in [networks/mig.hpp] and
    [views/fanout_view.hpp], are modelled from their documented contract. *)

From Stdlib Require Import ZArith Lia Bool.
From stdpp Require Import base list gmap.

Open Scope Z_scope.

(** ** Data model *)

(** A signal is a node index with a complement bit. The bit is read under
    three names in the source ([complement], [weight] and the pointer's
    weight field); they are the same storage. Node indices are positions in
    the node vector and are kept as natural numbers. *)
Record signal : Type := Signal { index : nat; complement : bool }.

#[global] Instance signal_eq_dec : EqDecision signal.
Proof. solve_decision. Defined.

#[global] Instance signal_countable : Countable signal.
Proof.
  refine (inj_countable' (fun s => (index s, complement s))
                         (fun p => Signal p.1 p.2) _).
  by intros [].
Defined.

(** [!s] on signals, and [s.weight ^= 1]. *)
Definition sig_not (s : signal) : signal :=
  Signal (index s) (negb (complement s)).

(** The three children of a majority node, in positional order. *)
Abbreviation triple := (signal * signal * signal)%type.

Definition triple_list (k : triple) : list signal :=
  let '(a, b, c) := k in [a; b; c].

(** 32-bit unsigned wrap-around, for the reference counter [data[0].h1] and
    for the counters of the gain evaluator. *)
Definition wrap32 (z : Z) : Z := z mod 2 ^ 32.

(** 64-bit unsigned wrap-around, for the statistics counters. *)
Definition wrap64 (z : Z) : Z := z mod 2 ^ 64.

(** Conversion of a 32-bit unsigned value to [int]. *)
Definition to_int32 (z : Z) : Z :=
  if Z.ltb (wrap32 z) (2 ^ 31) then wrap32 z else wrap32 z - 2 ^ 32.

(** A node of the pool: its children (meaningful for gates only), its
    reference counter, whether it has been taken out, and whether it is a
    combinational input. Index 0 is the constant. *)
Record node : Type := Node {
  children : triple;
  h1 : Z;
  dead : bool;
  ci : bool
}.

Definition set_children (k : triple) (n : node) : node :=
  Node k (h1 n) (dead n) (ci n).

Definition incr_h1 (n : node) : node :=
  Node (children n) (wrap32 (h1 n + 1)) (dead n) (ci n).

Definition decr_h1 (n : node) : node :=
  Node (children n) (wrap32 (h1 n - 1)) (dead n) (ci n).

(** The network: the storage's node pool, structural hash table and output
    table, and the fanout view's reverse index. *)
Record network : Type := Network {
  nodes : list node;
  hash : gmap triple nat;
  outputs : list signal;
  _fanout : list (list nat)
}.

Definition dummy_signal : signal := Signal 0 false.
Definition dummy_node : node :=
  Node (dummy_signal, dummy_signal, dummy_signal) 0 false false.

Definition get_node_obj (ntk : network) (n : nat) : node :=
  default dummy_node (nodes ntk !! n).

Definition set_nodes (ns : list node) (ntk : network) : network :=
  Network ns (hash ntk) (outputs ntk) (_fanout ntk).

Definition set_outputs (os : list signal) (ntk : network) : network :=
  Network (nodes ntk) (hash ntk) os (_fanout ntk).

(** ** Queries of the store *)

(** Modelled from the spec: [is_constant], [is_pi], [is_dead] and
    [fanout_size] of the MIG store (section 6, "terminal/liveness
    predicates" and "current reference count"); the constant is the reserved
    index 0 (section 3). *)
Definition is_constant (n : nat) : bool := Nat.eqb n 0.

Definition is_pi (ntk : network) (n : nat) : bool :=
  ci (get_node_obj ntk n).

Definition is_dead (ntk : network) (n : nat) : bool :=
  dead (get_node_obj ntk n).

Definition fanout_size (ntk : network) (n : nat) : Z :=
  h1 (get_node_obj ntk n).

(** A gate is a node that is neither the constant nor an input. *)
Definition is_gate (ntk : network) (n : nat) : bool :=
  negb (is_constant n) && negb (is_pi ntk n) && bool_decide (n < length (nodes ntk))%nat.

Definition is_live_gate (ntk : network) (n : nat) : bool :=
  is_gate ntk n && negb (is_dead ntk n).

(** Modelled from the spec: [foreach_fanin] of the MIG store (section 6):
    the fan-in signals of [n] in positional order; terminals have none. *)
Definition fanins (ntk : network) (n : nat) : list signal :=
  if is_gate ntk n then triple_list (children (get_node_obj ntk n)) else [].

(** Modelled from the spec: [foreach_gate] of the MIG store (section 6):
    the indices the iteration ranges over, fixed when the iteration starts;
    liveness is tested when an index is reached. *)
Definition gate_range (ntk : network) : list nat :=
  seq 1 (length (nodes ntk) - 1).

(** Modelled from the spec: [foreach_fanout] of the fanout view (sections
    3 and 6): the consumers recorded for [n] when the iteration starts. *)
Definition fanout_of (ntk : network) (n : nat) : list nat :=
  default [] (_fanout ntk !! n).

(** ** The majority constructor *)

(** The three-element sorting network that opens
    [create_maj_without_changing_comp]; whole signals are swapped. *)
Definition order_inputs (a b c : signal) : triple :=
  if (index b <? index a)%nat then
    let '(a, b) := (b, a) in
    let '(b, c) := if (index c <? index b)%nat then (c, b) else (b, c) in
    let '(a, b) := if (index b <? index a)%nat then (b, a) else (a, b) in
    (a, b, c)
  else
    let '(b, c) := if (index c <? index b)%nat then (c, b) else (b, c) in
    let '(a, b) := if (index b <? index a)%nat then (b, a) else (a, b) in
    (a, b, c).

(** Modelled from the spec: the fanout view's [on_add] observer (section
    4.6): node creation adds the new node to the fanout set of each of its
    three fan-ins. *)
Definition on_add (idx : nat) (k : triple) (fo : list (list nat)) : list (list nat) :=
  let '(a, b, c) := k in
  alter (fun l => l ++ [idx]) (index c)
    (alter (fun l => l ++ [idx]) (index b)
      (alter (fun l => l ++ [idx]) (index a) (fo ++ [[]]))).

(** [create_maj_without_changing_comp]. The capacity reservation has no
    observable effect and is left out. A reference-count bump on an index
    outside the pool is undefined in the source; here it changes nothing. *)
Definition create_maj_without_changing_comp
    (ntk : network) (a b c : signal) : network * signal :=
  let '(a, b, c) := order_inputs a b c in
  if (index a =? index b)%nat then
    (ntk, if eqb (complement a) (complement b) then a else c)
  else if (index b =? index c)%nat then
    (ntk, if eqb (complement b) (complement c) then b else a)
  else
    match hash ntk !! (a, b, c) with
    | Some i => (ntk, Signal i false)
    | None =>
        let idx := length (nodes ntk) in
        let ns := nodes ntk ++ [Node (a, b, c) 0 false false] in
        let h := <[(a, b, c) := idx]> (hash ntk) in
        let ns := alter incr_h1 (index c)
                    (alter incr_h1 (index b) (alter incr_h1 (index a) ns)) in
        (Network ns h (outputs ntk) (on_add idx (a, b, c) (_fanout ntk)),
         Signal idx false)
    end.

(** [is_fanout_comp]: the complement of the last fan-in of [out] that
    references [inp]; false when there is none. *)
Definition is_fanout_comp (ntk : network) (inp out : nat) : bool :=
  fold_left (fun ret fi => if (index fi =? inp)%nat then complement fi else ret)
            (fanins ntk out) false.

(** ** Mutators of the store *)

(** The loop of [replace_in_outputs_cond_comp] over the output table. *)
Fixpoint replace_outputs_loop (old : nat) (new_signal : signal) (have_comp_out : bool)
    (os : list signal) (ns : list node) : list signal * list node :=
  match os with
  | [] => ([], ns)
  | o :: os' =>
      if (index o =? old)%nat && (have_comp_out || complement o) then
        let ns1 := if (old =? index new_signal)%nat then ns
                   else alter decr_h1 old (alter incr_h1 (index new_signal) ns) in
        let '(r, ns2) := replace_outputs_loop old new_signal have_comp_out os' ns1 in
        (Signal (index new_signal) (xorb (complement o) (complement new_signal)) :: r, ns2)
      else
        let '(r, ns2) := replace_outputs_loop old new_signal have_comp_out os' ns in
        (o :: r, ns2)
  end.

(** [replace_in_outputs_cond_comp] of the propagation pass. *)
Definition replace_in_outputs_cond_comp
    (ntk : network) (old_node : nat) (new_signal : signal) (have_comp_out : bool) : network :=
  if is_dead ntk old_node then ntk
  else
    let '(os, ns) :=
      replace_outputs_loop old_node new_signal have_comp_out (outputs ntk) (nodes ntk) in
    set_outputs os (set_nodes ns ntk).

(** Modelled from the spec: [replace_in_outputs] of the MIG store (section
    6): retarget every primary-output entry with [index == n] to [s.index],
    XOR-ing the complement, and adjust the reference counts. *)
Definition replace_in_outputs (ntk : network) (n : nat) (s : signal) : network :=
  let '(os, ns) := replace_outputs_loop n s true (outputs ntk) (nodes ntk) in
  set_outputs os (set_nodes ns ntk).

Definition rewire (old : nat) (new_signal : signal) (s : signal) : signal :=
  if (index s =? old)%nat
  then Signal (index new_signal) (xorb (complement s) (complement new_signal))
  else s.

Definition occurrences (old : nat) (k : triple) : nat :=
  length (filter (fun s => index s = old) (triple_list k)).

(** Modelled from the spec: [replace_in_node] of the MIG store (sections
    4.2 and 6): every occurrence of [old] among the fan-ins of [m] becomes
    [(new.index, comp XOR new.complement)] and [m] is re-canonicalized;
    when [m] would collapse by a trivial reduction or alias an existing
    node of the hash table, [m] is left as it is and the substitution
    signal is returned. In case (a) the hash entry of [m] moves to its new
    key, the reference counts follow the rewired edges (I2) and [m] moves
    from [fanout(old)] to [fanout(new.index)] (section 4.6). *)
Definition replace_in_node
    (ntk : network) (m old : nat) (new_signal : signal) : network * option signal :=
  if negb (is_gate ntk m) then (ntk, None)
  else
    let k := children (get_node_obj ntk m) in
    let occ := occurrences old k in
    if (occ =? 0)%nat then (ntk, None)
    else
      let '(x, y, z) := k in
      let '(c0, c1, c2) :=
        order_inputs (rewire old new_signal x) (rewire old new_signal y)
                     (rewire old new_signal z) in
      if (index c0 =? index c1)%nat then
        (ntk, Some (if eqb (complement c0) (complement c1) then c0 else c2))
      else if (index c1 =? index c2)%nat then
        (ntk, Some (if eqb (complement c1) (complement c2) then c1 else c0))
      else
        match hash ntk !! (c0, c1, c2) with
        | Some i => (ntk, Some (Signal i false))
        | None =>
            let ns := alter (set_children (c0, c1, c2)) m (nodes ntk) in
            let ns := Nat.iter occ (alter incr_h1 (index new_signal)) ns in
            let ns := Nat.iter occ (alter decr_h1 old) ns in
            let h := <[(c0, c1, c2) := m]> (delete k (hash ntk)) in
            let fo := alter (filter (fun x => x ≠ m)) old (_fanout ntk) in
            let fo := alter (fun l => l ++ [m]) (index new_signal) fo in
            (Network ns h (outputs ntk) fo, None)
        end.

(** Modelled from the spec: [take_out_node] of the MIG store (sections 4.6
    and 6): mark [n] dead, remove it from the hash table and detach it from
    every fanout set; its fan-ins stop being live occurrences, so the
    reference counts of its children drop with it (I2). Terminals and dead
    nodes are left alone. *)
Definition take_out_node (ntk : network) (n : nat) : network :=
  if negb (is_live_gate ntk n) then ntk
  else
    let '(a, b, c) := children (get_node_obj ntk n) in
    let ns := alter (fun x => Node (children x) (h1 x) true (ci x)) n (nodes ntk) in
    let ns := alter decr_h1 (index c)
                (alter decr_h1 (index b) (alter decr_h1 (index a) ns)) in
    Network ns (delete (a, b, c) (hash ntk)) (outputs ntk)
            (filter (fun x => x ≠ n) <$> _fanout ntk).

(** Modelled from the spec: [substitute_node] of the MIG store (section 6
    and the last design note): replace every live use of [m], in fan-ins
    and in outputs, with the signal [s], and mark [m] dead when its
    reference count reaches zero; a consumer that collapses or aliases
    while being rewired is substituted in turn. The store's work stack is
    the list [todo]; [fuel] bounds the number of substitutions.

    A consumer that is queued still reads the node it was being rewired
    away from, so the count of a substituted node can reach zero only
    later, when that consumer is taken out. [done] lists the nodes
    substituted so far; after every substitution each of them whose count
    has reached zero is taken out, until none is left ([take_out_node]
    leaves dead nodes alone). *)
Definition release (ntk : network) (m : nat) : network :=
  if fanout_size ntk m =? 0 then take_out_node ntk m else ntk.

Definition release_all (done : list nat) (ntk : network) : network :=
  Nat.iter (length done) (fun nt => fold_left release done nt) ntk.

Definition substitute_step (old : nat) (new_signal : signal)
    (acc : network * list (nat * signal)) (idx : nat) : network * list (nat * signal) :=
  let '(ntk, todo) := acc in
  if is_live_gate ntk idx then
    match replace_in_node ntk idx old new_signal with
    | (ntk', Some s) => (ntk', (idx, s) :: todo)
    | (ntk', None) => (ntk', todo)
    end
  else (ntk, todo).

Fixpoint substitute_loop (fuel : nat) (ntk : network) (todo : list (nat * signal))
    (done : list nat) : option network :=
  match fuel with
  | O => None
  | S fuel' =>
      match todo with
      | [] => Some ntk
      | (old, new_signal) :: rest =>
          let '(ntk1, todo1) :=
            fold_left (substitute_step old new_signal) (gate_range ntk) (ntk, rest) in
          let ntk2 := replace_in_outputs ntk1 old new_signal in
          let done1 := old :: done in
          substitute_loop fuel' (release_all done1 ntk2) todo1 done1
      end
  end.

Definition substitute_node (fuel : nat) (ntk : network) (m : nat) (s : signal)
    : option network :=
  substitute_loop fuel ntk [(m, s)] [].

(** The fanout view's index as built when the view is put over a network:
    Modelled from the spec: the fanout index (section 3, invariant I4): a
    live gate [m] is recorded in [fanout(n)] once for each of its fan-ins
    that references [n], gates in index order. *)
Definition compute_fanout (ns : list node) : list (list nat) :=
  fold_left
    (fun fo m =>
       let nd := default dummy_node (ns !! m) in
       if negb (is_constant m) && negb (ci nd) && negb (dead nd) then
         let '(a, b, c) := children nd in
         alter (fun l => l ++ [m]) (index c)
           (alter (fun l => l ++ [m]) (index b)
             (alter (fun l => l ++ [m]) (index a) fo))
       else fo)
    (seq 0 (length ns)) (replicate (length ns) []).

Definition fanout_view (ntk : network) : network :=
  Network (nodes ntk) (hash ntk) (outputs ntk) (compute_fanout (nodes ntk)).

(** ** Statistics *)

Record stats : Type := Stats {
  time_total : Z;
  num_calls : Z;
  num_inverters_removed : Z
}.

Definition default_stats : stats := Stats 0 0 0.

Definition credit (st : stats) (gain : Z) : stats :=
  Stats (time_total st) (num_calls st) (wrap64 (num_inverters_removed st + gain)).

(** ** Inverter minimization *)

Module IM.

(** [one_level]. The six counters are [uint32_t]; their signed combination
    is formed in unsigned arithmetic and converted to [int]. *)
Definition count_inputs (ntk : network) (n : nat) : Z * Z :=
  fold_left
    (fun '(c, u) fi =>
       if is_constant (index fi) then (c, u)
       else if complement fi then (wrap32 (c + 1), u) else (c, wrap32 (u + 1)))
    (fanins ntk n) (0, 0).

Definition count_outputs (ntk : network) (n : nat) : Z * Z :=
  fold_left
    (fun '(c, u) fo =>
       if is_fanout_comp ntk n fo then (wrap32 (c + 1), u) else (c, wrap32 (u + 1)))
    (fanout_of ntk n) (0, 0).

Definition count_po (ntk : network) (n : nat) : Z * Z :=
  fold_left
    (fun '(c, u) po =>
       if (index po =? n)%nat then
         if complement po then (wrap32 (c + 1), u) else (c, wrap32 (u + 1))
       else (c, u))
    (outputs ntk) (0, 0).

Definition one_level (ntk : network) (n : nat) : Z :=
  if is_pi ntk n || is_constant n || is_dead ntk n then 0
  else
    let '(num_compl_inp, num_non_compl_inp) := count_inputs ntk n in
    let '(num_compl_out, num_non_compl_out) := count_outputs ntk n in
    let '(num_compl_po, num_non_compl_po) := count_po ntk n in
    to_int32 (num_compl_inp + num_compl_out + num_compl_po
              - num_non_compl_inp - num_non_compl_out - num_non_compl_po).

(** [two_level]. *)
Definition two_level (ntk : network) (n : nat) : Z :=
  if is_pi ntk n || is_constant n || is_dead ntk n then 0
  else
    fold_left
      (fun gain fo =>
         let gain_fo := one_level ntk fo in
         let gain_fo := if is_fanout_comp ntk n fo then gain_fo - 2 else gain_fo + 2 in
         if 0 <? gain_fo then gain + gain_fo else gain)
      (fanout_of ntk n) (one_level ntk n).

(** [inv_node] of the minimization pass. The value returned by
    [replace_in_node] is dropped, as in the source. *)
Definition inv_node (ntk : network) (n : nat) (have_comp_out : bool) : network * nat :=
  if is_pi ntk n || is_constant n then (ntk, n)
  else
    let '(a, b, c) := children (get_node_obj ntk n) in
    let '(ntk1, s) :=
      create_maj_without_changing_comp ntk (sig_not a) (sig_not b) (sig_not c) in
    let new_node := sig_not s in
    let ntk2 := replace_in_outputs ntk1 n new_node in
    let ntk3 :=
      fold_left
        (fun nt fo =>
           if have_comp_out || is_fanout_comp nt n fo
           then fst (replace_in_node nt fo n new_node) else nt)
        (fanout_of ntk2 n) ntk2 in
    let ntk4 := if fanout_size ntk3 n =? 0 then take_out_node ntk3 n else ntk3 in
    (ntk4, index new_node).

(** The body of the [foreach_gate] callback in [run]. *)
Definition visit (acc : network * stats) (n : nat) : network * stats :=
  let '(ntk, st) := acc in
  if is_dead ntk n then (ntk, st)
  else
    let gain := one_level ntk n in
    let '(ntk, st) :=
      if 0 <? gain then (fst (inv_node ntk n true), credit st gain) else (ntk, st) in
    let gain := two_level ntk n in
    if 0 <? gain then
      let st := credit st gain in
      let '(ntk, new_node) := inv_node ntk n true in
      let ntk :=
        fold_left
          (fun nt fo => if 0 <? one_level nt fo then fst (inv_node nt fo true) else nt)
          (fanout_of ntk new_node) ntk in
      (ntk, st)
    else (ntk, st).

(** [run]: the outer [while] is left by its [break] after one sweep.
    [elapsed] is what the stopwatch adds to [time_total]. *)
Definition run (elapsed : Z) (ntk : network) (st : stats) : network * stats :=
  let '(ntk', st') :=
    fold_left
      (fun acc n => if is_live_gate (fst acc) n then visit acc n else acc)
      (gate_range ntk) (ntk, st) in
  (ntk', Stats (time_total st' + elapsed) (num_calls st') (num_inverters_removed st')).

(** [mig_inv_minimization]: the statistics it writes through [pst]. *)
Definition mig_inv_minimization (elapsed : Z) (ntk : network) : network * stats :=
  run elapsed (fanout_view ntk) default_stats.

End IM.

(** ** Inverter propagation *)

Module IP.

(** [has_comp_fanout]: every live gate of the network is scanned, then the
    output table. *)
Definition has_comp_fanout (ntk : network) (n : nat) : bool :=
  let ret :=
    fold_left
      (fun ret fo =>
         if is_live_gate ntk fo && is_fanout_comp ntk n fo then true else ret)
      (gate_range ntk) false in
  if ret then true
  else
    fold_left
      (fun ret po => if (index po =? n)%nat && complement po then true else ret)
      (outputs ntk) false.

(** The body of the [foreach_gate] callback in [inv_node]. *)
Definition rewire_consumer (fuel : nat) (n : nat) (new_node : signal) (have_comp_out : bool)
    (acc : option network) (fo : nat) : option network :=
  match acc with
  | None => None
  | Some ntk =>
      if is_live_gate ntk fo && (have_comp_out || is_fanout_comp ntk n fo) then
        match replace_in_node ntk fo n new_node with
        | (ntk', Some ret) => substitute_node fuel ntk' fo ret
        | (ntk', None) => Some ntk'
        end
      else Some ntk
  end.

(** [inv_node] of the propagation pass; [print_all_fanout] only writes to
    the standard output. [fuel] bounds the store's substitution loop. *)
Definition inv_node (fuel : nat) (ntk : network) (n : nat) (have_comp_out : bool)
    : option (network * nat) :=
  if is_pi ntk n || is_constant n then Some (ntk, n)
  else
    let '(a, b, c) := children (get_node_obj ntk n) in
    let '(ntk1, s) :=
      create_maj_without_changing_comp ntk (sig_not a) (sig_not b) (sig_not c) in
    let new_node := sig_not s in
    let ntk2 := replace_in_outputs_cond_comp ntk1 n new_node have_comp_out in
    match fold_left (rewire_consumer fuel n new_node have_comp_out)
                    (gate_range ntk2) (Some ntk2) with
    | None => None
    | Some ntk3 =>
        let ntk4 := if fanout_size ntk3 n =? 0 then take_out_node ntk3 n else ntk3 in
        Some (ntk4, index new_node)
    end.

(** The state of [mig_inv_propogation_impl]: the network, the statistics
    record it holds by reference, and the work queue. *)
Record impl : Type := Impl {
  ntk : network;
  st : stats;
  q : list nat
}.

(** The seeding loop of [run]: both branches push the output's index. *)
Definition seed (p : impl) : impl :=
  fold_left
    (fun p f =>
       if complement f then Impl (ntk p) (st p) (q p ++ [index f])
       else Impl (ntk p) (st p) (q p ++ [index f]))
    (outputs (ntk p)) p.

(** One iteration of the [while] loop of [run] on a non-empty queue. *)
Definition step (fuel : nat) (p : impl) (n : nat) (rest : list nat) : option impl :=
  if is_constant n || is_pi (ntk p) n || is_dead (ntk p) n then
    Some (Impl (ntk p) (st p) rest)
  else
    let r :=
      if has_comp_fanout (ntk p) n
      then option_map fst (inv_node fuel (ntk p) n false)
      else Some (ntk p) in
    match r with
    | None => None
    | Some ntk' => Some (Impl ntk' (st p) (rest ++ (index <$> fanins ntk' n)))
    end.

Fixpoint loop (fuel : nat) (p : impl) : option impl :=
  match fuel with
  | O => None
  | S fuel' =>
      match q p with
      | [] => Some p
      | n :: rest =>
          match step fuel' p n rest with
          | None => None
          | Some p' => loop fuel' p'
          end
      end
  end.

(** [run]. *)
Definition run (fuel : nat) (p : impl) : option impl := loop fuel (seed p).

(** [mig_inv_propogation]: the network it leaves and the statistics it
    writes through [pst]. *)
Definition mig_inv_propogation (fuel : nat) (net : network) : option (network * stats) :=
  match run fuel (Impl (fanout_view net) default_stats []) with
  | None => None
  | Some p => Some (ntk p, st p)
  end.

End IP.

(** ** Well-formed networks *)

(** Live gates and their fan-in lists. *)
Definition live_gates (ntk : network) : list nat :=
  filter (fun n => is_live_gate ntk n = true) (seq 0 (length (nodes ntk))).

Definition canonical (k : triple) : triple :=
  let '(a, b, c) := k in order_inputs a b c.

(** I1: no two distinct live majority nodes have equal canonicalized
    fan-in triples. *)
Definition I1 (ntk : network) : Prop :=
  NoDup ((fun n => canonical (children (get_node_obj ntk n))) <$> live_gates ntk).

(** Liveness of the node stored at index [i]. *)
Definition live_at (i : nat) (nd : node) : bool :=
  negb (is_constant i) && negb (ci nd) && negb (dead nd).

(** The number of live fan-in and primary-output occurrences of [n]: the
    fan-ins of every live gate of the pool, then the output table. *)
Definition gate_refs (ns : list node) (n : nat) : nat :=
  sum_list (imap (fun i nd => if live_at i nd then occurrences n (children nd) else 0%nat) ns).

Definition po_refs (os : list signal) (n : nat) : nat :=
  length (filter (fun s => index s = n) os).

Definition occurrences_of (ntk : network) (n : nat) : nat :=
  (gate_refs (nodes ntk) n + po_refs (outputs ntk) n)%nat.

(** I2: the reference count of every node that has not been taken out,
    a 32-bit counter, is its number of live occurrences. *)
Definition I2 (ntk : network) : Prop :=
  Forall (fun n => is_dead ntk n = false ->
                   fanout_size ntk n = wrap32 (Z.of_nat (occurrences_of ntk n)))
         (seq 0 (length (nodes ntk))).

(** I3: every fan-in of a majority node references a strictly smaller
    index. *)
Definition I3 (ntk : network) : Prop :=
  Forall (fun n => Forall (fun s => (index s < n)%nat) (fanins ntk n))
         (seq 0 (length (nodes ntk))).

(** I4: [m] is in [fanout(n)] iff [m] is a live gate with a fan-in on [n];
    the two directions are stated over the fanout lists and over the
    fan-ins of the live gates. *)
Definition I4 (ntk : network) : Prop :=
  length (_fanout ntk) = length (nodes ntk) /\
  Forall (fun n =>
    Forall (fun m => is_live_gate ntk m = true /\
                     Exists (fun s => index s = n) (fanins ntk m))
           (fanout_of ntk n))
    (seq 0 (length (nodes ntk))) /\
  Forall (fun m => Forall (fun s => m ∈ fanout_of ntk (index s)) (fanins ntk m))
         (live_gates ntk).

(** The consistency of the storage that the passes rely on besides I1-I4:
    index 0 is the constant and is no input, the hash table holds exactly
    the live gates under their own fan-in triples, live gates are stored in
    canonical order with three distinct fan-in indices, and outputs and
    fanout entries point into the pool. *)
Definition store_ok (ntk : network) : Prop :=
  ((0 < length (nodes ntk))%nat /\ is_pi ntk 0 = false /\ is_dead ntk 0 = false) /\
  Forall (fun n => hash ntk !! children (get_node_obj ntk n) = Some n /\
                   canonical (children (get_node_obj ntk n)) = children (get_node_obj ntk n) /\
                   NoDup (index <$> fanins ntk n))
         (live_gates ntk) /\
  map_Forall (fun k i => is_live_gate ntk i = true /\ children (get_node_obj ntk i) = k)
             (hash ntk) /\
  Forall (fun s => (index s < length (nodes ntk))%nat) (outputs ntk) /\
  Forall (fun n => is_gate ntk n = false -> is_dead ntk n = false) (seq 0 (length (nodes ntk))).

Definition wf (ntk : network) : Prop :=
  I1 ntk /\ I2 ntk /\ I3 ntk /\ I4 ntk /\ store_ok ntk.

(** ** Observations used by the properties *)

(** Majority of three. *)
Definition maj (x y z : bool) : bool := (x && y) || (x && z) || (y && z).

(** The value of a node under an assignment of the primary inputs:
    evaluation unfolds the fan-ins [fuel] levels deep. *)
Fixpoint eval_node (fuel : nat) (ntk : network) (asg : nat -> bool) (n : nat) : option bool :=
  match fuel with
  | O => None
  | S fuel' =>
      if is_constant n then Some false
      else if is_pi ntk n then Some (asg n)
      else
        let '(a, b, c) := children (get_node_obj ntk n) in
        match eval_node fuel' ntk asg (index a),
              eval_node fuel' ntk asg (index b),
              eval_node fuel' ntk asg (index c) with
        | Some x, Some y, Some z =>
            Some (maj (xorb x (complement a)) (xorb y (complement b)) (xorb z (complement c)))
        | _, _, _ => None
        end
  end.

Definition eval_signal (fuel : nat) (ntk : network) (asg : nat -> bool) (s : signal)
    : option bool :=
  option_map (fun v => xorb v (complement s)) (eval_node fuel ntk asg (index s)).

(** [num_gates]: the number of live gates. *)
Definition num_gates (ntk : network) : nat := length (live_gates ntk).

(** [complement_count] of the tests: complemented fan-ins of live gates
    plus complemented outputs. *)
Definition complement_count (ntk : network) : nat :=
  length (filter (fun s => complement s = true)
            (concat (fanins ntk <$> live_gates ntk) ++ outputs ntk)).

(** [complement_count_except_pi] of the tests. *)
Definition complement_count_except_pi (ntk : network) : nat :=
  length (filter (fun s => complement s = true /\ is_pi ntk (index s) = false
                           /\ is_constant (index s) = false)
            (concat (fanins ntk <$> live_gates ntk) ++ outputs ntk)).

(** ** Building networks *)

(** A pool with the constant, [npis] primary inputs and the given gates
    and outputs, with exact reference counts, its hash table and its
    fanout index. *)
Definition count_refs (gates : list triple) (pos : list signal) (n : nat) : Z :=
  Z.of_nat (length (filter (fun s => index s = n)
                      (concat (triple_list <$> gates) ++ pos))).

Definition build (npis : nat) (gates : list triple) (pos : list signal) : network :=
  let ns :=
    Node (dummy_signal, dummy_signal, dummy_signal) (count_refs gates pos 0) false false
    :: ((fun i => Node (dummy_signal, dummy_signal, dummy_signal)
                       (count_refs gates pos i) false true) <$> seq 1 npis)
    ++ imap (fun i k => Node k (count_refs gates pos (S npis + i)) false false) gates in
  fanout_view
    (Network ns (list_to_map (imap (fun i k => (k, (S npis + i)%nat)) gates)) pos []).

(** ** Example networks *)

Module Examples.

Definition pos (i : nat) : signal := Signal i false.
Definition neg (i : nat) : signal := Signal i true.

(** The network of the tests: inputs [a..e] are nodes 1-5, gates
    [f1..f10] are nodes 6-15. *)
Definition test_gates : list triple :=
  [ (pos 1, pos 2, neg 3); (neg 0, pos 1, pos 2);
    (pos 1, neg 6, pos 7); (pos 2, neg 6, pos 7); (pos 3, neg 6, pos 7);
    (pos 1, pos 6, neg 7); (pos 2, neg 7, pos 9); (pos 3, neg 7, pos 10);
    (pos 4, neg 7, pos 11); (pos 5, neg 7, pos 12) ].

(** "MIG inverter minimization one level". *)
Definition one_level_test : network :=
  build 5 test_gates [pos 8; pos 9; pos 10; neg 11; pos 12; pos 13; pos 14; pos 15].

(** "MIG inverter propogation one level". *)
Definition propagation_test : network :=
  build 5 test_gates [pos 8; pos 9; pos 10; neg 11; pos 12; pos 13; neg 14; neg 15].

(** Three inputs; [4 = M(1,2,3)], [5 = M(!1,!2,4)], [6 = M(!1,4,!5)];
    one output on 6. *)
Definition chain : network :=
  build 3 [ (pos 1, pos 2, pos 3); (neg 1, neg 2, pos 4); (neg 1, pos 4, neg 5) ] [pos 6].

(** Three inputs; [4 = M(!1,!2,3)], its dual [5 = M(1,2,!3)],
    [6 = M(!3,!4,5)] and [7 = M(2,!4,6)]; one output, [!7]; every gate is
    in the cone of the output. *)
Definition dual_chain : network :=
  build 3 [ (neg 1, neg 2, pos 3); (pos 1, pos 2, neg 3);
            (neg 3, neg 4, pos 5); (pos 2, neg 4, pos 6) ]
        [neg 7].

(** Three inputs; [4 = M(1,2,!3)], its dual [5 = M(!1,!2,3)] and
    [6 = M(2,4,!5)]; outputs [!5] and [!6]. *)
Definition dual_outputs : network :=
  build 3 [ (pos 1, pos 2, neg 3); (neg 1, neg 2, pos 3); (pos 2, pos 4, neg 5) ]
        [neg 5; neg 6].

(** Three inputs; [4 = M(1,2,3)] and [5 = M(1,2,!4)]; no output. *)
Definition dangling : network :=
  build 3 [ (pos 1, pos 2, pos 3); (pos 1, pos 2, neg 4) ] [].

(** Three inputs; [4 = M(1,2,3)], its dual [5 = M(!1,!2,!3)] and
    [6 = M(!1,4,5)]; one output on 6. *)
Definition dual_pair : network :=
  build 3 [ (pos 1, pos 2, pos 3); (neg 1, neg 2, neg 3); (neg 1, pos 4, pos 5) ] [pos 6].

(** Two inputs; [3 = M(0,!1,!2)] and [4 = M(!0,2,!3)]; outputs [!3] and
    [4]. *)
Definition shared : network :=
  build 2 [ (pos 0, neg 1, neg 2); (neg 0, pos 2, neg 3) ] [neg 3; pos 4].

End Examples.

(** ** The gain of section 4.3, as the specification words it *)

Module Gain.

(** [m] has a fan-in edge on [n] whose complement bit is [c]. *)
Definition consumes (ntk : network) (m n : nat) (c : bool) : Prop :=
  Exists (fun s => index s = n /\ complement s = c) (fanins ntk m).

#[global] Instance consumes_dec ntk m n c : Decision (consumes ntk m n c).
Proof. unfold consumes. apply _. Defined.

Definition C_in (ntk : network) (n : nat) : nat :=
  length (filter (fun s => complement s = true /\ is_constant (index s) = false)
                 (fanins ntk n)).

Definition U_in (ntk : network) (n : nat) : nat :=
  length (filter (fun s => complement s = false /\ is_constant (index s) = false)
                 (fanins ntk n)).

Definition C_out (ntk : network) (n : nat) : nat :=
  length (filter (fun m => consumes ntk m n true) (fanout_of ntk n)).

Definition U_out (ntk : network) (n : nat) : nat :=
  length (filter (fun m => consumes ntk m n false) (fanout_of ntk n)).

Definition C_po (ntk : network) (n : nat) : nat :=
  length (filter (fun s => index s = n /\ complement s = true) (outputs ntk)).

Definition U_po (ntk : network) (n : nat) : nat :=
  length (filter (fun s => index s = n /\ complement s = false) (outputs ntk)).

Definition gain (ntk : network) (n : nat) : Z :=
  (Z.of_nat (C_in ntk n) + Z.of_nat (C_out ntk n) + Z.of_nat (C_po ntk n))
  - (Z.of_nat (U_in ntk n) + Z.of_nat (U_out ntk n) + Z.of_nat (U_po ntk n)).

End Gain.

(** ** Observing the work queue of the propagation pass *)

Module Trace.

(** The state of the propagation loop after [k] iterations, starting
    from [p]; an empty queue ends the iterations early. *)
Fixpoint iterate (fuel k : nat) (p : IP.impl) : option IP.impl :=
  match k with
  | O => Some p
  | S k' =>
      match IP.q p with
      | [] => Some p
      | n :: rest =>
          match IP.step fuel p n rest with
          | None => None
          | Some p' => iterate fuel k' p'
          end
      end
  end.

(** The initial state of the loop of [run] on a network. *)
Definition start (net : network) : IP.impl :=
  IP.seed (IP.Impl (fanout_view net) default_stats []).

(** Every pop enqueues only indices strictly smaller than the popped
    one. *)
Definition pops_enqueue_smaller (net : network) : Prop :=
  forall fuel k p n rest p',
    iterate fuel k (start net) = Some p ->
    IP.q p = n :: rest ->
    IP.step fuel p n rest = Some p' ->
    exists l, IP.q p' = rest ++ l /\ Forall (fun i => (i < n)%nat) l.

End Trace.

(** ** What the minimization pass keeps true *)

Definition strictly_sorted (k : triple) : Prop :=
  let '(a, b, c) := k in (index a < index b < index c)%nat.

(** I2, I4 and the consistency of the storage survive every inversion,
    and are stated here on the entries of the pool. I3 does not survive:
    a consumer is rewired onto a node appended after it. Only its
    consequence that fan-ins stay inside the pool is kept. *)
Record consistent (ntk : network) : Prop := Consistent {
  (* I2 *)
  refs_exact : forall n nd,
    nodes ntk !! n = Some nd -> dead nd = false ->
    h1 nd = wrap32 (Z.of_nat (occurrences_of ntk n));
  (* I4 *)
  fanout_length : length (_fanout ntk) = length (nodes ntk);
  fanout_sound : forall n m,
    m ∈ fanout_of ntk n ->
    exists nd, nodes ntk !! m = Some nd /\ live_at m nd = true /\
               Exists (fun s => index s = n) (triple_list (children nd));
  fanout_complete : forall m nd s,
    nodes ntk !! m = Some nd -> live_at m nd = true ->
    s ∈ triple_list (children nd) -> m ∈ fanout_of ntk (index s);
  (* the storage *)
  gates_hashed : forall m nd,
    nodes ntk !! m = Some nd -> live_at m nd = true ->
    hash ntk !! children nd = Some m;
  gates_sorted : forall m nd,
    nodes ntk !! m = Some nd -> live_at m nd = true -> strictly_sorted (children nd);
  gates_bounded : forall m nd,
    nodes ntk !! m = Some nd -> live_at m nd = true ->
    Forall (fun s => (index s < length (nodes ntk))%nat) (triple_list (children nd));
  hash_sound : forall k i,
    hash ntk !! k = Some i ->
    exists nd, nodes ntk !! i = Some nd /\ live_at i nd = true /\ children nd = k;
  outputs_bounded :
    Forall (fun s => (index s < length (nodes ntk))%nat) (outputs ntk)
}.

(** ** Running the propagation pass twice *)

Definition twice (fuel : nat) (net : network) : option (network * network) :=
  match IP.mig_inv_propogation fuel net with
  | None => None
  | Some (n1, _) =>
      match IP.mig_inv_propogation fuel n1 with
      | None => None
      | Some (n2, _) => Some (n1, n2)
      end
  end.

(** ** Proof automation *)

(** Permutations of three elements. *)
Ltac perm3 :=
  solve [ reflexivity
        | apply perm_swap
        | apply perm_skip, perm_swap
        | etrans; [apply perm_swap|]; apply perm_skip, perm_swap
        | etrans; [apply perm_skip, perm_swap|]; apply perm_swap
        | etrans; [apply perm_skip, perm_swap|]; etrans; [apply perm_swap|];
          apply perm_skip, perm_swap ].

(** Closed decidable statements, by evaluation. *)
Ltac by_computation := apply (bool_decide_unpack _); vm_compute; exact I.

Ltac wf_by_computation := unfold wf, I1, I2, I3, I4, store_ok; by_computation.

(** ** Vocabulary for the gate count of the minimization pass *)

(** Reference bumps keep everything but the counter. *)
Definition keeps_shape (f : node -> node) : Prop :=
  forall x, children (f x) = children x /\ ci (f x) = ci x /\ dead (f x) = dead x.

(** What [alter f i] does to the node at position [j]. *)
Definition bump (f : node -> node) (i j : nat) : node -> node :=
  if decide (i = j) then f else id.

(** The node as [take_out_node] leaves it. *)
Definition mark_dead (x : node) : node := Node (children x) (h1 x) true (ci x).

(** Two pools that differ in reference counts only. *)
Definition same_shape (ns ns' : list node) : Prop :=
  length ns' = length ns /\
  forall j nd', ns' !! j = Some nd' ->
    exists nd, ns !! j = Some nd /\ children nd' = children nd /\ ci nd' = ci nd /\
               dead nd' = dead nd.

(** The two ways [create_maj_without_changing_comp] returns: with the
    pool untouched, or with one gate appended under a canonical key that
    the hash table did not hold. *)
Inductive create_outcome (ntk : network) (a b c : signal) (ntk' : network) (r : signal)
    : Prop :=
  | created_nothing :
      ntk' = ntk ->
      (r ∈ [a; b; c] \/ exists k, hash ntk !! k = Some (index r) /\ complement r = false) ->
      create_outcome ntk a b c ntk' r
  | created_gate (a' b' c' : signal) :
      order_inputs a b c = (a', b', c') ->
      strictly_sorted (a', b', c') ->
      hash ntk !! (a', b', c') = None ->
      r = Signal (length (nodes ntk)) false ->
      ntk' = Network
               (alter incr_h1 (index c') (alter incr_h1 (index b') (alter incr_h1 (index a')
                  (nodes ntk ++ [Node (a', b', c') 0 false false]))))
               (<[(a', b', c') := length (nodes ntk)]> (hash ntk)) (outputs ntk)
               (on_add (length (nodes ntk)) (a', b', c') (_fanout ntk)) ->
      create_outcome ntk a b c ntk' r.

(** The three ways [replace_in_node] returns on a live gate of a
    consistent network: nothing to rewire, a rewired key that collapses
    or is already hashed (the gate is left as it was), or the gate
    rewired in place. *)
Inductive replace_outcome (ntk : network) (m old : nat) (new_signal : signal)
    (ntk' : network) (ret : option signal) : Prop :=
  | replaced_nothing :
      ntk' = ntk -> ret = None ->
      (forall nd, nodes ntk !! m = Some nd -> live_at m nd = true ->
                  occurrences old (children nd) = 0%nat) ->
      replace_outcome ntk m old new_signal ntk' ret
  | replaced_collapse (s : signal) (nd : node) (x y z c0 c1 c2 : signal) :
      ntk' = ntk -> ret = Some s ->
      nodes ntk !! m = Some nd -> children nd = (x, y, z) ->
      order_inputs (rewire old new_signal x) (rewire old new_signal y)
                   (rewire old new_signal z) = (c0, c1, c2) ->
      (index c0 = index c1 \/ index c1 = index c2 \/
       exists i, hash ntk !! (c0, c1, c2) = Some i) ->
      occurrences old (x, y, z) = 1%nat ->
      replace_outcome ntk m old new_signal ntk' ret
  | replaced_in_place (nd : node) (x y z c0 c1 c2 : signal) :
      ret = None ->
      nodes ntk !! m = Some nd -> children nd = (x, y, z) ->
      order_inputs (rewire old new_signal x) (rewire old new_signal y)
                   (rewire old new_signal z) = (c0, c1, c2) ->
      strictly_sorted (c0, c1, c2) ->
      hash ntk !! (c0, c1, c2) = None ->
      occurrences old (x, y, z) = 1%nat ->
      ntk' = Network
               (alter decr_h1 old (alter incr_h1 (index new_signal)
                  (alter (set_children (c0, c1, c2)) m (nodes ntk))))
               (<[(c0, c1, c2) := m]> (delete (x, y, z) (hash ntk))) (outputs ntk)
               (alter (fun l => l ++ [m]) (index new_signal)
                  (alter (filter (fun v => v ≠ m)) old (_fanout ntk))) ->
      replace_outcome ntk m old new_signal ntk' ret.

(** [ntk'] is as consistent as [ntk], with the same live gates, pool
    size and outputs. *)
Record steady (ntk ntk' : network) : Prop := Steady {
  steady_consistent : consistent ntk';
  steady_length : length (nodes ntk') = length (nodes ntk);
  steady_live : forall j, is_live_gate ntk' j = is_live_gate ntk j;
  steady_outputs : outputs ntk' = outputs ntk
}.

(** The consumer loop of [IM.inv_node] when [have_comp_out] holds. *)
Definition rewire_consumers (n : nat) (new_node : signal) (l : list nat) (ntk : network)
    : network :=
  fold_left
    (fun nt fo =>
       if true || is_fanout_comp nt n fo
       then fst (replace_in_node nt fo n new_node) else nt)
    l ntk.

(** [ntk'] is consistent, has no more live gates than [ntk] and a pool
    at least as long. *)
Record no_more_gates (ntk ntk' : network) : Prop := NoMoreGates {
  after_consistent : consistent ntk';
  after_num_gates : (num_gates ntk' <= num_gates ntk)%nat;
  after_length : (length (nodes ntk) <= length (nodes ntk'))%nat }.

(** ** Rewiring towards a fresh gate *)

Section fresh_gate.
Context (n idx : nat).

(** Reads a fan-in on the fresh gate [idx] back as the complemented
    fan-in on [n] it replaces. *)
Definition unrewire (s : signal) : signal :=
  if (index s =? idx)%nat then Signal n (xorb (complement s) true) else s.

(** A live gate with a fan-in on the new node has none on the old one. *)
Definition moved (nt : network) : Prop :=
  forall u nd, nodes nt !! u = Some nd -> live_at u nd = true ->
    Exists (fun s => index s = idx) (triple_list (children nd)) ->
    Forall (fun s => index s ≠ n) (triple_list (children nd)).

(** Live gates stay apart when their fan-ins are read before rewiring. *)
Definition apart (nt : network) : Prop :=
  forall i u ndi ndu,
    nodes nt !! i = Some ndi -> live_at i ndi = true ->
    nodes nt !! u = Some ndu -> live_at u ndu = true ->
    unrewire <$> triple_list (children ndi) ≡ₚ unrewire <$> triple_list (children ndu) ->
    i = u.

(** What holds while the consumers of [n] are moved to the fresh gate
    [idx]. *)
Record rewiring (nt : network) : Prop := Rewiring {
  rewiring_consistent : consistent nt;
  rewiring_new : (idx < length (nodes nt))%nat;
  rewiring_moved : moved nt;
  rewiring_apart : apart nt
}.

End fresh_gate.

(** ** Vocabulary for the values of the outputs and for the queue *)

(** The value of a signal under a valuation of the nodes. *)
Definition sig_val (v : nat -> bool) (s : signal) : bool :=
  xorb (v (index s)) (complement s).

Definition maj3 (v : nat -> bool) (k : triple) : bool :=
  let '(a, b, c) := k in maj (sig_val v a) (sig_val v b) (sig_val v c).

(** [v] gives every node of the pool its value under [asg]: the constant
    is false, an input has its assigned value, and a gate, live or taken
    out, the majority of its fan-ins, which lie in the pool at a strictly
    smaller [rank]. *)
Record valuation (ntk : network) (asg : nat -> bool) (v : nat -> bool) (rank : nat -> nat)
    : Prop := Valuation {
  val_nonempty : (0 < length (nodes ntk))%nat;
  val_const : v 0%nat = false;
  val_pi : forall n nd, nodes ntk !! n = Some nd -> n ≠ 0%nat -> ci nd = true -> v n = asg n;
  val_gate : forall n nd, nodes ntk !! n = Some nd -> n ≠ 0%nat -> ci nd = false ->
    v n = maj3 v (children nd) /\
    Forall (fun s => (index s < length (nodes ntk))%nat /\ (rank (index s) < rank n)%nat)
           (triple_list (children nd))
}.

(** The part of a node that a valuation reads. *)
Definition wiring (nd : node) : triple * bool := (children nd, ci nd).

(** The outputs of [ntk] have the values [bs] under [asg]. *)
Definition keeps_values (asg : nat -> bool) (bs : list bool) (ntk : network) : Prop :=
  exists v rank, valuation ntk asg v rank /\ sig_val v <$> outputs ntk = bs.

(** The edges the counters of the tests run over. *)
Definition counted_edges (ntk : network) : list signal :=
  concat (fanins ntk <$> live_gates ntk) ++ outputs ntk.

(** The number of pops that one queue entry for [n] brings about when no
    node is inverted: the node itself and, for a live gate, its three
    fan-ins in turn; [fuel] bounds the depth. *)
Fixpoint cone_weight (fuel : nat) (ntk : network) (n : nat) : nat :=
  match fuel with
  | O => 1
  | S fuel' =>
      if is_constant n || is_pi ntk n || is_dead ntk n then 1%nat
      else S (sum_list ((fun s => cone_weight fuel' ntk (index s)) <$> fanins ntk n))
  end.

Definition queue_weight (ntk : network) (q : list nat) : nat :=
  sum_list ((fun n => cone_weight n ntk n) <$> q).

(** [ntk'] has the outputs of [ntk] in number and the nodes of [ntk] with
    their kind, followed by gates only. *)
Definition grows (ntk ntk' : network) : Prop :=
  length (outputs ntk') = length (outputs ntk) /\
  exists k, ci <$> nodes ntk' = (ci <$> nodes ntk) ++ replicate k false.

(** * Properties *)

(** ** Arithmetic of the 32-bit counters *)

Lemma wrap32_small z : 0 <= z < 2 ^ 32 -> wrap32 z = z.
Proof. intros. unfold wrap32. by apply Z.mod_small. Qed.

Lemma to_int32_small z : - 2 ^ 31 <= z < 2 ^ 31 -> to_int32 z = z.
Proof.
  intros Hz. unfold to_int32, wrap32.
  destruct (Z.ltb_spec (z mod 2 ^ 32) (2 ^ 31)) as [H|H].
  - destruct (Z.lt_ge_cases z 0) as [Hn|Hp].
    + replace z with ((z + 2 ^ 32) - 1 * 2 ^ 32) in H by lia.
      rewrite Zminus_mod, Z_mod_mult, Z.sub_0_r, Z.mod_mod in H by lia.
      rewrite Z.mod_small in H by lia. lia.
    + apply Z.mod_small. lia.
  - destruct (Z.lt_ge_cases z 0) as [Hn|Hp].
    + replace z with ((z + 2 ^ 32) - 1 * 2 ^ 32) at 1 by lia.
      rewrite Zminus_mod, Z_mod_mult, Z.sub_0_r, Z.mod_mod by lia.
      rewrite Z.mod_small by lia. lia.
    + rewrite Z.mod_small in H by lia. lia.
Qed.

(** ** Generic list facts *)

Lemma fold_left_ext_in {A B} (f g : B -> A -> B) (l : list A) (b : B) :
  (forall b x, x ∈ l -> f b x = g b x) -> fold_left f l b = fold_left g l b.
Proof.
  revert b. induction l as [|x l IH]; intros b H; simpl; [done|].
  rewrite H by left. apply IH. intros. apply H. by right.
Qed.

Lemma filter_length_ext_in {A} (P Q : A -> Prop) `{forall x, Decision (P x)}
    `{forall x, Decision (Q x)} (l : list A) :
  (forall x, x ∈ l -> P x <-> Q x) -> length (filter P l) = length (filter Q l).
Proof.
  induction l as [|x l IH]; intros HPQ; [done|].
  rewrite !filter_cons.
  assert (length (filter P l) = length (filter Q l)) as E
    by (apply IH; intros; apply HPQ; by right).
  destruct (decide (P x)) as [HP|HP], (decide (Q x)) as [HQ|HQ]; simpl; try lia.
  - exfalso. apply HQ, HPQ; [left|done].
  - exfalso. apply HP, HPQ; [left|done].
Qed.

Lemma alter_children_same (f : node -> node) (i : nat) (l : list node) :
  (forall x, children (f x) = children x) ->
  children <$> alter f i l = children <$> l.
Proof.
  intros Hf. revert i. induction l as [|x l IH]; intros [|i]; try done.
  - cbn. by rewrite Hf.
  - cbn. f_equal. apply IH.
Qed.

(** ** Basic facts about the queries *)

Lemma fanins_length (ntk : network) (n : nat) : (length (fanins ntk n) <= 3)%nat.
Proof.
  unfold fanins. destruct (is_gate ntk n); [|simpl; lia].
  by destruct (children (get_node_obj ntk n)) as [[? ?] ?].
Qed.

Lemma elem_of_live_gates (ntk : network) (m : nat) :
  m ∈ live_gates ntk <-> is_live_gate ntk m = true.
Proof.
  unfold live_gates. rewrite list_elem_of_filter, elem_of_seq. split; [by intros [? _]|].
  intros H. split; [done|].
  unfold is_live_gate, is_gate in H.
  apply andb_prop in H as [H _]. apply andb_prop in H as [_ H].
  apply bool_decide_eq_true_1 in H. lia.
Qed.

Lemma fanout_of_out_of_range (ntk : network) (n : nat) :
  length (_fanout ntk) = length (nodes ntk) ->
  (length (nodes ntk) <= n)%nat -> fanout_of ntk n = [].
Proof.
  intros Hl Hn. unfold fanout_of. rewrite lookup_ge_None_2; [done|lia].
Qed.

(** ** The majority constructor *)

Lemma order_inputs_perm (a b c : signal) :
  triple_list (order_inputs a b c) ≡ₚ [a; b; c].
Proof.
  unfold order_inputs.
  repeat (case_match; simplify_eq); simpl; perm3.
Qed.

Lemma order_inputs_sorted (a b c a' b' c' : signal) :
  order_inputs a b c = (a', b', c') ->
  (index a' <= index b' <= index c')%nat.
Proof.
  unfold order_inputs.
  repeat (case_match; simplify_eq); intros; simplify_eq;
    repeat match goal with
           | H : (_ <? _)%nat = true |- _ => apply Nat.ltb_lt in H
           | H : (_ <? _)%nat = false |- _ => apply Nat.ltb_ge in H
           end; lia.
Qed.

(** C8. [create_maj_without_changing_comp] orders its three signals by
    index, keeping each signal whole; on equal first (or last) two indices
    it returns the agreeing signal or the remaining one and changes
    nothing; otherwise a hash hit returns the hit index uncomplemented,
    and a miss appends the node and returns its index uncomplemented.
    The fan-ins of the nodes already in the pool are never changed. *)
Theorem create_maj_without_changing_comp_spec (ntk : network) (a b c : signal) :
  let '(a', b', c') := order_inputs a b c in
  let '(ntk', r) := create_maj_without_changing_comp ntk a b c in
  [a'; b'; c'] ≡ₚ [a; b; c] /\
  (index a' <= index b' <= index c')%nat /\
  (if decide (index a' = index b') then
     r = (if decide (complement a' = complement b') then a' else c') /\ ntk' = ntk
   else if decide (index b' = index c') then
     r = (if decide (complement b' = complement c') then b' else a') /\ ntk' = ntk
   else
     match hash ntk !! (a', b', c') with
     | Some hit => r = Signal hit false /\ ntk' = ntk
     | None =>
         r = Signal (length (nodes ntk)) false /\
         length (nodes ntk') = S (length (nodes ntk)) /\
         children <$> (nodes ntk' !! length (nodes ntk)) = Some (a', b', c') /\
         hash ntk' !! (a', b', c') = Some (length (nodes ntk))
     end) /\
  children <$> take (length (nodes ntk)) (nodes ntk') = children <$> nodes ntk.
Proof.
  pose proof (order_inputs_perm a b c) as Hperm.
  unfold create_maj_without_changing_comp.
  destruct (order_inputs a b c) as [[a' b'] c'] eqn:Hord.
  pose proof (order_inputs_sorted _ _ _ _ _ _ Hord) as Hsorted.
  simpl in Hperm.
  destruct (index a' =? index b')%nat eqn:Hab;
    [apply Nat.eqb_eq in Hab | apply Nat.eqb_neq in Hab];
    destruct (decide (index a' = index b')) as [?|?]; try done.
  { do 2 (split; [done|]). split; [|by rewrite take_ge].
    split; [|done]. destruct (complement a'), (complement b'); simpl; try case_decide; congruence. }
  destruct (index b' =? index c')%nat eqn:Hbc;
    [apply Nat.eqb_eq in Hbc | apply Nat.eqb_neq in Hbc];
    destruct (decide (index b' = index c')) as [?|?]; try done.
  { do 2 (split; [done|]). split; [|by rewrite take_ge].
    split; [|done]. destruct (complement b'), (complement c'); simpl; try case_decide; congruence. }
  destruct (hash ntk !! (a', b', c')) as [hit|] eqn:Hh.
  { do 2 (split; [done|]). split; [done|]. by rewrite take_ge. }
  simpl. do 2 (split; [done|]). split; [split; [done|]; split_and!|].
  - by rewrite !length_alter, length_app, Nat.add_comm.
  - rewrite <- list_lookup_fmap, !alter_children_same by done.
    rewrite fmap_app, lookup_app_r by (by rewrite length_fmap).
    by rewrite length_fmap, Nat.sub_diag.
  - by rewrite lookup_insert_eq.
  - rewrite fmap_take, !alter_children_same by done.
    by rewrite fmap_app, take_app_length' by (by rewrite length_fmap).
Qed.

(** ** The gain evaluator *)

(** A two-way counting loop over any list with 32-bit counters. *)
Lemma count_loop {A} (cls : A -> option bool) (l : list A) (c u : Z) :
  0 <= c -> 0 <= u ->
  c + Z.of_nat (length l) < 2 ^ 32 -> u + Z.of_nat (length l) < 2 ^ 32 ->
  fold_left
    (fun '(c, u) x =>
       match cls x with
       | None => (c, u)
       | Some true => (wrap32 (c + 1), u)
       | Some false => (c, wrap32 (u + 1))
       end) l (c, u)
  = (c + Z.of_nat (length (filter (fun x => cls x = Some true) l)),
     u + Z.of_nat (length (filter (fun x => cls x = Some false) l))).
Proof.
  revert c u. induction l as [|x l IH]; intros c u Hc Hu Hcl Hul; simpl.
  - f_equal; lia.
  - simpl length in *. rewrite !filter_cons.
    destruct (cls x) as [[|]|] eqn:Hx.
    + rewrite wrap32_small by lia. rewrite IH by lia.
      rewrite decide_True, decide_False by done. simpl length. f_equal; lia.
    + rewrite wrap32_small by lia. rewrite IH by lia.
      rewrite decide_False, decide_True by done. simpl length. f_equal; lia.
    + rewrite IH by lia. rewrite !decide_False by done. done.
Qed.

(** [is_fanout_comp] on a consumer with a single edge to the node. *)
Lemma fold_comp_absent (n : nat) (l : list signal) (ret : bool) :
  Forall (fun s => index s ≠ n) l ->
  fold_left (fun ret fi => if (index fi =? n)%nat then complement fi else ret) l ret = ret.
Proof.
  revert ret. induction l as [|x l IH]; intros ret Hl; simpl; [done|].
  inversion Hl as [|? ? Hx Hl']; subst.
  apply Nat.eqb_neq in Hx. rewrite Hx. by apply IH.
Qed.

Lemma fold_comp_unique (n : nat) (l : list signal) (ret : bool) (s : signal) :
  NoDup (index <$> l) -> s ∈ l -> index s = n ->
  fold_left (fun ret fi => if (index fi =? n)%nat then complement fi else ret) l ret
  = complement s.
Proof.
  revert ret. induction l as [|x l IH]; intros ret Hnd Hin Hs; [by inversion Hin|].
  rewrite fmap_cons in Hnd. apply NoDup_cons in Hnd as [Hx Hnd]. simpl.
  apply elem_of_cons in Hin as [->|Hin].
  - rewrite Hs, Nat.eqb_refl. apply fold_comp_absent.
    apply Forall_forall. intros y Hy Heq. apply Hx.
    apply list_elem_of_fmap. exists y. split; [congruence|done].
  - by apply IH.
Qed.

Lemma is_fanout_comp_consumes (ntk : network) (n m : nat) (c : bool) :
  NoDup (index <$> fanins ntk m) ->
  Exists (fun s => index s = n) (fanins ntk m) ->
  is_fanout_comp ntk n m = c <-> Gain.consumes ntk m n c.
Proof.
  intros Hnd Hex. apply Exists_exists in Hex as (s & Hs & Hn).
  unfold is_fanout_comp. rewrite (fold_comp_unique n _ false s Hnd Hs Hn).
  unfold Gain.consumes. rewrite Exists_exists. split.
  - intros <-. by exists s.
  - intros (s' & Hs' & Hn' & <-).
    assert (s = s') as ->; [|done].
    apply list_elem_of_lookup in Hs as [i Hi]. apply list_elem_of_lookup in Hs' as [j Hj].
    assert (i = j) as ->.
    { eapply NoDup_lookup; [exact Hnd| |]; rewrite list_lookup_fmap.
      - by rewrite Hi.
      - rewrite Hj. simpl. congruence. }
    congruence.
Qed.

(** In a well-formed network every recorded consumer of [n] has exactly
    one edge to [n]. *)
Lemma wf_consumer (ntk : network) (n m : nat) :
  wf ntk -> m ∈ fanout_of ntk n ->
  NoDup (index <$> fanins ntk m) /\ Exists (fun s => index s = n) (fanins ntk m).
Proof.
  intros (_ & _ & _ & (Hlen & Hfo & _) & (_ & Hlive & _)) Hm.
  destruct (decide (n < length (nodes ntk))%nat) as [Hn|Hn].
  - rewrite Forall_forall in Hfo. specialize (Hfo n).
    rewrite elem_of_seq in Hfo. specialize (Hfo ltac:(lia)).
    rewrite Forall_forall in Hfo. destruct (Hfo m Hm) as [Hl Hex].
    split; [|done].
    rewrite Forall_forall in Hlive.
    by apply Hlive, elem_of_live_gates.
  - rewrite fanout_of_out_of_range in Hm by (done || lia). by inversion Hm.
Qed.

(** C7. On a well-formed network whose counters stay within 32 bits,
    [one_level n] is 0 when [n] is a primary input, the constant or dead,
    and otherwise [(C_in + C_out + C_po) - (U_in + U_out + U_po)] with the
    six counts of section 4.3. *)
Theorem one_level_spec (ntk : network) (n : nat) :
  wf ntk ->
  Z.of_nat (length (fanout_of ntk n) + length (outputs ntk)) < 2 ^ 31 - 3 ->
  IM.one_level ntk n =
    if is_pi ntk n || is_constant n || is_dead ntk n then 0 else Gain.gain ntk n.
Proof.
  intros Hwf Hsize. unfold IM.one_level.
  destruct (is_pi ntk n || is_constant n || is_dead ntk n); [done|].
  pose proof (fanins_length ntk n) as Hfi.
  assert (2 ^ 31 = 2147483648) as E31 by done.
  assert (2 ^ 32 = 4294967296) as E32 by done.
  unfold IM.count_inputs.
  rewrite (fold_left_ext_in _
    (fun '(c, u) x =>
       match (if is_constant (index x) then None else Some (complement x)) with
       | None => (c, u)
       | Some true => (wrap32 (c + 1), u)
       | Some false => (c, wrap32 (u + 1))
       end)); cycle 1.
  { intros [c u] x _. by destruct (is_constant (index x)), (complement x). }
  rewrite count_loop by lia.
  change (IM.count_outputs ntk n) with
    (fold_left
       (fun '(c, u) x =>
          match Some (is_fanout_comp ntk n x) with
          | None => (c, u)
          | Some true => (wrap32 (c + 1), u)
          | Some false => (c, wrap32 (u + 1))
          end) (fanout_of ntk n) (0, 0)).
  rewrite count_loop by lia.
  unfold IM.count_po.
  rewrite (fold_left_ext_in _
    (fun '(c, u) x =>
       match (if (index x =? n)%nat then Some (complement x) else None) with
       | None => (c, u)
       | Some true => (wrap32 (c + 1), u)
       | Some false => (c, wrap32 (u + 1))
       end)); cycle 1.
  { intros [c u] x _. by destruct (index x =? n)%nat, (complement x). }
  rewrite count_loop by lia.
  unfold Gain.gain, Gain.C_in, Gain.U_in, Gain.C_out, Gain.U_out, Gain.C_po, Gain.U_po.
  rewrite (filter_length_ext_in (fun s => complement s = true /\ is_constant (index s) = false)
             (fun x => (if is_constant (index x) then None else Some (complement x)) = Some true)
             (fanins ntk n)); cycle 1.
  { intros x _. destruct (is_constant (index x)), (complement x); intuition congruence. }
  rewrite (filter_length_ext_in (fun s => complement s = false /\ is_constant (index s) = false)
             (fun x => (if is_constant (index x) then None else Some (complement x)) = Some false)
             (fanins ntk n)); cycle 1.
  { intros x _. destruct (is_constant (index x)), (complement x); intuition congruence. }
  rewrite (filter_length_ext_in (fun m => Gain.consumes ntk m n true)
             (fun x => Some (is_fanout_comp ntk n x) = Some true) (fanout_of ntk n)); cycle 1.
  { intros m Hm. destruct (wf_consumer ntk n m Hwf Hm) as [Hnd Hex].
    rewrite <- (is_fanout_comp_consumes ntk n m true Hnd Hex). intuition congruence. }
  rewrite (filter_length_ext_in (fun m => Gain.consumes ntk m n false)
             (fun x => Some (is_fanout_comp ntk n x) = Some false) (fanout_of ntk n)); cycle 1.
  { intros m Hm. destruct (wf_consumer ntk n m Hwf Hm) as [Hnd Hex].
    rewrite <- (is_fanout_comp_consumes ntk n m false Hnd Hex). intuition congruence. }
  rewrite (filter_length_ext_in (fun s => index s = n /\ complement s = true)
             (fun x => (if (index x =? n)%nat then Some (complement x) else None) = Some true)
             (outputs ntk)); cycle 1.
  { intros x _. destruct (Nat.eqb_spec (index x) n), (complement x); intuition congruence. }
  rewrite (filter_length_ext_in (fun s => index s = n /\ complement s = false)
             (fun x => (if (index x =? n)%nat then Some (complement x) else None) = Some false)
             (outputs ntk)); cycle 1.
  { intros x _. destruct (Nat.eqb_spec (index x) n), (complement x); intuition congruence. }
  simpl.
  repeat match goal with
         | |- context [length (filter ?P ?l)] =>
             let H := fresh "Hf" in
             pose proof (length_filter P l) as H;
             generalize dependent (length (filter P l)); intros
         end.
  rewrite to_int32_small; lia.
Qed.

Lemma one_level_spec_witness :
  wf Examples.one_level_test /\
  Z.of_nat (length (fanout_of Examples.one_level_test 11)
            + length (outputs Examples.one_level_test)) < 2 ^ 31 - 3 /\
  IM.one_level Examples.one_level_test 11 =
    if is_pi Examples.one_level_test 11 || is_constant 11
       || is_dead Examples.one_level_test 11
    then 0 else Gain.gain Examples.one_level_test 11.
Proof.
  assert (wf Examples.one_level_test) as Hwf by wf_by_computation.
  assert (Z.of_nat (length (fanout_of Examples.one_level_test 11)
                    + length (outputs Examples.one_level_test)) < 2 ^ 31 - 3) as Hsz
    by (vm_compute; reflexivity).
  split; [exact Hwf|]. split; [exact Hsz|].
  exact (one_level_spec Examples.one_level_test 11 Hwf Hsz).
Defined.

(** ** The statistics of the propagation pass *)

Lemma seed_st (p : IP.impl) : IP.st (IP.seed p) = IP.st p.
Proof.
  unfold IP.seed. generalize (outputs (IP.ntk p)) at 1. intros l. revert p.
  induction l as [|f l IH]; intros p; simpl; [done|].
  destruct (complement f); by rewrite IH.
Qed.

Lemma step_st (fuel : nat) (p p' : IP.impl) (n : nat) (rest : list nat) :
  IP.step fuel p n rest = Some p' -> IP.st p' = IP.st p.
Proof.
  unfold IP.step. intros H.
  repeat (case_match; simplify_eq); done.
Qed.

Lemma loop_st (fuel : nat) (p p' : IP.impl) :
  IP.loop fuel p = Some p' -> IP.st p' = IP.st p.
Proof.
  revert p. induction fuel as [|fuel IH]; intros p H; simpl in H; [done|].
  destruct (IP.q p) as [|n rest]; [by simplify_eq|].
  destruct (IP.step fuel p n rest) as [p1|] eqn:Hs; [|done].
  rewrite (IH _ H). by eapply step_st.
Qed.

(** C10. Whatever the propagation pass does to the network, the
    statistics it hands back are the default-initialized ones:
    [time_total], [num_calls] and [num_inverters_removed] are all 0. *)
Theorem propagation_leaves_stats (fuel : nat) (net net' : network) (s : stats) :
  IP.mig_inv_propogation fuel net = Some (net', s) ->
  time_total s = 0 /\ num_calls s = 0 /\ num_inverters_removed s = 0.
Proof.
  unfold IP.mig_inv_propogation, IP.run. intros H.
  destruct (IP.loop fuel _) as [p|] eqn:Hl; [|done]. simplify_eq.
  apply loop_st in Hl. rewrite seed_st in Hl. simpl in Hl. by rewrite Hl.
Qed.

(** On the network of the propagation test the pass removes all eleven
    complements on gate-sourced edges and still reports zeros. *)
Lemma propagation_leaves_stats_witness :
  exists net' s,
    IP.mig_inv_propogation 200 Examples.propagation_test = Some (net', s) /\
    complement_count_except_pi Examples.propagation_test = 11%nat /\
    complement_count_except_pi net' = 0%nat /\
    time_total s = 0 /\ num_calls s = 0 /\ num_inverters_removed s = 0.
Proof.
  destruct (IP.mig_inv_propogation 200 Examples.propagation_test) as [[net' s]|] eqn:E.
  - exists net', s. split; [reflexivity|].
    split; [vm_compute; reflexivity|].
    split; [|exact (propagation_leaves_stats 200 Examples.propagation_test net' s E)].
    assert (option_map (fun r => complement_count_except_pi (fst r))
              (IP.mig_inv_propogation 200 Examples.propagation_test) = Some 0%nat) as H
      by (vm_compute; reflexivity).
    rewrite E in H. simpl in H. congruence.
  - exfalso. revert E. vm_compute. discriminate.
Defined.

(** ** The passes on the example networks *)

Lemma wf_chain : wf Examples.chain.
Proof. wf_by_computation. Qed.

Lemma wf_dual_chain : wf Examples.dual_chain.
Proof. wf_by_computation. Qed.

Lemma wf_dual_outputs : wf Examples.dual_outputs.
Proof. wf_by_computation. Qed.

Lemma wf_dual_pair : wf Examples.dual_pair.
Proof. wf_by_computation. Qed.

Lemma wf_shared : wf Examples.shared.
Proof. wf_by_computation. Qed.

(** C3, on the code. On [chain] the sweep credits [two_level 4 = 1]
    and then inverts 4 and its parent 5; the parent 6, whose gain was
    part of the credit, is no longer worth inverting. The pass reports
    one inverter removed while the complement count goes from 4 to 5. *)
Lemma minimization_miscounts :
  wf Examples.chain /\
  complement_count Examples.chain = 4%nat /\
  (let r := IM.mig_inv_minimization 0 Examples.chain in
   num_inverters_removed (snd r) = 1 /\ complement_count (fst r) = 5%nat).
Proof. split; [exact wf_chain|]. vm_compute. done. Qed.

(** C2, on the code. On [dual_chain] the pass inverts gate 7 into the
    new gate 8 and then gate 4, whose dual 5 is already in the hash
    table: the consumer 6 of 4 collapses onto 5 and is substituted, which
    rewires gate 8 from [!6] to [!5]. Gate 6 is dead when it is popped,
    so 5 is never enqueued: when the pass returns, the output points to
    the live gate 8, which still reads the live gate 5 through a
    complemented edge. On [dual_outputs] the same substitution moves the
    output [!6] to [!4] after the last visit of gate 4. In both results
    [complement_count_except_pi] is 1, and I1-I4 hold. *)
Lemma propagation_leaves_complemented_edge :
  wf Examples.dual_chain /\
  option_map (fun r => (outputs (fst r), is_live_gate (fst r) 8, fanout_size (fst r) 8,
                        fanins (fst r) 8, is_live_gate (fst r) 5,
                        complement_count_except_pi (fst r), bool_decide (wf (fst r))))
             (IP.mig_inv_propogation 100 Examples.dual_chain)
  = Some ([Examples.pos 8], true, 1,
          [Examples.neg 2; Examples.pos 4; Examples.neg 5], true, 1%nat, true) /\
  wf Examples.dual_outputs /\
  option_map (fun r => (outputs (fst r), is_live_gate (fst r) 4,
                        complement_count_except_pi (fst r), bool_decide (wf (fst r))))
             (IP.mig_inv_propogation 100 Examples.dual_outputs)
  = Some ([Examples.pos 4; Examples.neg 4], true, 1%nat, true).
Proof.
  split; [exact wf_dual_chain|]. split; [vm_compute; reflexivity|].
  split; [exact wf_dual_outputs|]. vm_compute; reflexivity.
Qed.

(** C4, on the code. The first run on [dual_chain] leaves the live gate
    8 = M(!2,4,!5) under the output. The second run, on that result,
    pops 5, finds the complemented edge from 8 and inverts 5: its dual 4
    is in the hash table, gate 8 collapses onto 4 and is substituted, and
    gates 8 and 5 die. The output moves from 8 to 4, the complement
    count goes from 5 to 2 and the number of live gates from 3 to 1. *)
Lemma propagation_not_idempotent :
  wf Examples.dual_chain /\
  option_map (fun r => (outputs (fst r), complement_count (fst r), num_gates (fst r),
                        bool_decide (wf (fst r)),
                        outputs (snd r), complement_count (snd r), num_gates (snd r)))
             (twice 100 Examples.dual_chain)
  = Some ([Examples.pos 8], 5%nat, 3%nat, true, [Examples.pos 4], 2%nat, 1%nat).
Proof. split; [exact wf_dual_chain|]. vm_compute. reflexivity. Qed.

(** C5, on the code. On [dual_pair], inverting gate 5 makes its
    consumer 6 collapse: [replace_in_node] answers the signal [!1]. The
    minimization pass drops that answer: gate 6 stays live on its old
    fan-ins and the output stays on 6, during [inv_node] and through the
    whole pass. The [inv_node] of the propagation pass, on the same
    network, substitutes 6: the output moves to [!1] and 6 dies. *)
Lemma minimization_drops_substitution :
  wf Examples.dual_pair /\
  snd (replace_in_node (fanout_view Examples.dual_pair) 6 5 (Examples.neg 4))
    = Some (Examples.neg 1) /\
  (let r := IM.inv_node (fanout_view Examples.dual_pair) 5 true in
   outputs (fst r) = [Examples.pos 6] /\ is_live_gate (fst r) 6 = true /\
   fanins (fst r) 6 = [Examples.neg 1; Examples.pos 4; Examples.pos 5]) /\
  (let r := IM.mig_inv_minimization 0 Examples.dual_pair in
   outputs (fst r) = [Examples.pos 6] /\ is_live_gate (fst r) 6 = true /\
   fanins (fst r) 6 = [Examples.neg 1; Examples.pos 4; Examples.pos 5]) /\
  option_map (fun r => (outputs (fst r), is_live_gate (fst r) 6))
             (IP.inv_node 100 (fanout_view Examples.dual_pair) 5 true)
    = Some ([Examples.neg 1], false).
Proof. split; [exact wf_dual_pair|]. vm_compute. done. Qed.

(** C9, as stated. On [shared] the first pop inverts gate 3 into the
    new gate 5 and rewires gate 4 onto it; the second pop, of gate 4,
    enqueues the index 5. *)
Lemma pops_can_enqueue_larger :
  wf Examples.shared /\ ~ Trace.pops_enqueue_smaller Examples.shared.
Proof.
  split; [exact wf_shared|]. intros H.
  destruct (Trace.iterate 100 1 (Trace.start Examples.shared)) as [p1|] eqn:E1;
    [|by vm_compute in E1].
  assert (IP.q p1 = [4; 0; 1; 2]%nat) as Hq1.
  { assert (option_map IP.q (Trace.iterate 100 1 (Trace.start Examples.shared))
            = Some [4; 0; 1; 2]%nat) as X by (vm_compute; reflexivity).
    rewrite E1 in X. by simplify_eq/=. }
  assert (match Trace.iterate 100 1 (Trace.start Examples.shared) with
          | Some p => option_map IP.q (IP.step 100 p 4 [0; 1; 2]%nat)
          | None => None
          end = Some [0; 1; 2; 0; 2; 5]%nat) as X by (vm_compute; reflexivity).
  rewrite E1 in X.
  destruct (IP.step 100 p1 4 [0; 1; 2]%nat) as [p2|] eqn:E2; [|done].
  simpl in X. simplify_eq.
  destruct (H 100%nat 1%nat p1 4%nat [0; 1; 2]%nat p2 E1 Hq1 E2) as (l & Hl & Hsmall).
  rewrite X in Hl.
  change [0; 1; 2; 0; 2; 5]%nat with ([0; 1; 2] ++ [0; 2; 5])%nat in Hl.
  apply app_inv_head in Hl. subst l.
  inversion Hsmall as [|? ? _ H1]; subst. inversion H1 as [|? ? _ H2]; subst.
  inversion H2 as [|? ? H3 _]; subst. lia.
Qed.

(** * The gate count of the minimization pass *)

(** ** Sums over the node pool *)

Lemma sum_imap_ext {A} (F G : nat -> A -> nat) (l : list A) :
  (forall i y, l !! i = Some y -> F i y = G i y) ->
  sum_list (imap F l) = sum_list (imap G l).
Proof.
  revert F G. induction l as [|x l IH]; intros F G H; simpl; [done|].
  rewrite (H 0%nat x eq_refl). f_equal. apply IH. intros i y Hi. by apply (H (S i)).
Qed.

Lemma sum_imap_app {A} (F : nat -> A -> nat) (l : list A) (x : A) :
  sum_list (imap F (l ++ [x])) = (sum_list (imap F l) + F (length l) x)%nat.
Proof.
  rewrite imap_app, sum_list_with_app. simpl. by rewrite !Nat.add_0_r.
Qed.

Lemma sum_imap_alter {A} (F : nat -> A -> nat) (g : A -> A) (j : nat) (l : list A) (y : A) :
  l !! j = Some y ->
  (sum_list (imap F (alter g j l)) + F j y = sum_list (imap F l) + F j (g y))%nat.
Proof.
  revert F j. induction l as [|x l IH]; intros F [|j] Hj; simplify_eq/=; [lia|].
  specialize (IH (F ∘ S) j Hj). simpl in IH. cbn. unfold compose in *. lia.
Qed.

Lemma sum_imap_alter_same {A} (F : nat -> A -> nat) (g : A -> A) (j : nat) (l : list A) :
  (forall y, l !! j = Some y -> F j (g y) = F j y) ->
  sum_list (imap F (alter g j l)) = sum_list (imap F l).
Proof.
  intros H. destruct (l !! j) as [y|] eqn:Hj.
  - pose proof (sum_imap_alter F g j l y Hj). rewrite (H y eq_refl) in *. lia.
  - f_equal. f_equal. apply list_eq. intros i.
    destruct (decide (i = j)) as [->|Hne].
    + rewrite list_lookup_alter_eq, Hj. done.
    + by rewrite list_lookup_alter_ne.
Qed.

(** ** Queries through the pool *)

Lemma get_node_obj_lookup (ntk : network) (n : nat) (nd : node) :
  nodes ntk !! n = Some nd -> get_node_obj ntk n = nd.
Proof. unfold get_node_obj. by intros ->. Qed.

Lemma is_gate_lookup (ntk : network) (n : nat) (nd : node) :
  nodes ntk !! n = Some nd ->
  is_gate ntk n = negb (is_constant n) && negb (ci nd).
Proof.
  intros H. unfold is_gate, is_pi. rewrite (get_node_obj_lookup _ _ _ H).
  rewrite bool_decide_eq_true_2 by (by eapply lookup_lt_Some). by rewrite andb_true_r.
Qed.

Lemma is_gate_None (ntk : network) (n : nat) :
  nodes ntk !! n = None -> is_gate ntk n = false.
Proof.
  intros H. unfold is_gate. apply lookup_ge_None in H.
  rewrite bool_decide_eq_false_2 by lia. by rewrite andb_false_r.
Qed.

Lemma is_live_gate_lookup (ntk : network) (n : nat) (nd : node) :
  nodes ntk !! n = Some nd -> is_live_gate ntk n = live_at n nd.
Proof.
  intros H. unfold is_live_gate, live_at, is_dead.
  by rewrite (is_gate_lookup _ _ _ H), (get_node_obj_lookup _ _ _ H).
Qed.

Lemma is_live_gate_Some (ntk : network) (n : nat) :
  is_live_gate ntk n = true ->
  exists nd, nodes ntk !! n = Some nd /\ live_at n nd = true.
Proof.
  intros H. destruct (nodes ntk !! n) as [nd|] eqn:E.
  - exists nd. split; [done|]. by rewrite <- (is_live_gate_lookup _ _ _ E).
  - unfold is_live_gate in H. by rewrite (is_gate_None _ _ E) in H.
Qed.

Lemma fanins_live (ntk : network) (n : nat) (nd : node) :
  nodes ntk !! n = Some nd -> live_at n nd = true ->
  fanins ntk n = triple_list (children nd).
Proof.
  intros H Hl. unfold fanins. rewrite (is_gate_lookup _ _ _ H), (get_node_obj_lookup _ _ _ H).
  unfold live_at in Hl. apply andb_prop in Hl as [-> _]. done.
Qed.

(** [num_gates] as a sum over the pool. *)
Lemma live_gates_filter_seq (ntk : network) (k : nat) (l : list node) :
  (forall i nd, l !! i = Some nd -> nodes ntk !! (k + i)%nat = Some nd) ->
  length (filter (fun n => is_live_gate ntk n = true) (seq k (length l)))
  = sum_list (imap (fun i nd => if live_at (k + i) nd then 1%nat else 0%nat) l).
Proof.
  revert k. induction l as [|x l IH]; intros k H; simpl; [done|].
  rewrite filter_cons.
  assert (nodes ntk !! k = Some x) as Hk.
  { specialize (H 0%nat x eq_refl). by rewrite Nat.add_0_r in H. }
  rewrite (is_live_gate_lookup _ _ _ Hk), Nat.add_0_r.
  assert (length (filter (fun n => is_live_gate ntk n = true) (seq (S k) (length l)))
          = sum_list (imap ((fun i nd => if live_at (k + i) nd then 1%nat else 0%nat) ∘ S) l))
    as E.
  { rewrite (IH (S k)).
    - apply sum_imap_ext. intros; simpl. by rewrite Nat.add_succ_r.
    - intros i nd Hi. specialize (H (S i) nd Hi). by rewrite Nat.add_succ_r in H. }
  destruct (live_at k x); [rewrite decide_True by done|rewrite decide_False by done];
    simpl; rewrite E; done.
Qed.

Lemma num_gates_sum (ntk : network) :
  num_gates ntk = sum_list (imap (fun i nd => if live_at i nd then 1%nat else 0%nat) (nodes ntk)).
Proof.
  unfold num_gates, live_gates.
  by rewrite (live_gates_filter_seq ntk 0 (nodes ntk)).
Qed.

Lemma order_inputs_sorted_id (a b c : signal) :
  (index a <= index b <= index c)%nat -> order_inputs a b c = (a, b, c).
Proof.
  intros [Hab Hbc]. unfold order_inputs.
  repeat match goal with
         | |- context [(?x <? ?y)%nat] => destruct (Nat.ltb_spec x y); try lia
         end; done.
Qed.

Lemma canonical_strictly_sorted (k : triple) :
  canonical k = k -> NoDup (index <$> triple_list k) -> strictly_sorted k.
Proof.
  destruct k as [[a b] c]. simpl. intros Hc Hnd.
  pose proof (order_inputs_sorted _ _ _ _ _ _ Hc) as [H1 H2].
  apply NoDup_cons in Hnd as [Ha Hnd]. apply NoDup_cons in Hnd as [Hb _].
  rewrite !elem_of_cons in Ha. rewrite elem_of_cons in Hb.
  assert (index a ≠ index b) by naive_solver.
  assert (index b ≠ index c) by naive_solver.
  lia.
Qed.

Lemma wf_consistent (ntk : network) : wf ntk -> consistent ntk.
Proof.
  intros (_ & H2 & H3 & (Hlen & Hsound & Hcompl) & (_ & Hlive & Hhash & Hout & _)).
  unfold I2, I3 in *.
  rewrite Forall_forall in Hlive.
  assert (forall m nd, nodes ntk !! m = Some nd -> live_at m nd = true ->
            m ∈ live_gates ntk /\ fanins ntk m = triple_list (children nd) /\
            get_node_obj ntk m = nd) as Hl.
  { intros m nd Hm Hlv. split_and!.
    - apply elem_of_live_gates. by rewrite (is_live_gate_lookup _ _ _ Hm).
    - by apply fanins_live.
    - by apply get_node_obj_lookup. }
  split.
  - intros n nd Hn Hd. rewrite Forall_forall in H2.
    specialize (H2 n). rewrite elem_of_seq in H2.
    pose proof (lookup_lt_Some _ _ _ Hn).
    unfold is_dead, fanout_size in H2. rewrite (get_node_obj_lookup _ _ _ Hn) in H2.
    apply H2; [lia|done].
  - done.
  - intros n m Hm.
    destruct (decide (n < length (nodes ntk))%nat) as [Hn|Hn].
    + rewrite Forall_forall in Hsound. specialize (Hsound n).
      rewrite elem_of_seq in Hsound. specialize (Hsound ltac:(lia)).
      rewrite Forall_forall in Hsound. destruct (Hsound m Hm) as [Hlv Hex].
      destruct (is_live_gate_Some _ _ Hlv) as (nd & Hnd & Hlv').
      exists nd. split_and!; [done..|]. by rewrite <- (fanins_live _ _ _ Hnd Hlv').
    + rewrite fanout_of_out_of_range in Hm by (done || lia). by inversion Hm.
  - intros m nd s Hm Hlv Hs. destruct (Hl m nd Hm Hlv) as (Hin & Hf & _).
    rewrite Forall_forall in Hcompl. specialize (Hcompl m Hin).
    rewrite Forall_forall in Hcompl. apply Hcompl. by rewrite Hf.
  - intros m nd Hm Hlv. destruct (Hl m nd Hm Hlv) as (Hin & Hf & Hg).
    destruct (Hlive m Hin) as (Hh & _). by rewrite Hg in Hh.
  - intros m nd Hm Hlv. destruct (Hl m nd Hm Hlv) as (Hin & Hf & Hg).
    destruct (Hlive m Hin) as (_ & Hc & Hnd). rewrite Hg in Hc. rewrite Hf in Hnd.
    by apply canonical_strictly_sorted.
  - intros m nd Hm Hlv. destruct (Hl m nd Hm Hlv) as (Hin & Hf & Hg).
    rewrite Forall_forall in H3. specialize (H3 m).
    pose proof (lookup_lt_Some _ _ _ Hm). rewrite elem_of_seq in H3.
    specialize (H3 ltac:(lia)). rewrite Hf in H3.
    eapply Forall_impl; [exact H3|]. simpl. intros. lia.
  - intros k i Hk. specialize (Hhash k i Hk). simpl in Hhash. destruct Hhash as [Hlv Hc].
    destruct (is_live_gate_Some _ _ Hlv) as (nd & Hnd & Hlv').
    exists nd. split_and!; [done..|]. by rewrite (get_node_obj_lookup _ _ _ Hnd) in Hc.
  - done.
Qed.

(** ** Arithmetic of the reference counter *)

Lemma wrap32_idem (z : Z) : wrap32 (wrap32 z) = wrap32 z.
Proof. unfold wrap32. by rewrite Z.mod_mod. Qed.

Lemma wrap32_add_l (a b : Z) : wrap32 (wrap32 a + b) = wrap32 (a + b).
Proof. unfold wrap32. by rewrite Zplus_mod_idemp_l. Qed.

Lemma wrap32_sub_l (a b : Z) : wrap32 (wrap32 a - b) = wrap32 (a - b).
Proof. unfold wrap32. by rewrite Zminus_mod_idemp_l. Qed.

Lemma h1_incr (nd : node) : h1 (incr_h1 nd) = wrap32 (h1 nd + 1).
Proof. done. Qed.

Lemma h1_decr (nd : node) : h1 (decr_h1 nd) = wrap32 (h1 nd - 1).
Proof. done. Qed.

Lemma h1_decr_to (nd : node) (z : Z) :
  h1 nd = wrap32 (z + 1) -> h1 (decr_h1 nd) = wrap32 z.
Proof.
  intros H. rewrite h1_decr, H, wrap32_sub_l. apply (f_equal wrap32). lia.
Qed.

Lemma h1_incr_to (nd : node) (z : Z) :
  h1 nd = wrap32 (z - 1) -> h1 (incr_h1 nd) = wrap32 z.
Proof.
  intros H. rewrite h1_incr, H, wrap32_add_l. apply (f_equal wrap32). lia.
Qed.

(** Settles a goal [h1 (bumps nd) = wrap32 z] from [E : h1 nd = wrap32 z']. *)
Ltac h1_chain E :=
  unfold id;
  repeat first [ apply h1_decr_to | apply h1_incr_to ];
  rewrite E; apply (f_equal wrap32); lia.

Lemma incr_keeps_shape : keeps_shape incr_h1.
Proof. by intros []. Qed.

Lemma decr_keeps_shape : keeps_shape decr_h1.
Proof. by intros []. Qed.

Lemma gate_refs_alter_keeps (f : node -> node) (i : nat) (ns : list node) (n : nat) :
  keeps_shape f -> gate_refs (alter f i ns) n = gate_refs ns n.
Proof.
  intros Hf. unfold gate_refs. apply sum_imap_alter_same.
  intros y _. destruct (Hf y) as (Hc & Hi & Hd). unfold live_at. by rewrite Hc, Hi, Hd.
Qed.

Lemma occurrences_triple (n : nat) (a b c : signal) :
  occurrences n (a, b, c)
  = ((if decide (index a = n) then 1 else 0) + (if decide (index b = n) then 1 else 0)
     + (if decide (index c = n) then 1 else 0))%nat.
Proof.
  unfold occurrences. simpl. rewrite !filter_cons, filter_nil.
  repeat case_decide; simpl; lia.
Qed.

Lemma lookup_alter_bump (f : node -> node) (i j : nat) (l : list node) :
  alter f i l !! j = bump f i j <$> l !! j.
Proof.
  unfold bump. rewrite list_lookup_alter. case_decide; subst; [done|].
  destruct (l !! j); simpl; done.
Qed.

Lemma take_out_node_live (ntk : network) (n : nat) (nd : node) (a b c : signal) :
  nodes ntk !! n = Some nd -> live_at n nd = true -> children nd = (a, b, c) ->
  take_out_node ntk n =
    Network (alter decr_h1 (index c) (alter decr_h1 (index b) (alter decr_h1 (index a)
               (alter mark_dead n (nodes ntk)))))
            (delete (a, b, c) (hash ntk)) (outputs ntk)
            (filter (fun x => x ≠ n) <$> _fanout ntk).
Proof.
  intros Hn Hl Hc. unfold take_out_node.
  rewrite (is_live_gate_lookup _ _ _ Hn), Hl. simpl.
  by rewrite (get_node_obj_lookup _ _ _ Hn), Hc.
Qed.

Lemma take_out_node_not_live (ntk : network) (n : nat) :
  is_live_gate ntk n = false -> take_out_node ntk n = ntk.
Proof. intros H. unfold take_out_node. by rewrite H. Qed.

Lemma fanout_of_fmap_filter (ntk : network) (fo : list (list nat)) (P : nat -> Prop)
    `{forall x, Decision (P x)} (n : nat) :
  default [] ((filter P <$> fo) !! n) = filter P (default [] (fo !! n)).
Proof. rewrite list_lookup_fmap. by destruct (fo !! n). Qed.

Lemma take_out_consistent (ntk : network) (n : nat) :
  consistent ntk -> consistent (take_out_node ntk n).
Proof.
  intros C. destruct (is_live_gate ntk n) eqn:Hlive;
    [|by rewrite take_out_node_not_live].
  destruct (is_live_gate_Some _ _ Hlive) as (ndn & Hn & Hln).
  destruct (children ndn) as [[a b] c] eqn:Hkids.
  rewrite (take_out_node_live _ _ _ _ _ _ Hn Hln Hkids).
  set (ns' := alter decr_h1 (index c) (alter decr_h1 (index b) (alter decr_h1 (index a)
               (alter mark_dead n (nodes ntk))))).
  assert (length ns' = length (nodes ntk)) as Hlen by (unfold ns'; by rewrite !length_alter).
  (* every entry of the new pool comes from the old one *)
  assert (forall j nd', ns' !! j = Some nd' ->
            exists nd, nodes ntk !! j = Some nd /\ children nd' = children nd /\
                       ci nd' = ci nd /\
                       dead nd' = (if decide (n = j) then true else dead nd) /\
                       h1 nd' = h1 (bump decr_h1 (index c) j (bump decr_h1 (index b) j
                                     (bump decr_h1 (index a) j nd)))) as Hback.
  { intros j nd'. unfold ns'. rewrite !lookup_alter_bump.
    destruct (nodes ntk !! j) as [nd|] eqn:Hj; [|done]. simpl. intros ?; simplify_eq.
    exists nd. split; [done|]. unfold bump, mark_dead.
    repeat case_decide; subst; simpl; done. }
  assert (forall j nd', ns' !! j = Some nd' -> live_at j nd' = true ->
            exists nd, nodes ntk !! j = Some nd /\ live_at j nd = true /\
                       children nd' = children nd /\ j ≠ n) as Hlive'.
  { intros j nd' Hj Hl. destruct (Hback j nd' Hj) as (nd & Hnd & Hc & Hi & Hd & _).
    exists nd. unfold live_at in *. rewrite Hi, Hd in Hl. rewrite Hc.
    case_decide; subst.
    - by rewrite !andb_false_r in Hl.
    - done. }
  assert (forall x, gate_refs ns' x + occurrences x (a, b, c) = gate_refs (nodes ntk) x)%nat
    as Hrefs.
  { intros x. unfold ns'. rewrite !gate_refs_alter_keeps by apply decr_keeps_shape.
    unfold gate_refs.
    pose proof (sum_imap_alter
      (fun i nd => if live_at i nd then occurrences x (children nd) else 0%nat)
      mark_dead n (nodes ntk) ndn Hn) as E.
    simpl in E. rewrite Hln, Hkids in E.
    replace (live_at n (mark_dead ndn)) with false in E
      by (unfold live_at, mark_dead; simpl; by rewrite andb_false_r).
    lia. }
  split; simpl.
  - (* I2 *)
    intros j nd' Hj Hdead.
    destruct (Hback j nd' Hj) as (nd & Hnd & Hc & Hi & Hd & Hh).
    rewrite Hd in Hdead. case_decide; [done|].
    pose proof (refs_exact _ C j nd Hnd Hdead) as E.
    unfold occurrences_of in *. simpl.
    specialize (Hrefs j). rewrite occurrences_triple in Hrefs.
    rewrite Hh. unfold bump.
    repeat case_decide; h1_chain E.
  - by rewrite length_fmap, Hlen, (fanout_length _ C).
  - intros x m Hm. unfold fanout_of in Hm. simpl in Hm.
    rewrite (fanout_of_fmap_filter ntk) in Hm. apply list_elem_of_filter in Hm as [Hne Hm].
    destruct (fanout_sound _ C x m Hm) as (nd & Hnd & Hl & Hex).
    assert (exists nd', ns' !! m = Some nd') as [nd' Hnd'].
    { apply lookup_lt_is_Some. rewrite Hlen. by eapply lookup_lt_Some. }
    destruct (Hback m nd' Hnd') as (nd0 & Hnd0 & Hc & Hi & Hd & _). simplify_eq.
    exists nd'. split; [done|]. rewrite Hc. split; [|done].
    unfold live_at in *. rewrite Hi, Hd. by rewrite decide_False by done.
  - intros m nd' s Hm Hl Hs.
    destruct (Hlive' m nd' Hm Hl) as (nd & Hnd & Hlv & Hc & Hne).
    unfold fanout_of. simpl. rewrite (fanout_of_fmap_filter ntk).
    apply list_elem_of_filter. split; [done|].
    apply (fanout_complete _ C m nd s Hnd Hlv). by rewrite <- Hc.
  - intros m nd' Hm Hl.
    destruct (Hlive' m nd' Hm Hl) as (nd & Hnd & Hlv & Hc & Hne).
    rewrite Hc. rewrite lookup_delete_ne.
    + by apply (gates_hashed _ C).
    + intros Heq. pose proof (gates_hashed _ C m nd Hnd Hlv) as E1.
      pose proof (gates_hashed _ C n ndn Hn Hln) as E2.
      rewrite Hkids in E2. rewrite <- Heq in E1. congruence.
  - intros m nd' Hm Hl.
    destruct (Hlive' m nd' Hm Hl) as (nd & Hnd & Hlv & Hc & Hne).
    rewrite Hc. by apply (gates_sorted _ C m).
  - intros m nd' Hm Hl.
    destruct (Hlive' m nd' Hm Hl) as (nd & Hnd & Hlv & Hc & Hne).
    rewrite Hc, Hlen. by apply (gates_bounded _ C m).
  - intros k i Hk. apply lookup_delete_Some in Hk as [Hne Hk].
    destruct (hash_sound _ C k i Hk) as (nd & Hnd & Hlv & Hc).
    assert (i ≠ n) as Hin by (intros ->; simplify_eq; congruence).
    assert (exists nd', ns' !! i = Some nd') as [nd' Hnd'].
    { apply lookup_lt_is_Some. rewrite Hlen. by eapply lookup_lt_Some. }
    destruct (Hback i nd' Hnd') as (nd0 & Hnd0 & Hc' & Hi & Hd & _). simplify_eq.
    exists nd'. split; [done|]. split; [|done].
    unfold live_at in *. rewrite Hi, Hd. by rewrite decide_False by done.
  - rewrite Hlen. apply (outputs_bounded _ C).
Qed.

Lemma live_count_alter_keeps (f : node -> node) (i : nat) (ns : list node) :
  keeps_shape f ->
  sum_list (imap (fun i nd => if live_at i nd then 1%nat else 0%nat) (alter f i ns))
  = sum_list (imap (fun i nd => if live_at i nd then 1%nat else 0%nat) ns).
Proof.
  intros Hf. apply sum_imap_alter_same.
  intros y _. destruct (Hf y) as (Hc & Hi & Hd). unfold live_at. by rewrite Hi, Hd.
Qed.

Lemma take_out_num_gates (ntk : network) (n : nat) :
  is_live_gate ntk n = true ->
  S (num_gates (take_out_node ntk n)) = num_gates ntk.
Proof.
  intros Hlive. destruct (is_live_gate_Some _ _ Hlive) as (ndn & Hn & Hln).
  destruct (children ndn) as [[a b] c] eqn:Hkids.
  rewrite (take_out_node_live _ _ _ _ _ _ Hn Hln Hkids), !num_gates_sum. simpl.
  rewrite !live_count_alter_keeps by apply decr_keeps_shape.
  pose proof (sum_imap_alter (fun i nd => if live_at i nd then 1%nat else 0%nat)
                mark_dead n (nodes ntk) ndn Hn) as E.
  simpl in E. rewrite Hln in E.
  replace (live_at n (mark_dead ndn)) with false in E
    by (unfold live_at, mark_dead; simpl; by rewrite andb_false_r).
  lia.
Qed.

(** ** Retargeting outputs *)

Lemma po_refs_cons (o : signal) (os : list signal) (j : nat) :
  po_refs (o :: os) j = ((if decide (index o = j) then 1 else 0) + po_refs os j)%nat.
Proof. unfold po_refs. rewrite filter_cons. by case_decide. Qed.

Lemma replace_outputs_loop_spec (old : nat) (new_signal : signal) (force : bool)
    (os : list signal) (ns : list node) (r : list signal) (ns2 : list node) :
  replace_outputs_loop old new_signal force os ns = (r, ns2) ->
  length ns2 = length ns /\
  (forall j nd2, ns2 !! j = Some nd2 ->
     exists nd, ns !! j = Some nd /\ children nd2 = children nd /\ ci nd2 = ci nd /\
                dead nd2 = dead nd /\
                forall z, h1 nd = wrap32 (z + Z.of_nat (po_refs os j)) ->
                          h1 nd2 = wrap32 (z + Z.of_nat (po_refs r j))) /\
  (forall bound, (index new_signal < bound)%nat ->
                 Forall (fun s => (index s < bound)%nat) os ->
                 Forall (fun s => (index s < bound)%nat) r) /\
  (force = true -> index new_signal ≠ old -> po_refs r old = 0%nat).
Proof.
  revert ns r ns2. induction os as [|o os IH]; intros ns r ns2 H; simpl in H.
  { simplify_eq. split_and!; try done. intros j nd2 Hj. exists nd2. split_and!; try done. }
  destruct ((index o =? old)%nat && (force || complement o)) eqn:Hcond.
  - set (ns1 := if (old =? index new_signal)%nat then ns
                else alter decr_h1 old (alter incr_h1 (index new_signal) ns)) in *.
    destruct (replace_outputs_loop old new_signal force os ns1) as [r' ns2'] eqn:Hrec.
    simplify_eq. destruct (IH _ _ _ Hrec) as (Hlen & Hnodes & Hb & Hgone).
    apply andb_prop in Hcond as [Ho _]. apply Nat.eqb_eq in Ho.
    assert (length ns1 = length ns) as Hlen1.
    { unfold ns1. destruct (old =? index new_signal)%nat; [done|]. by rewrite !length_alter. }
    split_and!.
    + congruence.
    + intros j nd2 Hj. destruct (Hnodes j nd2 Hj) as (nd1 & Hnd1 & Hc & Hi & Hd & Hh).
      assert (exists nd, ns !! j = Some nd /\ children nd1 = children nd /\
                ci nd1 = ci nd /\ dead nd1 = dead nd /\
                forall z, h1 nd = wrap32 (z + Z.of_nat (po_refs (o :: os) j)) ->
                  h1 nd1 = wrap32 (z + (if decide (index new_signal = j) then 1 else 0)
                                   + Z.of_nat (po_refs os j))) as (nd & Hnd & Hc1 & Hi1 & Hd1 & Hh1).
      { unfold ns1 in Hnd1. destruct (Nat.eqb_spec old (index new_signal)) as [He|Hne].
        - exists nd1. split_and!; try done. intros z Hz. rewrite Hz, po_refs_cons.
          repeat case_decide; try congruence; apply (f_equal wrap32); lia.
        - rewrite !lookup_alter_bump in Hnd1.
          destruct (ns !! j) as [nd|] eqn:Hnd; [|done]. simpl in Hnd1. simplify_eq.
          exists nd. split; [done|]. unfold bump.
          split_and!; try (repeat case_decide; by destruct nd).
          intros z Hz. rewrite po_refs_cons in Hz.
          repeat case_decide; subst; try done; h1_chain Hz. }
      exists nd. split_and!; try congruence.
      intros z Hz. rewrite po_refs_cons. simpl.
      specialize (Hh (z + (if decide (index new_signal = j) then 1 else 0)) (Hh1 z Hz)).
      rewrite Hh. apply (f_equal wrap32). case_decide; lia.
    + intros bound Hnew Hos. inversion Hos; subst. constructor; [done|]. by eapply Hb.
    + intros Hf Hne. rewrite po_refs_cons. simpl. rewrite decide_False by done.
      by rewrite Hgone.
  - destruct (replace_outputs_loop old new_signal force os ns) as [r' ns2'] eqn:Hrec.
    simplify_eq. destruct (IH _ _ _ Hrec) as (Hlen & Hnodes & Hb & Hgone).
    split_and!.
    + done.
    + intros j nd2 Hj. destruct (Hnodes j nd2 Hj) as (nd & Hnd & Hc & Hi & Hd & Hh).
      exists nd. split_and!; try done. intros z Hz. rewrite po_refs_cons in Hz.
      rewrite po_refs_cons.
      specialize (Hh (z + (if decide (index o = j) then 1 else 0))).
      rewrite Hh; [apply (f_equal wrap32); case_decide; lia|].
      rewrite Hz. apply (f_equal wrap32). case_decide; lia.
    + intros bound Hnew Hos. inversion Hos; subst. constructor; [done|]. by eapply Hb.
    + intros Hf Hne. rewrite po_refs_cons. rewrite decide_False.
      * by rewrite Hgone.
      * intros Heq. apply Nat.eqb_eq in Heq. rewrite Heq, Hf in Hcond. done.
Qed.

(** ** Networks that differ in counters and outputs only *)

Lemma sum_imap_ext2 {A} (F : nat -> A -> nat) (l l' : list A) :
  length l' = length l ->
  (forall i y', l' !! i = Some y' -> exists y, l !! i = Some y /\ F i y' = F i y) ->
  sum_list (imap F l') = sum_list (imap F l).
Proof.
  revert F l'. induction l as [|x l IH]; intros F [|x' l'] Hlen H; simplify_eq/=; [done|].
  destruct (H 0%nat x' eq_refl) as (y & Hy & ->). simplify_eq/=. f_equal.
  apply IH; [done|]. intros i y' Hi. by apply (H (S i)).
Qed.

Lemma same_shape_forward (ns ns' : list node) (j : nat) (nd : node) :
  same_shape ns ns' -> ns !! j = Some nd ->
  exists nd', ns' !! j = Some nd' /\ children nd' = children nd /\ ci nd' = ci nd /\
              dead nd' = dead nd.
Proof.
  intros [Hlen H] Hj.
  assert (exists nd', ns' !! j = Some nd') as [nd' Hnd'].
  { apply lookup_lt_is_Some. rewrite Hlen. by eapply lookup_lt_Some. }
  destruct (H j nd' Hnd') as (nd0 & ? & ? & ? & ?). simplify_eq. by exists nd'.
Qed.

Lemma same_shape_live (ns ns' : list node) (j : nat) (nd' : node) :
  same_shape ns ns' -> ns' !! j = Some nd' -> live_at j nd' = true ->
  exists nd, ns !! j = Some nd /\ live_at j nd = true /\ children nd' = children nd.
Proof.
  intros [_ H] Hj Hl. destruct (H j nd' Hj) as (nd & Hnd & Hc & Hi & Hd).
  exists nd. unfold live_at in *. by rewrite <- Hi, <- Hd.
Qed.

Lemma same_shape_gate_refs (ns ns' : list node) (n : nat) :
  same_shape ns ns' -> gate_refs ns' n = gate_refs ns n.
Proof.
  intros [Hlen H]. apply sum_imap_ext2; [done|].
  intros i y' Hi. destruct (H i y' Hi) as (y & Hy & Hc & Hci & Hd).
  exists y. split; [done|]. unfold live_at. by rewrite Hc, Hci, Hd.
Qed.

Lemma same_shape_num_gates (ntk ntk' : network) :
  same_shape (nodes ntk) (nodes ntk') -> num_gates ntk' = num_gates ntk.
Proof.
  intros [Hlen H]. rewrite !num_gates_sum. apply sum_imap_ext2; [done|].
  intros i y' Hi. destruct (H i y' Hi) as (y & Hy & Hc & Hci & Hd).
  exists y. split; [done|]. unfold live_at. by rewrite Hci, Hd.
Qed.

Lemma consistent_same_shape (ntk ntk' : network) :
  consistent ntk ->
  same_shape (nodes ntk) (nodes ntk') ->
  hash ntk' = hash ntk -> _fanout ntk' = _fanout ntk ->
  Forall (fun s => (index s < length (nodes ntk'))%nat) (outputs ntk') ->
  (forall j nd nd', nodes ntk !! j = Some nd -> nodes ntk' !! j = Some nd' ->
     forall z, h1 nd = wrap32 (z + Z.of_nat (po_refs (outputs ntk) j)) ->
               h1 nd' = wrap32 (z + Z.of_nat (po_refs (outputs ntk') j))) ->
  consistent ntk'.
Proof.
  intros C Hs Hh Hfo Hout Hrefs. pose proof Hs as [Hlen Hback].
  split.
  - intros j nd' Hj Hdead. destruct (Hback j nd' Hj) as (nd & Hnd & Hc & Hi & Hd).
    unfold occurrences_of. rewrite (same_shape_gate_refs _ _ _ Hs), Nat2Z.inj_add.
    apply (Hrefs j nd nd' Hnd Hj).
    rewrite (refs_exact _ C j nd Hnd) by congruence.
    unfold occurrences_of. by rewrite Nat2Z.inj_add.
  - by rewrite Hfo, Hlen, (fanout_length _ C).
  - intros n m Hm. unfold fanout_of in *. rewrite Hfo in Hm.
    destruct (fanout_sound _ C n m Hm) as (nd & Hnd & Hl & Hex).
    destruct (same_shape_forward _ _ _ _ Hs Hnd) as (nd' & Hnd' & Hc & Hi & Hd).
    exists nd'. split; [done|]. rewrite Hc. split; [|done].
    unfold live_at in *. by rewrite Hi, Hd.
  - intros m nd' s Hm Hl Hin.
    destruct (same_shape_live _ _ _ _ Hs Hm Hl) as (nd & Hnd & Hlv & Hc).
    unfold fanout_of. rewrite Hfo. apply (fanout_complete _ C m nd s Hnd Hlv). by rewrite <- Hc.
  - intros m nd' Hm Hl.
    destruct (same_shape_live _ _ _ _ Hs Hm Hl) as (nd & Hnd & Hlv & Hc).
    rewrite Hh, Hc. by apply (gates_hashed _ C).
  - intros m nd' Hm Hl.
    destruct (same_shape_live _ _ _ _ Hs Hm Hl) as (nd & Hnd & Hlv & Hc).
    rewrite Hc. by apply (gates_sorted _ C m).
  - intros m nd' Hm Hl.
    destruct (same_shape_live _ _ _ _ Hs Hm Hl) as (nd & Hnd & Hlv & Hc).
    rewrite Hc, Hlen. by apply (gates_bounded _ C m).
  - intros k i Hk. rewrite Hh in Hk.
    destruct (hash_sound _ C k i Hk) as (nd & Hnd & Hlv & Hc).
    destruct (same_shape_forward _ _ _ _ Hs Hnd) as (nd' & Hnd' & Hc' & Hi & Hd).
    exists nd'. split; [done|]. split; [|congruence].
    unfold live_at in *. by rewrite Hi, Hd.
  - done.
Qed.

Lemma replace_in_outputs_consistent (ntk : network) (n : nat) (s : signal) :
  consistent ntk -> (index s < length (nodes ntk))%nat ->
  consistent (replace_in_outputs ntk n s) /\
  same_shape (nodes ntk) (nodes (replace_in_outputs ntk n s)) /\
  hash (replace_in_outputs ntk n s) = hash ntk /\
  _fanout (replace_in_outputs ntk n s) = _fanout ntk /\
  (index s ≠ n -> po_refs (outputs (replace_in_outputs ntk n s)) n = 0%nat).
Proof.
  intros C Hs. unfold replace_in_outputs.
  destruct (replace_outputs_loop n s true (outputs ntk) (nodes ntk)) as [os ns] eqn:E.
  destruct (replace_outputs_loop_spec _ _ _ _ _ _ _ E) as (Hlen & Hnodes & Hb & Hgone).
  assert (same_shape (nodes ntk) ns) as Hshape.
  { split; [done|]. intros j nd' Hj. destruct (Hnodes j nd' Hj) as (nd & ? & ? & ? & ? & _).
    by exists nd. }
  split_and!; simpl; try done.
  - apply (consistent_same_shape ntk); simpl; try done.
    + rewrite Hlen. apply Hb; [done|]. apply (outputs_bounded _ C).
    + intros j nd nd' Hj Hj' z Hz.
      destruct (Hnodes j nd' Hj') as (nd0 & ? & _ & _ & _ & Hh). simplify_eq. by apply Hh.
  - intros Hne. by apply Hgone.
Qed.

(** ** Appending a gate *)

Lemma create_maj_outcome (ntk : network) (a b c : signal) :
  create_outcome ntk a b c (create_maj_without_changing_comp ntk a b c).1
                           (create_maj_without_changing_comp ntk a b c).2.
Proof.
  pose proof (order_inputs_perm a b c) as Hperm.
  unfold create_maj_without_changing_comp.
  destruct (order_inputs a b c) as [[a' b'] c'] eqn:Hord.
  pose proof (order_inputs_sorted _ _ _ _ _ _ Hord) as Hsorted.
  simpl in Hperm.
  assert (forall x, x ∈ [a'; b'; c'] -> x ∈ [a; b; c]) as Hin
    by (intros x; by rewrite Hperm).
  destruct (Nat.eqb_spec (index a') (index b')) as [Hab|Hab].
  { simpl. apply created_nothing; [done|]. left. apply Hin.
    destruct (eqb _ _); rewrite !elem_of_cons; auto. }
  destruct (Nat.eqb_spec (index b') (index c')) as [Hbc|Hbc].
  { simpl. apply created_nothing; [done|]. left. apply Hin.
    destruct (eqb _ _); rewrite !elem_of_cons; auto. }
  destruct (hash ntk !! (a', b', c')) as [hit|] eqn:Hh; simpl.
  { apply created_nothing; [done|]. right. by exists (a', b', c'). }
  eapply created_gate; try done. simpl. lia.
Qed.

Lemma gate_refs_zero (ns : list node) (n : nat) :
  (forall m nd, ns !! m = Some nd -> live_at m nd = true ->
                Forall (fun s => index s ≠ n) (triple_list (children nd))) ->
  gate_refs ns n = 0%nat.
Proof.
  intros H. unfold gate_refs.
  assert (forall (F : nat -> node -> nat) l, (forall i y, l !! i = Some y -> F i y = 0%nat) ->
            sum_list (imap F l) = 0%nat) as Hz.
  { intros F l. revert F. induction l as [|x l IH]; intros F HF; simpl; [done|].
    rewrite (HF 0%nat x eq_refl). simpl. apply IH. intros i y Hi. by apply (HF (S i)). }
  apply Hz. intros i y Hi. destruct (live_at i y) eqn:Hl; [|done].
  specialize (H i y Hi Hl). destruct (children y) as [[a b] c].
  rewrite occurrences_triple. simpl in H.
  inversion H as [|? ? Ha H']; subst. inversion H' as [|? ? Hb H'']; subst.
  inversion H'' as [|? ? Hc _]; subst.
  by rewrite !decide_False by done.
Qed.

Lemma po_refs_zero (os : list signal) (n : nat) :
  Forall (fun s => index s ≠ n) os -> po_refs os n = 0%nat.
Proof.
  unfold po_refs. induction 1 as [|o os Ho _ IH]; [done|].
  rewrite filter_cons, decide_False by done. done.
Qed.

Lemma fanout_of_alter_app (fo : list (list nat)) (i x : nat) (v : nat) :
  default [] (alter (fun l => l ++ [v]) i fo !! x)
  = default [] (fo !! x) ++ (if decide (i = x) then
                               if decide (x < length fo)%nat then [v] else []
                             else []).
Proof.
  rewrite list_lookup_alter. case_decide; subst.
  - destruct (fo !! x) as [l|] eqn:E; simpl.
    + rewrite decide_True; [done|]. by eapply lookup_lt_Some.
    + rewrite decide_False; [done|]. apply lookup_ge_None in E. lia.
  - by rewrite app_nil_r.
Qed.

Section create_gate.
Context (ntk : network) (a b c : signal).
Hypothesis C : consistent ntk.
Hypothesis Hsorted : strictly_sorted (a, b, c).
Hypothesis Hmiss : hash ntk !! (a, b, c) = None.
Hypothesis Hbound :
  Forall (fun s => (index s < length (nodes ntk))%nat) [a; b; c].

Let idx : nat := length (nodes ntk).
Let ns' : list node :=
  alter incr_h1 (index c) (alter incr_h1 (index b) (alter incr_h1 (index a)
    (nodes ntk ++ [Node (a, b, c) 0 false false]))).
Let ntk' : network :=
  Network ns' (<[(a, b, c) := idx]> (hash ntk)) (outputs ntk)
          (on_add idx (a, b, c) (_fanout ntk)).

Lemma create_bounds :
  (index a < idx /\ index b < idx /\ index c < idx /\ 0 < idx)%nat.
Proof.
  inversion Hbound as [|? ? Ha H']; subst. inversion H' as [|? ? Hb H'']; subst.
  inversion H'' as [|? ? Hc _]; subst. unfold idx. lia.
Qed.

Lemma create_length : length ns' = S idx.
Proof. unfold ns'. rewrite !length_alter, length_app. simpl. unfold idx. lia. Qed.

Lemma create_lookup_old (j : nat) (nd' : node) :
  (j < idx)%nat -> ns' !! j = Some nd' ->
  exists nd, nodes ntk !! j = Some nd /\ children nd' = children nd /\
             ci nd' = ci nd /\ dead nd' = dead nd /\
             nd' = bump incr_h1 (index c) j (bump incr_h1 (index b) j
                     (bump incr_h1 (index a) j nd)).
Proof.
  intros Hj. unfold ns'. rewrite !lookup_alter_bump, lookup_app_l by done.
  destruct (nodes ntk !! j) as [nd|] eqn:E; [|done]. simpl. intros ?; simplify_eq.
  exists nd. split; [done|]. unfold bump.
  split_and!; repeat case_decide; by destruct nd.
Qed.

Lemma create_lookup_new : ns' !! idx = Some (Node (a, b, c) 0 false false).
Proof.
  pose proof create_bounds. unfold ns'. rewrite !lookup_alter_bump.
  rewrite lookup_app_r by done. unfold idx. rewrite Nat.sub_diag. simpl.
  unfold bump. rewrite !decide_False by (fold idx; lia). done.
Qed.

Lemma create_live_new : live_at idx (Node (a, b, c) 0 false false) = true.
Proof.
  pose proof create_bounds. unfold live_at, is_constant. simpl.
  destruct idx; [lia|done].
Qed.

Lemma create_lookup (j : nat) (nd' : node) :
  ns' !! j = Some nd' ->
  (j < idx)%nat /\ (exists nd, nodes ntk !! j = Some nd /\ children nd' = children nd /\
                              ci nd' = ci nd /\ dead nd' = dead nd) \/
  j = idx /\ nd' = Node (a, b, c) 0 false false.
Proof.
  intros Hj. pose proof (lookup_lt_Some _ _ _ Hj) as Hlt. rewrite create_length in Hlt.
  destruct (decide (j = idx)) as [->|Hne].
  - right. rewrite create_lookup_new in Hj. by simplify_eq.
  - left. split; [lia|].
    destruct (create_lookup_old j nd' ltac:(lia) Hj) as (nd & ? & ? & ? & ? & _).
    by exists nd.
Qed.

Lemma create_gate_refs (x : nat) :
  gate_refs ns' x = (gate_refs (nodes ntk) x + occurrences x (a, b, c))%nat.
Proof.
  unfold ns'. rewrite !gate_refs_alter_keeps by apply incr_keeps_shape.
  unfold gate_refs. rewrite sum_imap_app. fold idx. by rewrite create_live_new.
Qed.

Lemma create_gate_num_gates : num_gates ntk' = S (num_gates ntk).
Proof.
  rewrite !num_gates_sum. simpl. unfold ns'.
  rewrite !live_count_alter_keeps by apply incr_keeps_shape.
  rewrite sum_imap_app. fold idx. rewrite create_live_new. lia.
Qed.

Lemma create_fanout (x : nat) :
  fanout_of ntk' x
  = fanout_of ntk x ++ (if decide (index a = x) then [idx] else [])
      ++ (if decide (index b = x) then [idx] else [])
      ++ (if decide (index c = x) then [idx] else []).
Proof.
  pose proof create_bounds as (Ha & Hb & Hc & _).
  pose proof (fanout_length _ C) as Hfl. fold idx in Hfl.
  unfold fanout_of, ntk', on_add. simpl.
  rewrite !fanout_of_alter_app, !length_alter, length_app. simpl.
  assert (default [] ((_fanout ntk ++ [[]]) !! x) = default [] (_fanout ntk !! x)) as ->.
  { destruct (decide (x < idx)%nat).
    - by rewrite lookup_app_l by lia.
    - rewrite (lookup_ge_None_2 (_fanout ntk)) by lia.
      destruct (decide (x = idx)) as [->|].
      + rewrite lookup_app_r by lia. rewrite Hfl, Nat.sub_diag. done.
      + rewrite lookup_ge_None_2; [done|]. rewrite length_app. simpl. lia. }
  rewrite <- !app_assoc. repeat f_equal.
  all: case_decide; [rewrite decide_True by lia|]; done.
Qed.

Lemma create_gate_consistent : consistent ntk'.
Proof.
  pose proof create_bounds as (Ha & Hb & Hc & Hpos).
  pose proof create_length as Hlen.
  split; simpl.
  - (* I2 *)
    intros j nd' Hj Hdead. unfold occurrences_of. simpl. rewrite create_gate_refs.
    destruct (decide (j = idx)) as [->|Hne].
    + rewrite create_lookup_new in Hj. simplify_eq. simpl.
      rewrite gate_refs_zero, po_refs_zero, occurrences_triple.
      * rewrite !decide_False by lia. done.
      * eapply Forall_impl; [apply (outputs_bounded _ C)|]. simpl. intros. fold idx in H. lia.
      * intros m nd Hm Hl. eapply Forall_impl; [apply (gates_bounded _ C m nd Hm Hl)|].
        simpl. intros. fold idx in H. lia.
    + pose proof (lookup_lt_Some _ _ _ Hj) as Hlt. rewrite Hlen in Hlt.
      destruct (create_lookup_old j nd' ltac:(lia) Hj) as (nd & Hnd & _ & _ & Hd & ->).
      pose proof (refs_exact _ C j nd Hnd ltac:(congruence)) as E.
      unfold occurrences_of in E. rewrite occurrences_triple. unfold bump.
      repeat case_decide; h1_chain E.
  - rewrite Hlen. unfold on_add. rewrite !length_alter, length_app. simpl.
    rewrite (fanout_length _ C). fold idx. lia.
  - (* fanout, sound *)
    intros x m Hm. rewrite create_fanout in Hm.
    rewrite !elem_of_app in Hm.
    assert (m ∈ fanout_of ntk x \/ (m = idx /\ (index a = x \/ index b = x \/ index c = x)))
      as [Hold|[-> Hx]].
    { destruct Hm as [?|[Hm|[Hm|Hm]]]; [by left|..];
        case_decide; try (by inversion Hm); apply list_elem_of_singleton in Hm; right; tauto. }
    + destruct (fanout_sound _ C x m Hold) as (nd & Hnd & Hl & Hex).
      pose proof (lookup_lt_Some _ _ _ Hnd) as Hlt. fold idx in Hlt.
      assert (exists nd', ns' !! m = Some nd') as [nd' Hnd'].
      { apply lookup_lt_is_Some. rewrite Hlen. lia. }
      destruct (create_lookup_old m nd' Hlt Hnd') as (nd0 & ? & Hc' & Hi & Hd & _).
      simplify_eq. exists nd'. split; [done|]. rewrite Hc'. split; [|done].
      unfold live_at in *. by rewrite Hi, Hd.
    + exists (Node (a, b, c) 0 false false). split; [apply create_lookup_new|].
      split; [apply create_live_new|]. simpl.
      rewrite !Exists_cons. tauto.
  - (* fanout, complete *)
    intros m nd' s Hm Hl Hs. rewrite create_fanout.
    destruct (create_lookup m nd' Hm) as [[Hlt (nd & Hnd & Hc' & Hi & Hd)]|[-> ->]].
    + apply elem_of_app. left.
      apply (fanout_complete _ C m nd s Hnd); [|by rewrite <- Hc'].
      unfold live_at in *. by rewrite <- Hi, <- Hd.
    + simpl in Hs. rewrite !elem_of_app.
      apply elem_of_cons in Hs as [->|Hs];
        [right; left; rewrite decide_True by done; apply list_elem_of_here|].
      apply elem_of_cons in Hs as [->|Hs];
        [right; right; left; rewrite decide_True by done; apply list_elem_of_here|].
      apply list_elem_of_singleton in Hs as ->.
      right; right; right. rewrite decide_True by done. apply list_elem_of_here.
  - (* hashed *)
    intros m nd' Hm Hl.
    destruct (create_lookup m nd' Hm) as [[Hlt (nd & Hnd & Hc' & Hi & Hd)]|[-> ->]].
    + assert (live_at m nd = true) as Hlv by (unfold live_at in *; by rewrite <- Hi, <- Hd).
      pose proof (gates_hashed _ C m nd Hnd Hlv) as Hh. rewrite Hc'.
      rewrite lookup_insert_ne; [done|]. intros Heq. rewrite <- Heq in Hh. congruence.
    + simpl. by rewrite lookup_insert_eq.
  - intros m nd' Hm Hl.
    destruct (create_lookup m nd' Hm) as [[Hlt (nd & Hnd & Hc' & Hi & Hd)]|[-> ->]].
    + rewrite Hc'. apply (gates_sorted _ C m nd Hnd).
      unfold live_at in *. by rewrite <- Hi, <- Hd.
    + done.
  - intros m nd' Hm Hl. rewrite Hlen.
    destruct (create_lookup m nd' Hm) as [[Hlt (nd & Hnd & Hc' & Hi & Hd)]|[-> ->]].
    + rewrite Hc'. eapply Forall_impl; [apply (gates_bounded _ C m nd Hnd)|].
      * unfold live_at in *. by rewrite <- Hi, <- Hd.
      * simpl. intros. fold idx in H. lia.
    + simpl. repeat constructor; lia.
  - intros k i Hk. apply lookup_insert_Some in Hk as [[<- <-]|[Hne Hk]].
    + exists (Node (a, b, c) 0 false false). split; [apply create_lookup_new|].
      split; [apply create_live_new|done].
    + destruct (hash_sound _ C k i Hk) as (nd & Hnd & Hlv & Hc').
      pose proof (lookup_lt_Some _ _ _ Hnd) as Hlt. fold idx in Hlt.
      assert (exists nd', ns' !! i = Some nd') as [nd' Hnd'].
      { apply lookup_lt_is_Some. rewrite Hlen. lia. }
      destruct (create_lookup_old i nd' Hlt Hnd') as (nd0 & ? & Hc'' & Hi & Hd & _).
      simplify_eq. exists nd'. split; [done|]. split; [|done].
      unfold live_at in *. by rewrite Hi, Hd.
  - rewrite Hlen. eapply Forall_impl; [apply (outputs_bounded _ C)|].
    simpl. intros. fold idx in H. lia.
Qed.
End create_gate.

(** ** Rewiring a consumer in place *)

Lemma occurrences_perm (x : nat) (k k' : triple) :
  triple_list k' ≡ₚ triple_list k -> occurrences x k' = occurrences x k.
Proof. intros H. unfold occurrences. by rewrite H. Qed.

Lemma occurrences_rewire (x old : nat) (new_signal a b c : signal) :
  (occurrences x (rewire old new_signal a, rewire old new_signal b, rewire old new_signal c)
   + (if decide (old = x) then occurrences old (a, b, c) else 0)
   = occurrences x (a, b, c)
     + (if decide (index new_signal = x) then occurrences old (a, b, c) else 0))%nat.
Proof.
  rewrite !occurrences_triple. unfold rewire.
  destruct (Nat.eqb_spec (index a) old), (Nat.eqb_spec (index b) old),
           (Nat.eqb_spec (index c) old); simpl;
    repeat case_decide; subst; simpl; try lia; congruence.
Qed.

Lemma strictly_sorted_occurrences (x : nat) (k : triple) :
  strictly_sorted k -> (occurrences x k <= 1)%nat.
Proof.
  destruct k as [[a b] c]. simpl. intros H. rewrite occurrences_triple.
  repeat case_decide; lia.
Qed.

Lemma replace_in_node_outcome (ntk : network) (m old : nat) (new_signal : signal) :
  consistent ntk -> is_live_gate ntk m = true ->
  replace_outcome ntk m old new_signal (replace_in_node ntk m old new_signal).1
                                       (replace_in_node ntk m old new_signal).2.
Proof.
  intros C Hlive. destruct (is_live_gate_Some _ _ Hlive) as (nd & Hnd & Hl).
  unfold replace_in_node.
  assert (is_gate ntk m = true) as ->.
  { unfold is_live_gate in Hlive. by apply andb_prop in Hlive as [-> _]. }
  simpl. rewrite (get_node_obj_lookup _ _ _ Hnd).
  destruct (children nd) as [[x y] z] eqn:Hk.
  pose proof (gates_sorted _ C m nd Hnd Hl) as Hs. rewrite Hk in Hs.
  pose proof (strictly_sorted_occurrences old _ Hs) as Hocc.
  destruct (Nat.eqb_spec (occurrences old (x, y, z)) 0) as [Hz|Hnz].
  { simpl. apply replaced_nothing; try done. intros nd' ? _. simplify_eq. by rewrite Hk. }
  assert (occurrences old (x, y, z) = 1%nat) as E1 by lia.
  destruct (order_inputs _ _ _) as [[c0 c1] c2] eqn:Hord.
  pose proof (order_inputs_sorted _ _ _ _ _ _ Hord) as Hsorted.
  destruct (Nat.eqb_spec (index c0) (index c1)) as [H01|H01].
  { simpl. eapply replaced_collapse; try done. by left. }
  destruct (Nat.eqb_spec (index c1) (index c2)) as [H12|H12].
  { simpl. eapply replaced_collapse; try done. right. by left. }
  destruct (hash ntk !! (c0, c1, c2)) as [i|] eqn:Hh; simpl.
  { eapply replaced_collapse; try done. right. right. by exists i. }
  rewrite E1. eapply replaced_in_place; try done. simpl. lia.
Qed.

Lemma fanout_of_alter_filter (fo : list (list nat)) (i x : nat) (P : nat -> Prop)
    `{forall v, Decision (P v)} :
  default [] (alter (filter P) i fo !! x)
  = if decide (i = x) then filter P (default [] (fo !! x)) else default [] (fo !! x).
Proof.
  rewrite list_lookup_alter. case_decide; subst; [|done].
  by destruct (fo !! x).
Qed.

Section rewire_in_place.
Context (ntk : network) (m old : nat) (new_signal : signal).
Context (nd : node) (x y z c0 c1 c2 : signal).
Hypothesis C : consistent ntk.
Hypothesis Hnd : nodes ntk !! m = Some nd.
Hypothesis Hl : live_at m nd = true.
Hypothesis Hk : children nd = (x, y, z).
Hypothesis Hord :
  order_inputs (rewire old new_signal x) (rewire old new_signal y)
               (rewire old new_signal z) = (c0, c1, c2).
Hypothesis Hss : strictly_sorted (c0, c1, c2).
Hypothesis Hmiss : hash ntk !! (c0, c1, c2) = None.
Hypothesis Hocc : occurrences old (x, y, z) = 1%nat.
Hypothesis Hnew : (index new_signal < length (nodes ntk))%nat.

Let ns' : list node :=
  alter decr_h1 old (alter incr_h1 (index new_signal)
    (alter (set_children (c0, c1, c2)) m (nodes ntk))).
Let ntk' : network :=
  Network ns' (<[(c0, c1, c2) := m]> (delete (x, y, z) (hash ntk))) (outputs ntk)
          (alter (fun l => l ++ [m]) (index new_signal)
             (alter (filter (fun v => v ≠ m)) old (_fanout ntk))).

Lemma rewire_perm : [c0; c1; c2] ≡ₚ rewire old new_signal <$> [x; y; z].
Proof.
  pose proof (order_inputs_perm (rewire old new_signal x) (rewire old new_signal y)
                (rewire old new_signal z)) as H.
  by rewrite Hord in H.
Qed.

Lemma rewire_length : length ns' = length (nodes ntk).
Proof. unfold ns'. by rewrite !length_alter. Qed.

Lemma rewire_lookup (j : nat) (nd' : node) :
  ns' !! j = Some nd' ->
  exists nd0, nodes ntk !! j = Some nd0 /\ ci nd' = ci nd0 /\ dead nd' = dead nd0 /\
    children nd' = (if decide (m = j) then (c0, c1, c2) else children nd0) /\
    h1 nd' = h1 (bump decr_h1 old j (bump incr_h1 (index new_signal) j nd0)).
Proof.
  unfold ns'. rewrite !lookup_alter_bump. intros Hj.
  destruct (nodes ntk !! j) as [nd0|] eqn:E; [|done]. simpl in Hj. simplify_eq.
  exists nd0. split; [done|].
  unfold bump. repeat case_decide; simpl; by destruct nd0.
Qed.

Lemma rewire_lookup_fwd (j : nat) (nd0 : node) :
  nodes ntk !! j = Some nd0 ->
  exists nd', ns' !! j = Some nd' /\ ci nd' = ci nd0 /\ dead nd' = dead nd0 /\
    children nd' = (if decide (m = j) then (c0, c1, c2) else children nd0).
Proof.
  intros Hj.
  assert (exists nd', ns' !! j = Some nd') as [nd' Hnd'].
  { apply lookup_lt_is_Some. rewrite rewire_length. by eapply lookup_lt_Some. }
  destruct (rewire_lookup j nd' Hnd') as (nd1 & ? & ? & ? & ? & _). simplify_eq.
  by exists nd'.
Qed.

Lemma rewire_gate_refs (v : nat) :
  (gate_refs ns' v + (if decide (old = v) then 1 else 0)
   = gate_refs (nodes ntk) v + (if decide (index new_signal = v) then 1 else 0))%nat.
Proof.
  unfold ns'. rewrite gate_refs_alter_keeps by apply decr_keeps_shape.
  rewrite gate_refs_alter_keeps by apply incr_keeps_shape.
  unfold gate_refs.
  pose proof (sum_imap_alter
    (fun i nd => if live_at i nd then occurrences v (children nd) else 0%nat)
    (set_children (c0, c1, c2)) m (nodes ntk) nd Hnd) as E.
  simpl in E. rewrite Hl, Hk in E.
  replace (live_at m (set_children (c0, c1, c2) nd)) with true in E
    by (unfold live_at in *; by destruct nd).
  pose proof (occurrences_rewire v old new_signal x y z) as E2.
  rewrite Hocc in E2.
  rewrite (occurrences_perm v
             (rewire old new_signal x, rewire old new_signal y, rewire old new_signal z)
             (c0, c1, c2)) in E by apply rewire_perm.
  lia.
Qed.

Lemma rewire_num_gates : num_gates ntk' = num_gates ntk.
Proof.
  rewrite !num_gates_sum. simpl. unfold ns'.
  rewrite live_count_alter_keeps by apply decr_keeps_shape.
  rewrite live_count_alter_keeps by apply incr_keeps_shape.
  apply sum_imap_alter_same. intros y0 _. unfold live_at. by destruct y0.
Qed.

Lemma rewire_fanout (v : nat) :
  fanout_of ntk' v
  = (if decide (old = v) then filter (fun u => u ≠ m) (fanout_of ntk v) else fanout_of ntk v)
    ++ (if decide (index new_signal = v) then [m] else []).
Proof.
  unfold fanout_of, ntk'. simpl.
  rewrite fanout_of_alter_app, fanout_of_alter_filter, length_alter.
  f_equal. case_decide; [|done]. subst.
  rewrite decide_True; [done|]. by rewrite (fanout_length _ C).
Qed.

Lemma old_is_child : exists s, s ∈ [x; y; z] /\ index s = old.
Proof.
  rewrite occurrences_triple in Hocc.
  repeat case_decide; try lia;
    [exists x|exists y|exists z];
    rewrite !elem_of_cons; auto.
Qed.

Lemma key_elem (s : signal) :
  s ∈ [c0; c1; c2] <-> exists s0, s0 ∈ [x; y; z] /\ s = rewire old new_signal s0.
Proof.
  rewrite rewire_perm, list_elem_of_fmap.
  split; intros (s0 & H1 & H2); exists s0; done.
Qed.

Lemma rewire_live (j : nat) (nd' : node) :
  ns' !! j = Some nd' -> live_at j nd' = true ->
  exists nd0, nodes ntk !! j = Some nd0 /\ live_at j nd0 = true /\
    children nd' = (if decide (m = j) then (c0, c1, c2) else children nd0).
Proof.
  intros Hj Hlv. destruct (rewire_lookup j nd' Hj) as (nd0 & ? & Hi & Hd & ? & _).
  exists nd0. unfold live_at in *. by rewrite <- Hi, <- Hd.
Qed.

Lemma rewire_consistent : consistent ntk'.
Proof.
  pose proof rewire_length as Hlen.
  split; simpl.
  - (* I2 *)
    intros j nd' Hj Hdead.
    destruct (rewire_lookup j nd' Hj) as (nd0 & Hnd0 & _ & Hd & _ & Hh).
    pose proof (refs_exact _ C j nd0 Hnd0 ltac:(congruence)) as E.
    unfold occurrences_of in *. simpl. pose proof (rewire_gate_refs j) as R.
    rewrite Hh. unfold bump. repeat case_decide; h1_chain E.
  - rewrite Hlen, !length_alter. apply (fanout_length _ C).
  - (* fanout, sound *)
    intros v u Hu. rewrite rewire_fanout in Hu. apply elem_of_app in Hu.
    assert ((u ∈ fanout_of ntk v /\ (old = v -> u ≠ m)) \/ (u = m /\ index new_signal = v))
      as [[Hold Hne]|[-> <-]].
    { destruct Hu as [Hu|Hu].
      - left. case_decide.
        + apply list_elem_of_filter in Hu as [? ?]. done.
        + done.
      - right. case_decide; [|by inversion Hu].
        apply list_elem_of_singleton in Hu. done. }
    + destruct (fanout_sound _ C v u Hold) as (nd0 & Hnd0 & Hlv & Hex).
      destruct (rewire_lookup_fwd u nd0 Hnd0) as (nd' & Hnd' & Hi & Hd & Hc).
      exists nd'. split; [done|]. split; [unfold live_at in *; by rewrite Hi, Hd|].
      rewrite Hc. case_decide; [|done]. subst u. simplify_eq.
      rewrite Hk in Hex. simpl in Hex. apply Exists_exists in Hex as (s & Hs & Hv).
      apply Exists_exists. exists s. split; [|done].
      apply key_elem. exists s. split; [done|].
      unfold rewire. destruct (Nat.eqb_spec (index s) old) as [He|?]; [|done].
      exfalso. by apply Hne; [congruence|].
    + destruct (rewire_lookup_fwd m nd Hnd) as (nd' & Hnd' & Hi & Hd & Hc).
      exists nd'. split; [done|]. split; [unfold live_at in *; by rewrite Hi, Hd|].
      rewrite Hc, decide_True by done. simpl.
      destruct old_is_child as (s & Hs & Ho).
      apply Exists_exists. exists (rewire old new_signal s).
      split; [apply key_elem; by exists s|].
      unfold rewire. rewrite <- Ho, Nat.eqb_refl. done.
  - (* fanout, complete *)
    intros u nd' s Hu Hlv Hs. rewrite rewire_fanout.
    destruct (rewire_live u nd' Hu Hlv) as (nd0 & Hnd0 & Hlv0 & Hc).
    rewrite Hc in Hs. case_decide.
    + subst u. simplify_eq. apply key_elem in Hs as (s0 & Hs0 & ->).
      unfold rewire. destruct (Nat.eqb_spec (index s0) old) as [He|Hne]; simpl.
      * apply elem_of_app. right. rewrite decide_True by done. apply list_elem_of_here.
      * apply elem_of_app. left. rewrite decide_False by done.
        apply (fanout_complete _ C m nd s0 Hnd Hl). by rewrite Hk.
    + apply elem_of_app. left.
      pose proof (fanout_complete _ C u nd0 s Hnd0 Hlv0 Hs) as Hin.
      case_decide; [|done]. apply list_elem_of_filter. split; [congruence|done].
  - (* hashed *)
    intros u nd' Hu Hlv.
    destruct (rewire_live u nd' Hu Hlv) as (nd0 & Hnd0 & Hlv0 & Hc).
    rewrite Hc. case_decide.
    + subst u. by rewrite lookup_insert_eq.
    + pose proof (gates_hashed _ C u nd0 Hnd0 Hlv0) as Hh.
      pose proof (gates_hashed _ C m nd Hnd Hl) as Hhm. rewrite Hk in Hhm.
      rewrite lookup_insert_ne by (intros Heq; rewrite <- Heq in Hh; congruence).
      rewrite lookup_delete_ne by (intros Heq; rewrite <- Heq in Hh; congruence).
      done.
  - intros u nd' Hu Hlv.
    destruct (rewire_live u nd' Hu Hlv) as (nd0 & Hnd0 & Hlv0 & Hc).
    rewrite Hc. case_decide; [done|]. by apply (gates_sorted _ C u).
  - intros u nd' Hu Hlv. rewrite Hlen.
    destruct (rewire_live u nd' Hu Hlv) as (nd0 & Hnd0 & Hlv0 & Hc).
    rewrite Hc. case_decide; [|by apply (gates_bounded _ C u)].
    subst u. simplify_eq. apply Forall_forall. intros s Hs.
    apply key_elem in Hs as (s0 & Hs0 & ->).
    pose proof (gates_bounded _ C m nd Hnd Hl) as Hb. rewrite Hk in Hb.
    rewrite Forall_forall in Hb. specialize (Hb s0 Hs0).
    unfold rewire. by destruct (index s0 =? old)%nat.
  - intros k i Hi. apply lookup_insert_Some in Hi as [[<- <-]|[Hne Hi]].
    + destruct (rewire_lookup_fwd m nd Hnd) as (nd' & Hnd' & Hci & Hd & Hc).
      exists nd'. split; [done|]. split; [unfold live_at in *; by rewrite Hci, Hd|].
      by rewrite Hc, decide_True.
    + apply lookup_delete_Some in Hi as [Hne2 Hi].
      destruct (hash_sound _ C k i Hi) as (nd0 & Hnd0 & Hlv0 & Hc0).
      destruct (rewire_lookup_fwd i nd0 Hnd0) as (nd' & Hnd' & Hci & Hd & Hc).
      exists nd'. split; [done|]. split; [unfold live_at in *; by rewrite Hci, Hd|].
      rewrite Hc. case_decide; [|done]. subst i. simplify_eq.
  - rewrite Hlen. apply (outputs_bounded _ C).
Qed.
End rewire_in_place.

(** ** Steps that keep the gates *)

Lemma steady_refl (ntk : network) : consistent ntk -> steady ntk ntk.
Proof. by split. Qed.

Lemma steady_trans (n1 n2 n3 : network) : steady n1 n2 -> steady n2 n3 -> steady n1 n3.
Proof.
  intros [C1 L1 V1 O1] [C2 L2 V2 O2]. split; [done|congruence| |congruence].
  intros j. by rewrite V2, V1.
Qed.

Lemma steady_num_gates (ntk ntk' : network) :
  steady ntk ntk' -> num_gates ntk' = num_gates ntk.
Proof.
  intros [_ L V _]. unfold num_gates, live_gates. rewrite L.
  f_equal. apply list_filter_iff. intros j. by rewrite V.
Qed.

Lemma replace_in_node_steady (ntk : network) (m old : nat) (new_signal : signal) :
  consistent ntk -> is_live_gate ntk m = true ->
  (index new_signal < length (nodes ntk))%nat ->
  steady ntk (replace_in_node ntk m old new_signal).1.
Proof.
  intros C Hlive Hnew.
  destruct (replace_in_node_outcome ntk m old new_signal C Hlive)
    as [-> _ _|s nd x y z c0 c1 c2 -> _ _ _ _ _ _|nd x y z c0 c1 c2 _ Hnd Hk Hord Hss Hmiss Hocc ->].
  - by apply steady_refl.
  - by apply steady_refl.
  - assert (live_at m nd = true) as Hl by (by rewrite <- (is_live_gate_lookup _ _ _ Hnd)).
    split; simpl.
    + by eapply rewire_consistent.
    + by rewrite !length_alter.
    + intros j.
      set (ntk' := Network _ _ _ _).
      destruct (nodes ntk !! j) as [nd0|] eqn:Hj.
      * destruct (rewire_lookup_fwd ntk m old new_signal c0 c1 c2 j nd0 Hj)
          as (nd' & Hnd' & Hi & Hd & _).
        rewrite (is_live_gate_lookup ntk' j nd') by done.
        rewrite (is_live_gate_lookup ntk j nd0) by done.
        unfold live_at. by rewrite Hi, Hd.
      * unfold is_live_gate. rewrite (is_gate_None ntk) by done.
        rewrite (is_gate_None ntk'); [done|]. simpl.
        apply lookup_ge_None. rewrite !length_alter. by apply lookup_ge_None.
    + done.
Qed.

(** Three signals in strictly increasing index order are determined by
    their set. *)
Lemma strictly_sorted_unique (k k' : triple) :
  strictly_sorted k -> strictly_sorted k' ->
  (forall s, s ∈ triple_list k -> s ∈ triple_list k') -> k = k'.
Proof.
  destruct k as [[a b] c], k' as [[a' b'] c']. simpl. intros Hs Hs' Hin.
  pose proof (Hin a ltac:(rewrite !elem_of_cons; auto)) as Ha.
  pose proof (Hin b ltac:(rewrite !elem_of_cons; auto)) as Hb.
  pose proof (Hin c ltac:(rewrite !elem_of_cons; auto)) as Hc.
  rewrite !elem_of_cons, elem_of_nil in Ha, Hb, Hc.
  destruct Ha as [->|[->|[->|[]]]], Hb as [->|[->|[->|[]]]], Hc as [->|[->|[->|[]]]];
    first [done | lia].
Qed.

Section fresh.
Context (n idx : nat).
Hypothesis Hne : n ≠ idx.

Let new_signal : signal := Signal idx true.

Lemma unrewire_rewire (s : signal) :
  index s ≠ idx -> unrewire n idx (rewire n new_signal s) = s.
Proof.
  intros Hs. unfold unrewire, rewire. destruct (Nat.eqb_spec (index s) n) as [He|He]; simpl.
  - rewrite Nat.eqb_refl. destruct s as [i c]. simpl in *. subst.
    by destruct c.
  - by apply Nat.eqb_neq in Hs as ->.
Qed.

Lemma unrewire_id (s : signal) : index s ≠ idx -> unrewire n idx s = s.
Proof. intros Hs. unfold unrewire. by apply Nat.eqb_neq in Hs as ->. Qed.

Lemma rewiring_start (nt : network) :
  consistent nt -> (idx < length (nodes nt))%nat ->
  (forall u nd, nodes nt !! u = Some nd -> live_at u nd = true ->
                Forall (fun s => (index s < idx)%nat) (triple_list (children nd))) ->
  rewiring n idx nt.
Proof.
  intros C Hidx Hlow.
  assert (forall u nd, nodes nt !! u = Some nd -> live_at u nd = true ->
            unrewire n idx <$> triple_list (children nd) = triple_list (children nd)) as Hid.
  { intros u nd Hu Hl. specialize (Hlow u nd Hu Hl).
    induction Hlow as [|s l Hs _ IH]; [done|].
    rewrite fmap_cons, IH, unrewire_id; [done|lia]. }
  split; [done..| |].
  - intros u nd Hu Hl Hex. specialize (Hlow u nd Hu Hl).
    apply Exists_exists in Hex as (s & Hs & He).
    rewrite Forall_forall in Hlow. specialize (Hlow s Hs). lia.
  - intros i u ndi ndu Hi Hli Hu Hlu Hp.
    rewrite (Hid i ndi Hi Hli), (Hid u ndu Hu Hlu) in Hp.
    assert (children ndi = children ndu) as E.
    { apply strictly_sorted_unique.
      - by apply (gates_sorted _ C i).
      - by apply (gates_sorted _ C u).
      - intros s. by rewrite Hp. }
    pose proof (gates_hashed _ C i ndi Hi Hli) as H1.
    pose proof (gates_hashed _ C u ndu Hu Hlu) as H2.
    rewrite E in H1. congruence.
Qed.

Lemma rewire_index (s : signal) : index s ≠ idx -> index (rewire n new_signal s) ≠ n.
Proof.
  intros Hs. unfold rewire. destruct (Nat.eqb_spec (index s) n); simpl; [lia|done].
Qed.

Lemma Exists_occurrences (v : nat) (k : triple) :
  Exists (fun s => index s = v) (triple_list k) <-> occurrences v k ≠ 0%nat.
Proof.
  destruct k as [[a b] c]. rewrite occurrences_triple. simpl.
  rewrite !Exists_cons, Exists_nil. repeat case_decide; split; intros; try lia; tauto.
Qed.

Lemma rewired_distinct (x y z : signal) :
  strictly_sorted (x, y, z) ->
  Forall (fun s => index s ≠ idx) [x; y; z] ->
  NoDup (index <$> (rewire n new_signal <$> [x; y; z])).
Proof.
  simpl. intros Hs Hf.
  inversion Hf as [|? ? Hx Hf']; subst. inversion Hf' as [|? ? Hy Hf'']; subst.
  inversion Hf'' as [|? ? Hz _]; subst.
  unfold rewire.
  destruct (Nat.eqb_spec (index x) n), (Nat.eqb_spec (index y) n),
           (Nat.eqb_spec (index z) n); simpl;
    repeat (apply NoDup_cons; split; [rewrite ?elem_of_cons, ?elem_of_nil; lia|]);
    apply NoDup_nil_2.
Qed.

Lemma rewiring_step (nt : network) (u : nat) :
  rewiring n idx nt -> is_live_gate nt u = true ->
  rewiring n idx (replace_in_node nt u n new_signal).1 /\
  steady nt (replace_in_node nt u n new_signal).1 /\
  (forall v, v ∈ fanout_of (replace_in_node nt u n new_signal).1 n ->
             v ∈ fanout_of nt n /\ v ≠ u).
Proof.
  intros [C Hidx Hmoved Hapart] Hlive.
  pose proof (replace_in_node_steady nt u n new_signal C Hlive Hidx) as Hsteady.
  destruct (replace_in_node_outcome nt u n new_signal C Hlive)
    as [-> _ Hzero|sc nd x y z c0 c1 c2 _ _ Hnd Hk Hord Hbad Hocc
        |nd x y z c0 c1 c2 _ Hnd Hk Hord Hss Hmiss Hocc Heq].
  - (* the gate does not use the old node *)
    split; [by split|]. split; [done|].
    intros v Hv. split; [done|]. intros ->.
    destruct (fanout_sound _ C n u Hv) as (nd & Hnd & Hl & Hex).
    apply Exists_occurrences in Hex. by apply Hex, Hzero.
  - (* a collapse cannot happen *)
    exfalso.
    assert (live_at u nd = true) as Hl by (by rewrite <- (is_live_gate_lookup _ _ _ Hnd)).
    pose proof (gates_sorted _ C u nd Hnd Hl) as Hs. rewrite Hk in Hs.
    assert (Forall (fun s => index s ≠ idx) [x; y; z]) as Hnoidx.
    { apply Forall_Exists_neg. intros Hex.
      assert (Exists (fun s => index s = idx) (triple_list (children nd))) as Hex'.
      { rewrite Hk. simpl. eapply Exists_impl; [exact Hex|]. simpl. tauto. }
      pose proof (Hmoved u nd Hnd Hl Hex') as Hf. rewrite Hk in Hf.
      assert (Exists (fun s => index s = n) (triple_list (x, y, z))) as Hn
        by (apply Exists_occurrences; lia).
      apply Exists_exists in Hn as (s & Hs1 & Hs2).
      rewrite Forall_forall in Hf. by apply (Hf s Hs1). }
    pose proof (rewire_perm n new_signal x y z c0 c1 c2 Hord) as Hperm.
    pose proof (rewired_distinct x y z Hs Hnoidx) as Hnd3.
    rewrite <- Hperm in Hnd3. simpl in Hnd3.
    apply NoDup_cons in Hnd3 as [H0 Hnd3]. apply NoDup_cons in Hnd3 as [H1 _].
    rewrite !elem_of_cons, elem_of_nil in H0. rewrite elem_of_cons, elem_of_nil in H1.
    destruct Hbad as [Hbad|[Hbad|[i Hhit]]]; [tauto|tauto|].
    destruct (hash_sound _ C _ _ Hhit) as (ndi & Hi & Hli & Hki).
    assert (i = u) as ->.
    { apply (Hapart i u ndi nd Hi Hli Hnd Hl). rewrite Hki, Hk. simpl triple_list.
      rewrite Hperm, <- list_fmap_compose.
      assert ((unrewire n idx ∘ rewire n new_signal) <$> [x; y; z] = unrewire n idx <$> [x; y; z])
        as E; [|by rewrite E].
      apply Forall_fmap_ext_1.
      eapply Forall_impl; [exact Hnoidx|]. intros s Hs1. simpl.
      by rewrite unrewire_rewire, unrewire_id. }
    assert (Exists (fun s => index s = n) (triple_list (x, y, z))) as Hn
      by (apply Exists_occurrences; lia).
    assert ((x, y, z) = (c0, c1, c2)) as Exy by congruence.
    rewrite Exy in Hn.
    apply Exists_exists in Hn as (s & Hs1 & Hs2). simpl in Hs1.
    rewrite Hperm in Hs1. apply list_elem_of_fmap in Hs1 as (s0 & -> & Hs0).
    rewrite Forall_forall in Hnoidx. by apply (rewire_index s0 (Hnoidx s0 Hs0)).
  - (* rewired in place *)
    assert (live_at u nd = true) as Hl by (by rewrite <- (is_live_gate_lookup _ _ _ Hnd)).
    pose proof (rewire_perm n new_signal x y z c0 c1 c2 Hord) as Hperm.
    pose proof (gates_sorted _ C u nd Hnd Hl) as Hs. rewrite Hk in Hs.
    assert (Forall (fun s => index s ≠ idx) [x; y; z]) as Hnoidx.
    { apply Forall_Exists_neg. intros Hex.
      assert (Exists (fun s => index s = idx) (triple_list (children nd))) as Hex'.
      { rewrite Hk. simpl. eapply Exists_impl; [exact Hex|]. simpl. tauto. }
      pose proof (Hmoved u nd Hnd Hl Hex') as Hf. rewrite Hk in Hf.
      assert (Exists (fun s => index s = n) (triple_list (x, y, z))) as Hn
        by (apply Exists_occurrences; lia).
      apply Exists_exists in Hn as (s & Hs1 & Hs2).
      rewrite Forall_forall in Hf. by apply (Hf s Hs1). }
    assert (unrewire n idx <$> [c0; c1; c2] ≡ₚ unrewire n idx <$> [x; y; z]) as Hun.
    { rewrite Hperm, <- list_fmap_compose.
      assert ((unrewire n idx ∘ rewire n new_signal) <$> [x; y; z] = unrewire n idx <$> [x; y; z])
        as E; [|by rewrite E].
      apply Forall_fmap_ext_1.
      eapply Forall_impl; [exact Hnoidx|]. intros s Hs1. simpl.
      by rewrite unrewire_rewire, unrewire_id. }
    assert (Forall (fun s => index s ≠ n) [c0; c1; c2]) as Hnon.
    { rewrite Hperm. apply Forall_fmap. eapply Forall_impl; [exact Hnoidx|].
      intros s Hs1. simpl. by apply rewire_index. }
    rewrite Heq in *. clear Heq.
    split; [|split; [done|]].
    + split.
      * apply (steady_consistent _ _ Hsteady).
      * simpl. by rewrite !length_alter.
      * intros v nd' Hv Hlv Hex. simpl in Hv.
        destruct (rewire_live nt u n new_signal c0 c1 c2 v nd' Hv Hlv)
          as (nd0 & Hnd0 & Hlv0 & Hc).
        rewrite Hc in *. case_decide; [done|]. by apply (Hmoved v nd0).
      * intros i v ndi ndv Hi Hli Hv Hlv Hp. simpl in Hi, Hv.
        destruct (rewire_live nt u n new_signal c0 c1 c2 i ndi Hi Hli)
          as (ndi0 & Hi0 & Hli0 & Hci).
        destruct (rewire_live nt u n new_signal c0 c1 c2 v ndv Hv Hlv)
          as (ndv0 & Hv0 & Hlv0 & Hcv).
        apply (Hapart i v ndi0 ndv0 Hi0 Hli0 Hv0 Hlv0).
        rewrite Hci, Hcv in Hp.
        repeat case_decide; subst; simplify_eq; rewrite ?Hk; simpl triple_list in *;
          rewrite ?Hun in Hp; try done.
        all: by rewrite <- Hun.
    + intros v Hv.
      rewrite (rewire_fanout nt u n new_signal x y z c0 c1 c2 C) in Hv by done.
      rewrite decide_True in Hv by done. simpl in Hv.
      rewrite decide_False in Hv by (intros ?; by apply Hne).
      rewrite app_nil_r in Hv. apply list_elem_of_filter in Hv as [? ?]. done.
Qed.
End fresh.

(** ** Rewiring all the consumers *)

Lemma rewire_consumers_steady (n : nat) (new_node : signal) (l : list nat) (ntk : network) :
  consistent ntk ->
  (forall u, u ∈ l -> is_live_gate ntk u = true) ->
  (index new_node < length (nodes ntk))%nat ->
  steady ntk (rewire_consumers n new_node l ntk).
Proof.
  revert ntk. induction l as [|u l IH]; intros ntk C Hlive Hnew; simpl.
  { by apply steady_refl. }
  pose proof (replace_in_node_steady ntk u n new_node C
                (Hlive u ltac:(left)) Hnew) as Hs.
  eapply steady_trans; [exact Hs|]. apply IH.
  - apply (steady_consistent _ _ Hs).
  - intros v Hv. rewrite (steady_live _ _ Hs). apply Hlive. by right.
  - by rewrite (steady_length _ _ Hs).
Qed.

Lemma rewire_consumers_fresh (n idx : nat) (l : list nat) (ntk : network) :
  n ≠ idx -> rewiring n idx ntk ->
  (forall u, u ∈ l -> is_live_gate ntk u = true) ->
  (forall v, v ∈ fanout_of ntk n -> v ∈ l) ->
  steady ntk (rewire_consumers n (Signal idx true) l ntk) /\
  fanout_of (rewire_consumers n (Signal idx true) l ntk) n = [].
Proof.
  intros Hne. revert ntk. induction l as [|u l IH]; intros ntk R Hlive Hsub; simpl.
  { split; [apply steady_refl, R|].
    destruct (fanout_of ntk n) as [|v ?] eqn:E; [done|].
    specialize (Hsub v ltac:(left)). by inversion Hsub. }
  destruct (rewiring_step n idx Hne ntk u R (Hlive u ltac:(left))) as (R' & Hs & Hfo).
  destruct (IH _ R') as [Hs' Hnil].
  - intros v Hv. rewrite (steady_live _ _ Hs). apply Hlive. by right.
  - intros v Hv. destruct (Hfo v Hv) as [Hin Hvu].
    specialize (Hsub v Hin). apply elem_of_cons in Hsub as [?|?]; done.
  - split; [|done]. by eapply steady_trans.
Qed.

(** ** One inversion *)

Lemma same_shape_live_gate (ntk ntk' : network) (j : nat) :
  same_shape (nodes ntk) (nodes ntk') -> is_live_gate ntk' j = is_live_gate ntk j.
Proof.
  intros Hs. destruct (nodes ntk !! j) as [nd|] eqn:Hj.
  - destruct (same_shape_forward _ _ _ _ Hs Hj) as (nd' & Hnd' & _ & Hi & Hd).
    rewrite (is_live_gate_lookup _ _ _ Hj), (is_live_gate_lookup _ _ _ Hnd').
    unfold live_at. by rewrite Hi, Hd.
  - unfold is_live_gate. rewrite (is_gate_None ntk) by done.
    rewrite (is_gate_None ntk'); [done|].
    apply lookup_ge_None. destruct Hs as [-> _]. by apply lookup_ge_None.
Qed.

Lemma live_gate_flags (ntk : network) (n : nat) :
  is_live_gate ntk n = true ->
  is_pi ntk n = false /\ is_constant n = false /\ is_dead ntk n = false.
Proof.
  unfold is_live_gate, is_gate. intros H.
  apply andb_prop in H as [H Hd]. apply andb_prop in H as [H _].
  apply andb_prop in H as [Hc Hp].
  apply negb_true_iff in Hc, Hp, Hd. done.
Qed.

Lemma take_out_if_consistent (ntk : network) (n : nat) :
  consistent ntk ->
  consistent (if fanout_size ntk n =? 0 then take_out_node ntk n else ntk).
Proof. intros C. destruct (_ =? _); [by apply take_out_consistent|done]. Qed.

Lemma take_out_if_num_gates (ntk : network) (n : nat) :
  (num_gates (if (fanout_size ntk n =? 0)%Z then take_out_node ntk n else ntk)
   <= num_gates ntk)%nat.
Proof.
  destruct (_ =? _); [|done].
  destruct (is_live_gate ntk n) eqn:Hl.
  - pose proof (take_out_num_gates ntk n Hl). lia.
  - by rewrite take_out_node_not_live.
Qed.

Lemma take_out_length (ntk : network) (n : nat) :
  length (nodes (take_out_node ntk n)) = length (nodes ntk).
Proof.
  unfold take_out_node. destruct (negb _); [done|].
  destruct (children _) as [[a b] c]. simpl. by rewrite !length_alter.
Qed.

Lemma order_inputs_bound (a b c a' b' c' : signal) (bound : nat) :
  order_inputs a b c = (a', b', c') ->
  Forall (fun s => (index s < bound)%nat) [a; b; c] ->
  Forall (fun s => (index s < bound)%nat) [a'; b'; c'].
Proof.
  intros Hord H. pose proof (order_inputs_perm a b c) as Hp. rewrite Hord in Hp.
  simpl in Hp. by rewrite Hp.
Qed.

Lemma inv_node_gates (ntk : network) (n : nat) :
  consistent ntk -> is_live_gate ntk n = true ->
  consistent (IM.inv_node ntk n true).1 /\
  (num_gates (IM.inv_node ntk n true).1 <= num_gates ntk)%nat /\
  (length (nodes ntk) <= length (nodes (IM.inv_node ntk n true).1))%nat.
Proof.
  intros C Hlive.
  destruct (live_gate_flags _ _ Hlive) as (Hp & Hc & Hd).
  destruct (is_live_gate_Some _ _ Hlive) as (nd & Hnd & Hl).
  pose proof (lookup_lt_Some _ _ _ Hnd) as Hn.
  unfold IM.inv_node. rewrite Hp, Hc. simpl. rewrite (get_node_obj_lookup _ _ _ Hnd).
  destruct (children nd) as [[a b] c] eqn:Hk.
  pose proof (gates_bounded _ C n nd Hnd Hl) as Hb. rewrite Hk in Hb. simpl in Hb.
  assert (Forall (fun s => (index s < length (nodes ntk))%nat)
            [sig_not a; sig_not b; sig_not c]) as Hb'.
  { inversion Hb as [|? ? ? Hb1]; subst. inversion Hb1 as [|? ? ? Hb2]; subst.
    inversion Hb2; subst. by repeat constructor. }
  pose proof (create_maj_outcome ntk (sig_not a) (sig_not b) (sig_not c)) as Hout.
  destruct (create_maj_without_changing_comp ntk (sig_not a) (sig_not b) (sig_not c))
    as [ntk1 s]. simpl in Hout.
  set (new_node := sig_not s).
  set (ntk2 := replace_in_outputs ntk1 n new_node).
  change (fold_left _ (fanout_of ntk2 n) ntk2)
    with (rewire_consumers n new_node (fanout_of ntk2 n) ntk2).
  set (ntk3 := rewire_consumers n new_node (fanout_of ntk2 n) ntk2).
  simpl.
  destruct Hout as [-> Hs|a' b' c' Hord Hss Hmiss -> ->].
  - (* nothing was appended *)
    assert (index new_node < length (nodes ntk))%nat as Hnew.
    { unfold new_node. simpl. destruct Hs as [Hs|(k & Hh & _)].
      - rewrite Forall_forall in Hb'. by apply Hb'.
      - destruct (hash_sound _ C _ _ Hh) as (ndh & Hndh & _). by eapply lookup_lt_Some. }
    destruct (replace_in_outputs_consistent ntk n new_node C Hnew)
      as (C2 & Hshape & _ & _ & _).
    fold ntk2 in C2, Hshape.
    assert (steady ntk2 ntk3) as Hst.
    { apply rewire_consumers_steady; [done| |].
      - intros u Hu. destruct (fanout_sound _ C2 n u Hu) as (ndu & Hndu & Hlu & _).
        by rewrite (is_live_gate_lookup _ _ _ Hndu).
      - destruct Hshape as [-> _]. done. }
    split; [apply take_out_if_consistent, Hst|].
    pose proof (take_out_if_num_gates ntk3 n) as Hg.
    rewrite (steady_num_gates _ _ Hst), (same_shape_num_gates _ _ Hshape) in Hg.
    split; [done|].
    assert (length (nodes ntk3) = length (nodes ntk)) as Hlen.
    { rewrite (steady_length _ _ Hst). by destruct Hshape as [-> _]. }
    destruct (_ =? _); [rewrite take_out_length|]; lia.
  - (* a gate was appended *)
    set (idx := length (nodes ntk)) in *.
    pose proof (order_inputs_bound _ _ _ _ _ _ _ Hord Hb') as Hkb.
    pose proof (create_gate_consistent ntk a' b' c' C Hss Hmiss Hkb) as C1.
    pose proof (create_gate_num_gates ntk a' b' c' Hkb) as Hg1.
    pose proof (create_length ntk a' b' c') as Hlen1.
    set (ntk1 := Network _ _ _ _) in *.
    assert (new_node = Signal idx true) as Hnn by done.
    assert (n ≠ idx) as Hne by (unfold idx; lia).
    assert (index new_node < length (nodes ntk1))%nat as Hnew.
    { rewrite Hnn. simpl. unfold ntk1. simpl. rewrite Hlen1. fold idx. lia. }
    destruct (replace_in_outputs_consistent ntk1 n new_node C1 Hnew)
      as (C2 & Hshape & _ & _ & Hpo).
    fold ntk2 in C2, Hshape, Hpo.
    specialize (Hpo ltac:(rewrite Hnn; simpl; lia)).
    assert (length (nodes ntk2) = S idx) as Hlen2.
    { destruct Hshape as [-> _]. unfold ntk1. simpl. by rewrite Hlen1. }
    assert (rewiring n idx ntk2) as R.
    { apply rewiring_start; [done|done|lia|].
      intros u ndu Hu Hlu.
      destruct (same_shape_live _ _ _ _ Hshape Hu Hlu) as (nd1 & Hnd1 & Hl1 & ->).
      destruct (create_lookup ntk a' b' c' Hkb u nd1 Hnd1)
        as [[Hlt (nd0 & Hnd0 & -> & Hi & Hdd)]|[-> ->]].
      - apply (gates_bounded _ C u nd0 Hnd0). unfold live_at in *. by rewrite <- Hi, <- Hdd.
      - done. }
    assert (forall u, u ∈ fanout_of ntk2 n -> is_live_gate ntk2 u = true) as Hlv2.
    { intros u Hu. destruct (fanout_sound _ C2 n u Hu) as (ndu & Hndu & Hlu & _).
      by rewrite (is_live_gate_lookup _ _ _ Hndu). }
    destruct (rewire_consumers_fresh n idx (fanout_of ntk2 n) ntk2 Hne R Hlv2
               ltac:(done)) as [Hst Hnil].
    rewrite <- Hnn in Hst, Hnil. fold ntk3 in Hst, Hnil.
    pose proof (steady_consistent _ _ Hst) as C3.
    (* the old gate is still live and nothing refers to it *)
    assert (is_live_gate ntk3 n = true) as Hlive3.
    { rewrite (steady_live _ _ Hst), (same_shape_live_gate _ _ _ Hshape).
      assert (exists nd1, nodes ntk1 !! n = Some nd1) as [nd1 Hnd1].
      { apply lookup_lt_is_Some. unfold ntk1. simpl. rewrite Hlen1. fold idx. lia. }
      destruct (create_lookup ntk a' b' c' Hkb n nd1 Hnd1)
        as [[Hlt (nd0 & Hnd0 & _ & Hi & Hdd)]|[-> _]]; [|done].
      simplify_eq. rewrite (is_live_gate_lookup _ _ _ Hnd1).
      unfold live_at in *. by rewrite Hi, Hdd. }
    destruct (is_live_gate_Some _ _ Hlive3) as (nd3 & Hnd3 & Hl3).
    assert (fanout_size ntk3 n = 0) as Hzero.
    { unfold fanout_size. rewrite (get_node_obj_lookup _ _ _ Hnd3).
      rewrite (refs_exact _ C3 n nd3 Hnd3).
      - unfold occurrences_of. rewrite (steady_outputs _ _ Hst), Hpo.
        rewrite gate_refs_zero; [done|].
        intros m ndm Hm Hlm. apply Forall_forall. intros sg Hsg Hidx.
        pose proof (fanout_complete _ C3 m ndm sg Hm Hlm Hsg) as Hin.
        rewrite Hidx, Hnil in Hin. by inversion Hin.
      - unfold live_at in Hl3. apply andb_prop in Hl3 as [_ Hdd].
        by apply negb_true_iff in Hdd. }
    rewrite Hzero. simpl.
    split; [by apply take_out_consistent|].
    pose proof (take_out_num_gates ntk3 n Hlive3) as Hg3.
    rewrite (steady_num_gates _ _ Hst), (same_shape_num_gates _ _ Hshape) in Hg3.
    fold ntk1 in Hg1. rewrite Hg1 in Hg3.
    split; [lia|].
    rewrite take_out_length, (steady_length _ _ Hst), Hlen2. lia.
Qed.

Lemma no_more_gates_refl (ntk : network) : consistent ntk -> no_more_gates ntk ntk.
Proof. by split. Qed.

Lemma no_more_gates_trans (n1 n2 n3 : network) :
  no_more_gates n1 n2 -> no_more_gates n2 n3 -> no_more_gates n1 n3.
Proof. intros [? ? ?] [? ? ?]. split; [done|lia..]. Qed.

Lemma live_gate_of_flags (ntk : network) (n : nat) :
  (n < length (nodes ntk))%nat ->
  is_pi ntk n || is_constant n || is_dead ntk n = false ->
  is_live_gate ntk n = true.
Proof.
  intros Hn H. apply orb_false_elim in H as [H Hd]. apply orb_false_elim in H as [Hp Hc].
  unfold is_live_gate, is_gate. rewrite Hp, Hc, Hd. simpl.
  rewrite andb_true_r. by apply bool_decide_eq_true_2.
Qed.

Lemma one_level_pos_live (ntk : network) (n : nat) :
  (n < length (nodes ntk))%nat -> (0 <? IM.one_level ntk n) = true ->
  is_live_gate ntk n = true.
Proof.
  intros Hn. unfold IM.one_level.
  destruct (is_pi ntk n || is_constant n || is_dead ntk n) eqn:E; [done|].
  intros _. by apply live_gate_of_flags.
Qed.

Lemma two_level_pos_live (ntk : network) (n : nat) :
  (n < length (nodes ntk))%nat -> (0 <? IM.two_level ntk n) = true ->
  is_live_gate ntk n = true.
Proof.
  intros Hn. unfold IM.two_level.
  destruct (is_pi ntk n || is_constant n || is_dead ntk n) eqn:E; [done|].
  intros _. by apply live_gate_of_flags.
Qed.

Lemma inv_node_no_more_gates (ntk : network) (n : nat) :
  consistent ntk -> is_live_gate ntk n = true ->
  no_more_gates ntk (IM.inv_node ntk n true).1.
Proof.
  intros C Hl. destruct (inv_node_gates ntk n C Hl) as (? & ? & ?). by split.
Qed.

Lemma sweep_no_more_gates (l : list nat) (ntk : network) :
  consistent ntk -> (forall u, u ∈ l -> (u < length (nodes ntk))%nat) ->
  no_more_gates ntk
    (fold_left
       (fun nt fo => if 0 <? IM.one_level nt fo then fst (IM.inv_node nt fo true) else nt)
       l ntk).
Proof.
  revert ntk. induction l as [|u l IH]; intros ntk C Hin; simpl.
  { by apply no_more_gates_refl. }
  assert (no_more_gates ntk
            (if 0 <? IM.one_level ntk u then (IM.inv_node ntk u true).1 else ntk)) as Hs.
  { destruct (0 <? IM.one_level ntk u) eqn:E; [|by apply no_more_gates_refl].
    apply inv_node_no_more_gates; [done|].
    apply one_level_pos_live; [|done]. apply Hin. left. }
  eapply no_more_gates_trans; [exact Hs|].
  apply IH; [apply Hs|].
  intros v Hv. pose proof (after_length _ _ Hs). specialize (Hin v ltac:(by right)). lia.
Qed.

Lemma visit_no_more_gates (ntk : network) (st : stats) (n : nat) :
  consistent ntk -> (n < length (nodes ntk))%nat ->
  no_more_gates ntk (IM.visit (ntk, st) n).1.
Proof.
  intros C Hn. unfold IM.visit.
  destruct (is_dead ntk n); [by apply no_more_gates_refl|].
  assert (exists ntk1 st1,
    (if 0 <? IM.one_level ntk n
     then ((IM.inv_node ntk n true).1, credit st (IM.one_level ntk n)) else (ntk, st))
    = (ntk1, st1) /\ no_more_gates ntk ntk1) as (ntk1 & st1 & -> & H1).
  { destruct (0 <? IM.one_level ntk n) eqn:E.
    - eexists _, _. split; [done|].
      apply inv_node_no_more_gates; [done|]. by apply one_level_pos_live.
    - eexists _, _. split; [done|]. by apply no_more_gates_refl. }
  pose proof (after_consistent _ _ H1) as C1.
  pose proof (after_length _ _ H1) as L1.
  destruct (0 <? IM.two_level ntk1 n) eqn:E2; [|done].
  assert (is_live_gate ntk1 n = true) as Hl1 by (apply two_level_pos_live; [lia|done]).
  pose proof (inv_node_no_more_gates ntk1 n C1 Hl1) as H2.
  destruct (IM.inv_node ntk1 n true) as [ntk2 new_node]. simpl in *.
  eapply no_more_gates_trans; [exact H1|].
  eapply no_more_gates_trans; [exact H2|].
  apply sweep_no_more_gates; [apply H2|].
  intros u Hu.
  destruct (fanout_sound _ (after_consistent _ _ H2) _ _ Hu) as (nd & Hnd & _).
  by eapply lookup_lt_Some.
Qed.

Lemma run_no_more_gates (l : list nat) (ntk : network) (st : stats) :
  consistent ntk -> (forall n, n ∈ l -> (n < length (nodes ntk))%nat) ->
  no_more_gates ntk
    (fold_left (fun acc n => if is_live_gate acc.1 n then IM.visit acc n else acc)
       l (ntk, st)).1.
Proof.
  revert ntk st. induction l as [|n l IH]; intros ntk st C Hin; cbn [fold_left fst].
  { by apply no_more_gates_refl. }
  assert (no_more_gates ntk
            (if is_live_gate ntk n then IM.visit (ntk, st) n else (ntk, st)).1) as Hs.
  { destruct (is_live_gate ntk n); [|by apply no_more_gates_refl].
    apply visit_no_more_gates; [done|]. apply Hin. left. }
  destruct (if is_live_gate ntk n then IM.visit (ntk, st) n else (ntk, st))
    as [ntk1 st1]. simpl in Hs.
  eapply no_more_gates_trans; [exact Hs|].
  apply IH; [apply Hs|].
  intros v Hv. pose proof (after_length _ _ Hs). specialize (Hin v ltac:(by right)). lia.
Qed.

(** C6: on a network whose fanout view satisfies I1-I4 and whose storage
    is consistent, [mig_inv_minimization] leaves no more live gates than
    it found: [num_gates] after the pass is at most [num_gates] before.
    Every inversion appends at most one gate, and when it appends one all
    the consumers and outputs of the inverted gate move to it, so the
    inverted gate is taken out. *)
Theorem minimization_gate_count (elapsed : Z) (ntk : network) :
  wf (fanout_view ntk) ->
  (num_gates (IM.mig_inv_minimization elapsed ntk).1 <= num_gates ntk)%nat.
Proof.
  intros W. apply wf_consistent in W.
  unfold IM.mig_inv_minimization, IM.run.
  pose proof (run_no_more_gates (gate_range (fanout_view ntk)) (fanout_view ntk)
                default_stats W) as H.
  destruct (fold_left _ _ _) as [ntk' st']. simpl in *.
  change (num_gates ntk) with (num_gates (fanout_view ntk)).
  apply H. intros n Hn. unfold gate_range in Hn. apply elem_of_seq in Hn. simpl in *. lia.
Qed.

(** The theorem applies to the network of the one-level test. *)
Lemma minimization_gate_count_witness :
  wf (fanout_view Examples.one_level_test) /\
  (num_gates (IM.mig_inv_minimization 0 Examples.one_level_test).1
   <= num_gates Examples.one_level_test)%nat.
Proof.
  assert (wf (fanout_view Examples.one_level_test)) as W by wf_by_computation.
  split; [exact W|]. exact (minimization_gate_count 0 Examples.one_level_test W).
Defined.

(** * Further properties of the two passes *)

(** ** More on the majority constructor *)

(** X1. Hash-consing round trip: calling
    [create_maj_without_changing_comp] again with the same three signals
    returns the same signal and leaves the network of the first call as
    it is; no second node is appended. *)
Theorem create_maj_twice (ntk : network) (a b c : signal) :
  let r := create_maj_without_changing_comp ntk a b c in
  create_maj_without_changing_comp r.1 a b c = r.
Proof.
  unfold create_maj_without_changing_comp.
  destruct (order_inputs a b c) as [[a' b'] c'].
  destruct (index a' =? index b')%nat eqn:Hab; simpl; [done|].
  destruct (index b' =? index c')%nat eqn:Hbc; simpl; [done|].
  destruct (hash ntk !! (a', b', c')) as [hit|] eqn:Hh; simpl.
  - by rewrite Hh.
  - by rewrite lookup_insert_eq.
Qed.

Lemma perm3_cases {A} (a b c a' b' c' : A) :
  [a; b; c] ≡ₚ [a'; b'; c'] ->
  (a', b', c') = (a, b, c) \/ (a', b', c') = (a, c, b) \/ (a', b', c') = (b, a, c) \/
  (a', b', c') = (b, c, a) \/ (a', b', c') = (c, a, b) \/ (a', b', c') = (c, b, a).
Proof.
  intros H.
  assert (a' ∈ [a; b; c]) as Ha by (rewrite H; left).
  apply elem_of_cons in Ha as [->|Ha].
  { apply Permutation_cons_inv in H.
    apply Permutation_length_2_inv in H as [H|H]; simplify_eq; auto. }
  apply elem_of_cons in Ha as [->|Ha].
  { assert ([a; b; c] ≡ₚ b :: [a; c]) as E by perm3. rewrite E in H.
    apply Permutation_cons_inv in H.
    apply Permutation_length_2_inv in H as [H|H]; simplify_eq; auto 6. }
  apply list_elem_of_singleton in Ha as ->.
  assert ([a; b; c] ≡ₚ c :: [a; b]) as E by perm3. rewrite E in H.
  apply Permutation_cons_inv in H.
  apply Permutation_length_2_inv in H as [H|H]; simplify_eq; auto 8.
Qed.

(** X2. [create_maj_without_changing_comp] does not depend on the order of
    its three arguments: any permutation gives the same network and the
    same signal, ties between indices included. *)
Theorem create_maj_permutation (ntk : network) (a b c a' b' c' : signal) :
  [a; b; c] ≡ₚ [a'; b'; c'] ->
  create_maj_without_changing_comp ntk a' b' c'
  = create_maj_without_changing_comp ntk a b c.
Proof.
  intros H. apply perm3_cases in H.
  destruct a as [ia ca], b as [ib cb], c as [ic cc].
  destruct H as [H|[H|[H|[H|[H|H]]]]]; simplify_eq;
    unfold create_maj_without_changing_comp, order_inputs; simpl;
    repeat (match goal with
            | |- context [(?x <? ?y)%nat] => destruct (Nat.ltb_spec x y)
            end; simpl);
    repeat (match goal with
            | |- context [(?x =? ?y)%nat] => destruct (Nat.eqb_spec x y)
            end; simpl);
    try lia; subst; try lia; try reflexivity;
    destruct ca, cb, cc; reflexivity.
Qed.

(** The arguments of a gate of [chain], rotated. *)
Lemma create_maj_permutation_witness :
  [Examples.pos 3; Examples.neg 1; Examples.pos 2]
    ≡ₚ [Examples.neg 1; Examples.pos 2; Examples.pos 3] /\
  create_maj_without_changing_comp Examples.chain
    (Examples.neg 1) (Examples.pos 2) (Examples.pos 3)
  = create_maj_without_changing_comp Examples.chain
      (Examples.pos 3) (Examples.neg 1) (Examples.pos 2).
Proof.
  assert ([Examples.pos 3; Examples.neg 1; Examples.pos 2]
            ≡ₚ [Examples.neg 1; Examples.pos 2; Examples.pos 3]) as H by perm3.
  split; [exact H|].
  exact (create_maj_permutation Examples.chain _ _ _ _ _ _ H).
Defined.

(** ** The polarity queries *)

Lemma fold_comp_last (n : nat) (l : list signal) (ret : bool) :
  fold_left (fun ret fi => if (index fi =? n)%nat then complement fi else ret) l ret
  = from_option complement ret (last (filter (fun s => index s = n) l)).
Proof.
  revert ret. induction l as [|x l IH]; intros ret; simpl; [done|].
  rewrite IH, filter_cons. destruct (Nat.eqb_spec (index x) n) as [E|E].
  - rewrite decide_True by done.
    destruct (filter _ l) as [|y l'] eqn:Hf; [done|].
    rewrite last_cons_cons.
    assert (is_Some (last (y :: l'))) as [z ->] by (by apply last_is_Some).
    done.
  - by rewrite decide_False by done.
Qed.

(** X4. [is_fanout_comp in out] is the complement bit of the last fan-in
    of [out] that references [in], and false when [out] has no fan-in on
    [in] (in particular when [out] is a terminal). *)
Theorem is_fanout_comp_last (ntk : network) (inp out : nat) :
  is_fanout_comp ntk inp out
  = from_option complement false
      (last (filter (fun s => index s = inp) (fanins ntk out))).
Proof. apply fold_comp_last. Qed.

Lemma fold_flag_true {A} (P : A -> bool) (l : list A) (ret : bool) :
  fold_left (fun ret x => if P x then true else ret) l ret = true
  <-> ret = true \/ exists x, x ∈ l /\ P x = true.
Proof.
  revert ret. induction l as [|x l IH]; intros ret; simpl.
  - split; [by left|]. intros [?|(x & Hx & _)]; [done|by inversion Hx].
  - rewrite IH. split.
    + intros [H|(y & Hy & HP)].
      * destruct (P x) eqn:E; [|by left]. right. exists x. split; [left|done].
      * right. exists y. split; [by right|done].
    + intros [->|(y & Hy & HP)].
      * left. by destruct (P x).
      * apply elem_of_cons in Hy as [->|Hy]; [left; by rewrite HP|].
        right. by exists y.
Qed.

Lemma live_gate_in_range (ntk : network) (m : nat) :
  is_live_gate ntk m = true -> m ∈ gate_range ntk.
Proof.
  intros H. pose proof (proj1 (elem_of_live_gates ntk m)) as E.
  unfold is_live_gate, is_gate in H.
  apply andb_prop in H as [H _]. apply andb_prop in H as [H Hr].
  apply andb_prop in H as [Hc _]. apply bool_decide_eq_true_1 in Hr.
  apply negb_true_iff in Hc. unfold is_constant in Hc. apply Nat.eqb_neq in Hc.
  unfold gate_range. apply elem_of_seq. lia.
Qed.

Lemma has_comp_fanout_true (ntk : network) (n : nat) :
  IP.has_comp_fanout ntk n = true
  <-> (exists fo, is_live_gate ntk fo = true /\ is_fanout_comp ntk n fo = true)
      \/ (exists po, po ∈ outputs ntk /\ index po = n /\ complement po = true).
Proof.
  unfold IP.has_comp_fanout.
  pose proof (fold_flag_true (fun fo => is_live_gate ntk fo && is_fanout_comp ntk n fo)
                (gate_range ntk) false) as Hg.
  pose proof (fold_flag_true (fun po => (index po =? n)%nat && complement po)
                (outputs ntk) false) as Ho.
  destruct (fold_left _ (gate_range ntk) false) eqn:E1.
  - split; [intros _|done]. left.
    destruct (proj1 Hg eq_refl) as [?|(fo & _ & Hfo)]; [done|].
    apply andb_prop in Hfo as [? ?]. by exists fo.
  - rewrite Ho. split.
    + intros [?|(po & Hpo & HP)]; [done|]. right.
      apply andb_prop in HP as [Hi ?]. apply Nat.eqb_eq in Hi. by exists po.
    + intros [(fo & Hl & Hc)|(po & Hpo & Hi & Hc)].
      * assert (false = true) as ?; [|done]. apply Hg. right. exists fo.
        split; [by apply live_gate_in_range|]. by rewrite Hl, Hc.
      * right. exists po. split; [done|]. rewrite Hc, andb_true_r. by apply Nat.eqb_eq.
Qed.

(** X10. [has_comp_fanout n] holds exactly when some live gate reads [n]
    through a complemented fan-in (as [is_fanout_comp] sees it) or some
    primary output is a complemented reference to [n]. *)
Theorem has_comp_fanout_spec (ntk : network) (n : nat) :
  IP.has_comp_fanout ntk n = true
  <-> (exists fo, is_live_gate ntk fo = true /\ is_fanout_comp ntk n fo = true)
      \/ (exists po, po ∈ outputs ntk /\ index po = n /\ complement po = true).
Proof. apply has_comp_fanout_true. Qed.

(** ** The queue of the propagation pass *)

Lemma seed_fold (l : list signal) (p : IP.impl) :
  fold_left
    (fun p f =>
       if complement f then IP.Impl (IP.ntk p) (IP.st p) (IP.q p ++ [index f])
       else IP.Impl (IP.ntk p) (IP.st p) (IP.q p ++ [index f])) l p
  = IP.Impl (IP.ntk p) (IP.st p) (IP.q p ++ (index <$> l)).
Proof.
  revert p. induction l as [|f l IH]; intros p; simpl.
  - rewrite app_nil_r. by destruct p.
  - rewrite IH. destruct (complement f); simpl; by rewrite <- app_assoc.
Qed.

(** X11. The seeding loop of [run] appends the node of every primary
    output to the queue, in output order, complemented or not; the network
    and the statistics are untouched. *)
Theorem seed_enqueues_outputs (p : IP.impl) :
  IP.seed p = IP.Impl (IP.ntk p) (IP.st p) (IP.q p ++ (index <$> outputs (IP.ntk p))).
Proof. apply seed_fold. Qed.

(** ** The two-level gain *)

Lemma fold_gain_ge {A} (g : A -> Z) (l : list A) (z : Z) :
  z <= fold_left (fun gain x => if 0 <? g x then gain + g x else gain) l z.
Proof.
  revert z. induction l as [|x l IH]; intros z; simpl; [lia|].
  destruct (Z.ltb_spec 0 (g x)); [|apply IH].
  etrans; [|apply IH]. lia.
Qed.

Lemma one_le_two_level (ntk : network) (n : nat) :
  IM.one_level ntk n <= IM.two_level ntk n.
Proof.
  unfold IM.two_level.
  destruct (is_pi ntk n || is_constant n || is_dead ntk n) eqn:E.
  - unfold IM.one_level. by rewrite E.
  - apply (fold_gain_ge
             (fun fo => if is_fanout_comp ntk n fo then IM.one_level ntk fo - 2
                        else IM.one_level ntk fo + 2)).
Qed.

(** X5. The two-level gain of a node is never below its one-level gain:
    [two_level] starts from [one_level] and only adds corrected parent
    gains that are positive. *)
Theorem two_level_at_least_one_level (ntk : network) (n : nat) :
  IM.one_level ntk n <= IM.two_level ntk n.
Proof. apply one_le_two_level. Qed.

(** ** The statistics of the minimization pass *)

Lemma credit_keeps (st : stats) (g : Z) :
  time_total (credit st g) = time_total st /\ num_calls (credit st g) = num_calls st.
Proof. done. Qed.

Lemma visit_keeps (acc : network * stats) (n : nat) :
  time_total (IM.visit acc n).2 = time_total acc.2 /\
  num_calls (IM.visit acc n).2 = num_calls acc.2.
Proof.
  destruct acc as [ntk st]. unfold IM.visit.
  destruct (is_dead ntk n); [done|].
  destruct (0 <? IM.one_level ntk n);
    repeat (case_match; simplify_eq); simpl; done.
Qed.

Lemma sweep_keeps (l : list nat) (acc : network * stats) :
  let r := fold_left (fun acc n => if is_live_gate acc.1 n then IM.visit acc n else acc)
             l acc in
  time_total r.2 = time_total acc.2 /\ num_calls r.2 = num_calls acc.2.
Proof.
  revert acc. induction l as [|n l IH]; intros acc; cbn [fold_left]; [done|].
  destruct (IH (if is_live_gate acc.1 n then IM.visit acc n else acc)) as [-> ->].
  destruct (is_live_gate acc.1 n); [apply visit_keeps|done].
Qed.

(** X6. The minimization pass never writes [num_calls], and
    [time_total] is what the stopwatch of [run] adds to the
    default-initialized record. *)
Theorem minimization_stats (elapsed : Z) (ntk : network) :
  time_total (IM.mig_inv_minimization elapsed ntk).2 = elapsed /\
  num_calls (IM.mig_inv_minimization elapsed ntk).2 = 0.
Proof.
  unfold IM.mig_inv_minimization, IM.run.
  pose proof (sweep_keeps (gate_range (fanout_view ntk)) (fanout_view ntk, default_stats)) as H.
  destruct (fold_left _ _ _) as [ntk' st']. simpl in *.
  destruct H as [-> ->]. done.
Qed.

(** ** Networks the minimization pass leaves alone *)

Lemma visit_no_gain (ntk : network) (st : stats) (n : nat) :
  IM.two_level ntk n <= 0 -> IM.visit (ntk, st) n = (ntk, st).
Proof.
  intros H. pose proof (one_le_two_level ntk n) as H1. unfold IM.visit.
  destruct (is_dead ntk n); [done|].
  destruct (Z.ltb_spec 0 (IM.one_level ntk n)); [lia|].
  destruct (Z.ltb_spec 0 (IM.two_level ntk n)); [lia|done].
Qed.

Lemma sweep_no_gain (l : list nat) (ntk : network) (st : stats) :
  (forall n, n ∈ l -> is_live_gate ntk n = true -> IM.two_level ntk n <= 0) ->
  fold_left (fun acc n => if is_live_gate acc.1 n then IM.visit acc n else acc)
    l (ntk, st) = (ntk, st).
Proof.
  induction l as [|n l IH]; intros H; cbn [fold_left fst]; [done|].
  destruct (is_live_gate ntk n) eqn:E.
  - rewrite visit_no_gain by (apply H; [left|done]).
    apply IH. intros m Hm. apply H. by right.
  - apply IH. intros m Hm. apply H. by right.
Qed.

(** X7. When no live gate has a positive two-level gain, the
    minimization pass inverts nothing: it hands back the network (under
    its fanout view) unchanged and reports zero inverters removed. *)
Theorem minimization_fixpoint (elapsed : Z) (ntk : network) :
  (forall n, is_live_gate ntk n = true -> IM.two_level (fanout_view ntk) n <= 0) ->
  IM.mig_inv_minimization elapsed ntk = (fanout_view ntk, Stats elapsed 0 0).
Proof.
  intros H. unfold IM.mig_inv_minimization, IM.run.
  rewrite sweep_no_gain; [done|].
  intros n _ Hl. by apply H.
Qed.

(** [dangling] has no gate worth inverting. *)
Lemma minimization_fixpoint_witness :
  (forall n, is_live_gate Examples.dangling n = true ->
             IM.two_level (fanout_view Examples.dangling) n <= 0) /\
  IM.mig_inv_minimization 7 Examples.dangling
  = (fanout_view Examples.dangling, Stats 7 0 0).
Proof.
  assert (forall n, is_live_gate Examples.dangling n = true ->
                    IM.two_level (fanout_view Examples.dangling) n <= 0) as H.
  { intros n Hl. apply live_gate_in_range in Hl.
    change (gate_range Examples.dangling) with [1; 2; 3; 4; 5]%nat in Hl.
    repeat (apply elem_of_cons in Hl as [->|Hl]); [by vm_compute..|by inversion Hl]. }
  split; [exact H|]. exact (minimization_fixpoint 7 Examples.dangling H).
Defined.

(** ** Retargeting the outputs in the propagation pass *)

Lemma replace_outputs_loop_fst (old : nat) (new_signal : signal) (force : bool)
    (os : list signal) (ns : list node) :
  (replace_outputs_loop old new_signal force os ns).1
  = (fun o => if (index o =? old)%nat && (force || complement o)
              then Signal (index new_signal) (xorb (complement o) (complement new_signal))
              else o) <$> os.
Proof.
  revert ns. induction os as [|o os IH]; intros ns; simpl; [done|].
  destruct ((index o =? old)%nat && (force || complement o)).
  - specialize (IH (if (old =? index new_signal)%nat then ns
                    else alter decr_h1 old (alter incr_h1 (index new_signal) ns))).
    destruct (replace_outputs_loop _ _ _ os _) as [r ns2]. simpl in *. by rewrite IH.
  - specialize (IH ns).
    destruct (replace_outputs_loop _ _ _ os _) as [r ns2]. simpl in *. by rewrite IH.
Qed.

Lemma replace_outputs_loop_idle (old : nat) (new_signal : signal) (force : bool)
    (os : list signal) (ns : list node) :
  Forall (fun o => (index o =? old)%nat && (force || complement o) = false) os ->
  replace_outputs_loop old new_signal force os ns = (os, ns).
Proof.
  induction os as [|o os IH]; intros H; simpl; [done|].
  inversion H as [|? ? Ho Hos]; subst. rewrite Ho, IH by done. done.
Qed.

Lemma replace_outputs_loop_shape (old : nat) (new_signal : signal) (force : bool)
    (os : list signal) (ns : list node) :
  same_shape ns (replace_outputs_loop old new_signal force os ns).2.
Proof.
  destruct (replace_outputs_loop old new_signal force os ns) as [r ns2] eqn:E.
  destruct (replace_outputs_loop_spec _ _ _ _ _ _ _ E) as (Hlen & Hnodes & _).
  split; [done|]. intros j nd' Hj.
  destruct (Hnodes j nd' Hj) as (nd & ? & ? & ? & ? & _). by exists nd.
Qed.

Lemma cond_comp_outputs (ntk : network) (old : nat) (new_signal : signal) (force : bool) :
  outputs (replace_in_outputs_cond_comp ntk old new_signal force)
  = if is_dead ntk old then outputs ntk
    else (fun o => if (index o =? old)%nat && (force || complement o)
                   then Signal (index new_signal)
                               (xorb (complement o) (complement new_signal))
                   else o) <$> outputs ntk.
Proof.
  unfold replace_in_outputs_cond_comp. destruct (is_dead ntk old); [done|].
  pose proof (replace_outputs_loop_fst old new_signal force (outputs ntk) (nodes ntk)) as H.
  destruct (replace_outputs_loop _ _ _ _ _) as [os ns]. simpl in *. done.
Qed.

Lemma cond_comp_shape (ntk : network) (old : nat) (new_signal : signal) (force : bool) :
  same_shape (nodes ntk) (nodes (replace_in_outputs_cond_comp ntk old new_signal force)) /\
  hash (replace_in_outputs_cond_comp ntk old new_signal force) = hash ntk /\
  _fanout (replace_in_outputs_cond_comp ntk old new_signal force) = _fanout ntk.
Proof.
  unfold replace_in_outputs_cond_comp. destruct (is_dead ntk old).
  { split; [|done]. split; [done|]. intros j nd Hj. by exists nd. }
  pose proof (replace_outputs_loop_shape old new_signal force (outputs ntk) (nodes ntk)) as H.
  destruct (replace_outputs_loop _ _ _ _ _) as [os ns]. simpl in *. done.
Qed.

(** X12. [replace_in_outputs_cond_comp] leaves the output table as it
    is when [old_node] is dead; otherwise it rewrites exactly the output entries on [old_node]
    that are complemented (all of them when [have_comp_out] is set) to
    [new_signal.index] with the complement bits XOR-ed, and leaves every
    other entry, the size of the pool, the fan-ins and flags of every node
    and the hash table as they were. *)
Theorem replace_in_outputs_cond_comp_outputs
    (ntk : network) (old : nat) (new_signal : signal) (force : bool) :
  let ntk' := replace_in_outputs_cond_comp ntk old new_signal force in
  outputs ntk'
  = (if is_dead ntk old then outputs ntk
     else (fun o => if (index o =? old)%nat && (force || complement o)
                    then Signal (index new_signal)
                                (xorb (complement o) (complement new_signal))
                    else o) <$> outputs ntk) /\
  length (nodes ntk') = length (nodes ntk) /\
  (forall j, children (get_node_obj ntk' j) = children (get_node_obj ntk j) /\
             is_pi ntk' j = is_pi ntk j /\ is_dead ntk' j = is_dead ntk j) /\
  hash ntk' = hash ntk.
Proof.
  simpl. destruct (cond_comp_shape ntk old new_signal force) as ((Hlen & Hsh) & Hh & _).
  split; [apply cond_comp_outputs|]. split; [done|]. split; [|done].
  intros j. unfold is_pi, is_dead, get_node_obj.
  destruct (nodes (replace_in_outputs_cond_comp ntk old new_signal force) !! j)
    as [nd'|] eqn:E.
  - destruct (Hsh j nd' E) as (nd & -> & ? & ? & ?). done.
  - apply lookup_ge_None in E. rewrite Hlen in E.
    apply lookup_ge_None in E. by rewrite E.
Qed.

(** X13. When [new_signal] is not on [old_node] itself, applying
    [replace_in_outputs_cond_comp] a second time with the same arguments
    changes nothing. *)
Theorem replace_in_outputs_cond_comp_twice
    (ntk : network) (old : nat) (new_signal : signal) (force : bool) :
  index new_signal ≠ old ->
  let ntk' := replace_in_outputs_cond_comp ntk old new_signal force in
  replace_in_outputs_cond_comp ntk' old new_signal force = ntk'.
Proof.
  intros Hne. simpl.
  pose proof (cond_comp_outputs ntk old new_signal force) as Hos.
  destruct (cond_comp_shape ntk old new_signal force) as ((Hlen & Hsh) & _ & _).
  unfold replace_in_outputs_cond_comp in *.
  destruct (is_dead ntk old) eqn:Hd; [by rewrite Hd|].
  destruct (replace_outputs_loop old new_signal force (outputs ntk) (nodes ntk))
    as [os ns] eqn:E. simpl in *.
  assert (is_dead (set_outputs os (set_nodes ns ntk)) old = false) as ->.
  { unfold is_dead, get_node_obj in *. simpl.
    destruct (ns !! old) as [nd'|] eqn:E'; [|done].
    destruct (Hsh old nd' E') as (nd & Hnd & _ & _ & Hdd). rewrite Hnd in Hd. simpl in *.
    congruence. }
  rewrite replace_outputs_loop_idle; [done|].
  rewrite Hos. apply Forall_fmap, Forall_forall. intros o _. simpl.
  destruct ((index o =? old)%nat && (force || complement o)) eqn:Hc; [|done].
  simpl. apply Nat.eqb_neq in Hne. by rewrite Hne.
Qed.

(** Moving the output of [chain] from gate 6 to [!4]. *)
Lemma replace_in_outputs_cond_comp_twice_witness :
  index (Examples.neg 4) ≠ 6%nat /\
  replace_in_outputs_cond_comp
    (replace_in_outputs_cond_comp Examples.chain 6 (Examples.neg 4) true)
    6 (Examples.neg 4) true
  = replace_in_outputs_cond_comp Examples.chain 6 (Examples.neg 4) true.
Proof.
  assert (index (Examples.neg 4) ≠ 6%nat) as H by (simpl; lia).
  split; [exact H|].
  exact (replace_in_outputs_cond_comp_twice Examples.chain 6 (Examples.neg 4) true H).
Defined.

(** ** Values *)

Lemma eval_node_ext (ntk ntk' : network) (asg : nat -> bool) :
  (forall j, children (get_node_obj ntk' j) = children (get_node_obj ntk j) /\
             is_pi ntk' j = is_pi ntk j) ->
  forall fuel n, eval_node fuel ntk' asg n = eval_node fuel ntk asg n.
Proof.
  intros H fuel. induction fuel as [|fuel IH]; intros n; simpl; [done|].
  destruct (H n) as [-> ->]. destruct (is_constant n); [done|].
  destruct (is_pi ntk n); [done|].
  destruct (children (get_node_obj ntk n)) as [[a b] c]. by rewrite !IH.
Qed.

(** X14. When [new_signal] has the value of [old_node] under an
    assignment, [replace_in_outputs_cond_comp] leaves the value of every
    primary output under that assignment as it was. *)
Theorem replace_in_outputs_cond_comp_values
    (ntk : network) (old : nat) (new_signal : signal) (force : bool)
    (asg : nat -> bool) (fuel : nat) (b : bool) :
  eval_node fuel ntk asg old = Some b ->
  eval_signal fuel ntk asg new_signal = Some b ->
  let ntk' := replace_in_outputs_cond_comp ntk old new_signal force in
  eval_signal fuel ntk' asg <$> outputs ntk' = eval_signal fuel ntk asg <$> outputs ntk.
Proof.
  intros Hold Hnew. simpl.
  pose proof (cond_comp_outputs ntk old new_signal force) as Hos.
  destruct (cond_comp_shape ntk old new_signal force) as ((Hlen & Hsh) & _ & _).
  set (ntk' := replace_in_outputs_cond_comp ntk old new_signal force) in *.
  assert (forall n, eval_node fuel ntk' asg n = eval_node fuel ntk asg n) as Hev.
  { apply eval_node_ext. intros j. unfold is_pi, get_node_obj.
    destruct (nodes ntk' !! j) as [nd'|] eqn:E.
    - destruct (Hsh j nd' E) as (nd & -> & ? & ? & ?). done.
    - apply lookup_ge_None in E. rewrite Hlen in E.
      apply lookup_ge_None in E. by rewrite E. }
  rewrite Hos. destruct (is_dead ntk old).
  { apply list_fmap_ext. intros i o _. unfold eval_signal. by rewrite Hev. }
  rewrite <- list_fmap_compose. apply list_fmap_ext. intros i o _. simpl.
  unfold eval_signal in *. rewrite !Hev.
  destruct ((index o =? old)%nat && (force || complement o)) eqn:Hc; [|done].
  apply andb_prop in Hc as [Hi _]. apply Nat.eqb_eq in Hi. simpl.
  rewrite Hi, Hold. simpl.
  destruct (eval_node fuel ntk asg (index new_signal)) as [v|]; [|done].
  simpl in *. simplify_eq. f_equal.
  by destruct v, (complement o), (complement new_signal).
Qed.

(** ** Reference counts *)

(** X15. [replace_in_outputs_cond_comp] keeps the reference counts in
    step with the output table: the 32-bit count of every node changes by
    the number of output entries it gained minus the number it lost. *)
Theorem replace_in_outputs_cond_comp_counts
    (ntk : network) (old : nat) (new_signal : signal) (force : bool) (j : nat) (nd : node) :
  nodes ntk !! j = Some nd -> 0 <= h1 nd < 2 ^ 32 ->
  let ntk' := replace_in_outputs_cond_comp ntk old new_signal force in
  fanout_size ntk' j
  = wrap32 (fanout_size ntk j + Z.of_nat (po_refs (outputs ntk') j)
            - Z.of_nat (po_refs (outputs ntk) j)).
Proof.
  intros Hj Hr. simpl. unfold replace_in_outputs_cond_comp.
  unfold fanout_size at 2. rewrite (get_node_obj_lookup _ _ _ Hj).
  destruct (is_dead ntk old).
  { unfold fanout_size. rewrite (get_node_obj_lookup _ _ _ Hj).
    rewrite <- (wrap32_small (h1 nd)) at 1 by done. apply (f_equal wrap32). lia. }
  destruct (replace_outputs_loop old new_signal force (outputs ntk) (nodes ntk))
    as [os ns] eqn:E. simpl.
  destruct (replace_outputs_loop_spec _ _ _ _ _ _ _ E) as (Hlen & Hnodes & _).
  assert (is_Some (ns !! j)) as [nd2 Hj2].
  { apply lookup_lt_is_Some. rewrite Hlen. by eapply lookup_lt_Some. }
  destruct (Hnodes j nd2 Hj2) as (nd0 & Hnd0 & _ & _ & _ & Hh). simplify_eq.
  unfold fanout_size, get_node_obj. simpl. rewrite Hj2. simpl.
  rewrite (Hh (h1 nd - Z.of_nat (po_refs (outputs ntk) j))).
  - apply (f_equal wrap32). lia.
  - rewrite <- (wrap32_small (h1 nd)) at 1 by done. apply (f_equal wrap32). lia.
Qed.

(** On [chain] with all inputs false, gate 6 and input 1 are both false. *)
Lemma replace_in_outputs_cond_comp_values_witness :
  eval_node 8 Examples.chain (fun _ => false) 6 = Some false /\
  eval_signal 8 Examples.chain (fun _ => false) (Examples.pos 1) = Some false /\
  eval_signal 8 (replace_in_outputs_cond_comp Examples.chain 6 (Examples.pos 1) true)
      (fun _ => false)
    <$> outputs (replace_in_outputs_cond_comp Examples.chain 6 (Examples.pos 1) true)
  = eval_signal 8 Examples.chain (fun _ => false) <$> outputs Examples.chain.
Proof.
  assert (eval_node 8 Examples.chain (fun _ => false) 6 = Some false) as H1
    by (vm_compute; reflexivity).
  assert (eval_signal 8 Examples.chain (fun _ => false) (Examples.pos 1) = Some false) as H2
    by (vm_compute; reflexivity).
  split; [exact H1|]. split; [exact H2|].
  exact (replace_in_outputs_cond_comp_values Examples.chain 6 (Examples.pos 1) true
           (fun _ => false) 8 false H1 H2).
Defined.

(** Gate 4 of [chain] gains the output that leaves gate 6. *)
Lemma replace_in_outputs_cond_comp_counts_witness :
  nodes Examples.chain !! 4%nat
    = Some (Node (Examples.pos 1, Examples.pos 2, Examples.pos 3) 2 false false) /\
  0 <= 2 < 2 ^ 32 /\
  fanout_size (replace_in_outputs_cond_comp Examples.chain 6 (Examples.neg 4) true) 4
  = wrap32 (fanout_size Examples.chain 4
            + Z.of_nat (po_refs (outputs (replace_in_outputs_cond_comp Examples.chain 6
                                            (Examples.neg 4) true)) 4)
            - Z.of_nat (po_refs (outputs Examples.chain) 4)).
Proof.
  assert (nodes Examples.chain !! 4%nat
          = Some (Node (Examples.pos 1, Examples.pos 2, Examples.pos 3) 2 false false)) as H1
    by (vm_compute; reflexivity).
  assert (0 <= 2 < 2 ^ 32) as H2 by lia.
  split; [exact H1|]. split; [exact H2|].
  exact (replace_in_outputs_cond_comp_counts Examples.chain 6 (Examples.neg 4) true 4 _ H1 H2).
Defined.

(** ** Valuations *)

Lemma maj_perm (x y z x' y' z' : bool) :
  [x; y; z] ≡ₚ [x'; y'; z'] -> maj x y z = maj x' y' z'.
Proof.
  intros H. apply perm3_cases in H.
  destruct H as [H|[H|[H|[H|[H|H]]]]]; simplify_eq; by destruct x, y, z.
Qed.

Lemma maj_neg (x y z : bool) : maj (negb x) (negb y) (negb z) = negb (maj x y z).
Proof. by destruct x, y, z. Qed.

Lemma maj3_perm (v : nat -> bool) (a b c a' b' c' : signal) :
  [a; b; c] ≡ₚ [a'; b'; c'] -> maj3 v (a, b, c) = maj3 v (a', b', c').
Proof.
  intros H. simpl. apply maj_perm.
  change ([sig_val v a; sig_val v b; sig_val v c]) with (sig_val v <$> [a; b; c]).
  by rewrite H.
Qed.

Lemma sig_val_not (v : nat -> bool) (s : signal) : sig_val v (sig_not s) = negb (sig_val v s).
Proof. unfold sig_val, sig_not. simpl. by destruct (v (index s)), (complement s). Qed.

Lemma eval_node_S (fuel : nat) (ntk : network) (asg : nat -> bool) (n : nat) (b : bool) :
  eval_node fuel ntk asg n = Some b -> eval_node (S fuel) ntk asg n = Some b.
Proof.
  revert n b. induction fuel as [|fuel IH]; intros n b H; [done|].
  simpl in H. change (eval_node (S (S fuel)) ntk asg n) with
    (if is_constant n then Some false
     else if is_pi ntk n then Some (asg n)
     else let '(a, b, c) := children (get_node_obj ntk n) in
          match eval_node (S fuel) ntk asg (index a), eval_node (S fuel) ntk asg (index b),
                eval_node (S fuel) ntk asg (index c) with
          | Some x, Some y, Some z =>
              Some (maj (xorb x (complement a)) (xorb y (complement b))
                        (xorb z (complement c)))
          | _, _, _ => None
          end).
  destruct (is_constant n); [done|]. destruct (is_pi ntk n); [done|].
  destruct (children (get_node_obj ntk n)) as [[a b0] c].
  destruct (eval_node fuel ntk asg (index a)) as [x|] eqn:Ea; [|done].
  destruct (eval_node fuel ntk asg (index b0)) as [y|] eqn:Eb; [|done].
  destruct (eval_node fuel ntk asg (index c)) as [z|] eqn:Ec; [|done].
  by rewrite (IH _ _ Ea), (IH _ _ Eb), (IH _ _ Ec).
Qed.

Lemma eval_node_le (fuel fuel' : nat) (ntk : network) (asg : nat -> bool) (n : nat) (b : bool) :
  (fuel <= fuel')%nat ->
  eval_node fuel ntk asg n = Some b -> eval_node fuel' ntk asg n = Some b.
Proof.
  induction 1 as [|fuel' _ IH]; [done|]. intros H. by apply eval_node_S, IH.
Qed.

Lemma valuation_eval (ntk : network) (asg v : nat -> bool) (rank : nat -> nat) :
  valuation ntk asg v rank ->
  forall fuel n, (n < length (nodes ntk))%nat -> (rank n < fuel)%nat ->
                 eval_node fuel ntk asg n = Some (v n).
Proof.
  intros V fuel. induction fuel as [|fuel IH]; intros n Hn Hr; [lia|].
  simpl. destruct (Nat.eqb_spec n 0) as [->|Hn0].
  { simpl. by rewrite (val_const _ _ _ _ V). }
  unfold is_constant. apply Nat.eqb_neq in Hn0 as Hn0'. rewrite Hn0'.
  destruct (lookup_lt_is_Some_2 _ _ Hn) as [nd Hnd].
  unfold is_pi. rewrite (get_node_obj_lookup _ _ _ Hnd).
  destruct (ci nd) eqn:Hci.
  { by rewrite (val_pi _ _ _ _ V n nd Hnd Hn0 Hci). }
  destruct (val_gate _ _ _ _ V n nd Hnd Hn0 Hci) as [Hv Hb].
  destruct (children nd) as [[a b] c]. simpl in Hb, Hv.
  inversion Hb as [|? ? [Ha Hra] Hb1]; subst.
  inversion Hb1 as [|? ? [Hb' Hrb] Hb2]; subst.
  inversion Hb2 as [|? ? [Hc Hrc] _]; subst.
  rewrite !IH by (done || lia). by rewrite Hv.
Qed.

Lemma valuation_eval_signal (ntk : network) (asg v : nat -> bool) (rank : nat -> nat)
    (fuel : nat) (s : signal) :
  valuation ntk asg v rank ->
  (index s < length (nodes ntk))%nat -> (rank (index s) < fuel)%nat ->
  eval_signal fuel ntk asg s = Some (sig_val v s).
Proof.
  intros V Hs Hr. unfold eval_signal. by rewrite (valuation_eval _ _ _ _ V).
Qed.

(** A valuation reads the wiring of the pool only. *)
Lemma valuation_wiring (ntk ntk' : network) (asg v : nat -> bool) (rank : nat -> nat) :
  wiring <$> nodes ntk' = wiring <$> nodes ntk ->
  valuation ntk asg v rank -> valuation ntk' asg v rank.
Proof.
  intros E V.
  assert (length (nodes ntk') = length (nodes ntk)) as Hlen.
  { by rewrite <- (length_fmap wiring), E, length_fmap. }
  assert (forall n nd', nodes ntk' !! n = Some nd' ->
            exists nd, nodes ntk !! n = Some nd /\ children nd' = children nd /\
                       ci nd' = ci nd) as Hw.
  { intros n nd' Hn.
    assert ((wiring <$> nodes ntk) !! n = Some (wiring nd')) as H
      by (by rewrite <- E, list_lookup_fmap, Hn).
    rewrite list_lookup_fmap in H. destruct (nodes ntk !! n) as [nd|]; [|done].
    simpl in H. exists nd. unfold wiring in H. by simplify_eq. }
  split.
  - rewrite Hlen. apply V.
  - apply V.
  - intros n nd' Hn Hn0 Hci. destruct (Hw n nd' Hn) as (nd & Hnd & _ & Hi).
    apply (val_pi _ _ _ _ V n nd Hnd Hn0). congruence.
  - intros n nd' Hn Hn0 Hci. destruct (Hw n nd' Hn) as (nd & Hnd & Hc & Hi).
    rewrite Hlen, Hc. apply (val_gate _ _ _ _ V n nd Hnd Hn0). congruence.
Qed.

Lemma wiring_alter (f : node -> node) (i : nat) (l : list node) :
  keeps_shape f -> wiring <$> alter f i l = wiring <$> l.
Proof.
  intros Hf. apply list_eq. intros j. rewrite !list_lookup_fmap, lookup_alter_bump.
  destruct (l !! j) as [x|]; [|done]. simpl. f_equal. unfold bump, wiring.
  case_decide; [|done]. destruct (Hf x) as (-> & -> & _). done.
Qed.

Lemma wiring_mark_dead (i : nat) (l : list node) :
  wiring <$> alter mark_dead i l = wiring <$> l.
Proof.
  apply list_eq. intros j. rewrite !list_lookup_fmap, lookup_alter_bump.
  destruct (l !! j) as [x|]; [|done]. simpl. f_equal. unfold bump. by case_decide.
Qed.

Lemma wiring_same_shape (ns ns' : list node) :
  same_shape ns ns' -> wiring <$> ns' = wiring <$> ns.
Proof.
  intros [Hlen Hsh]. apply list_eq. intros j. rewrite !list_lookup_fmap.
  destruct (ns' !! j) as [nd'|] eqn:E.
  - destruct (Hsh j nd' E) as (nd & -> & Hc & Hi & _). simpl. unfold wiring. by rewrite Hc, Hi.
  - apply lookup_ge_None in E. rewrite Hlen in E. apply lookup_ge_None in E. by rewrite E.
Qed.

(** ** Well-formed networks have a valuation *)

Lemma I3_children (ntk : network) (n : nat) (nd : node) :
  I3 ntk -> nodes ntk !! n = Some nd -> n ≠ 0%nat -> ci nd = false ->
  Forall (fun s => (index s < n)%nat) (triple_list (children nd)).
Proof.
  intros H Hn Hn0 Hci. unfold I3 in H. rewrite Forall_forall in H.
  specialize (H n). rewrite elem_of_seq in H.
  pose proof (lookup_lt_Some _ _ _ Hn). specialize (H ltac:(lia)).
  unfold fanins in H. rewrite (is_gate_lookup _ _ _ Hn) in H.
  rewrite (get_node_obj_lookup _ _ _ Hn) in H.
  unfold is_constant in H. apply Nat.eqb_neq in Hn0. rewrite Hn0, Hci in H. done.
Qed.

Lemma I3_eval (ntk : network) (asg : nat -> bool) :
  I3 ntk ->
  forall n, (n < length (nodes ntk))%nat -> is_Some (eval_node (S n) ntk asg n).
Proof.
  intros H n. induction (lt_wf n) as [n _ IH]. intros Hn. simpl.
  destruct (Nat.eqb_spec n 0) as [->|Hn0]; [done|].
  unfold is_constant. apply Nat.eqb_neq in Hn0 as Hn0'. rewrite Hn0'.
  destruct (lookup_lt_is_Some_2 _ _ Hn) as [nd Hnd].
  unfold is_pi. rewrite (get_node_obj_lookup _ _ _ Hnd).
  destruct (ci nd) eqn:Hci; [done|].
  pose proof (I3_children ntk n nd H Hnd Hn0 Hci) as Hc.
  destruct (children nd) as [[a b] c]. simpl in Hc.
  inversion Hc as [|? ? Ha Hc1]; subst. inversion Hc1 as [|? ? Hb Hc2]; subst.
  inversion Hc2 as [|? ? Hc' _]; subst. simpl in Ha, Hb, Hc'.
  assert (index a < length (nodes ntk))%nat as Ha' by lia.
  assert (index b < length (nodes ntk))%nat as Hb' by lia.
  assert (index c < length (nodes ntk))%nat as Hc'' by lia.
  destruct (IH (index a) Ha Ha') as [x Hx].
  destruct (IH (index b) Hb Hb') as [y Hy].
  destruct (IH (index c) Hc' Hc'') as [z Hz].
  rewrite (eval_node_le (S (index a)) n _ _ _ _ ltac:(lia) Hx).
  rewrite (eval_node_le (S (index b)) n _ _ _ _ ltac:(lia) Hy).
  rewrite (eval_node_le (S (index c)) n _ _ _ _ ltac:(lia) Hz). done.
Qed.

Lemma wf_valuation (ntk : network) (asg : nat -> bool) :
  wf ntk ->
  valuation ntk asg (fun n => default false (eval_node (S n) ntk asg n)) id.
Proof.
  intros (_ & _ & H3 & _ & ((Hlen & _ & _) & _)).
  pose proof (I3_eval ntk asg H3) as Hev.
  split; [done|done| |].
  - intros n nd Hnd Hn0 Hci. simpl.
    unfold is_constant. apply Nat.eqb_neq in Hn0. rewrite Hn0.
    unfold is_pi. by rewrite (get_node_obj_lookup _ _ _ Hnd), Hci.
  - intros n nd Hnd Hn0 Hci.
    pose proof (lookup_lt_Some _ _ _ Hnd) as Hn.
    pose proof (I3_children ntk n nd H3 Hnd Hn0 Hci) as Hc.
    set (v := fun n => default false (eval_node (S n) ntk asg n)).
    split.
    + change (default false (eval_node (S n) ntk asg n) = maj3 v (children nd)).
      cbn [eval_node]. unfold is_constant. apply Nat.eqb_neq in Hn0. rewrite Hn0.
      unfold is_pi. rewrite (get_node_obj_lookup _ _ _ Hnd), Hci.
      destruct (children nd) as [[a b] c]. simpl in Hc.
      inversion Hc as [|? ? Ha Hc1]; subst. inversion Hc1 as [|? ? Hb Hc2]; subst.
      inversion Hc2 as [|? ? Hc' _]; subst. simpl in Ha, Hb, Hc'.
      assert (index a < length (nodes ntk))%nat as Ha' by lia.
      assert (index b < length (nodes ntk))%nat as Hb' by lia.
      assert (index c < length (nodes ntk))%nat as Hc'' by lia.
      destruct (Hev (index a) Ha') as [x Hx].
      destruct (Hev (index b) Hb') as [y Hy].
      destruct (Hev (index c) Hc'') as [z Hz].
      rewrite (eval_node_le (S (index a)) n _ _ _ _ ltac:(lia) Hx).
      rewrite (eval_node_le (S (index b)) n _ _ _ _ ltac:(lia) Hy).
      rewrite (eval_node_le (S (index c)) n _ _ _ _ ltac:(lia) Hz).
      subst v. cbv [maj3 sig_val]. by rewrite Hx, Hy, Hz.
    + eapply Forall_impl; [exact Hc|]. intros s Hs. simpl in *. unfold id. lia.
Qed.

(** ** Valuations through the operations of the store *)

Lemma maj3_ext (v v' : nat -> bool) (k : triple) :
  Forall (fun s => v' (index s) = v (index s)) (triple_list k) -> maj3 v' k = maj3 v k.
Proof.
  destruct k as [[a b] c]. simpl. intros H.
  inversion H as [|? ? Ha H1]; subst. inversion H1 as [|? ? Hb H2]; subst.
  inversion H2 as [|? ? Hc _]; subst. unfold sig_val. by rewrite Ha, Hb, Hc.
Qed.

Lemma valuation_append (ntk ntk' : network) (asg v : nat -> bool) (rank : nat -> nat)
    (k : triple) (r0 : nat) :
  valuation ntk asg v rank ->
  wiring <$> nodes ntk' = (wiring <$> nodes ntk) ++ [(k, false)] ->
  Forall (fun s => (index s < length (nodes ntk))%nat /\ (rank (index s) < r0)%nat)
         (triple_list k) ->
  valuation ntk' asg
    (fun n => if decide (n = length (nodes ntk)) then maj3 v k else v n)
    (fun n => if decide (n = length (nodes ntk)) then r0 else rank n).
Proof.
  intros V E Hk. set (idx := length (nodes ntk)).
  assert (length (nodes ntk') = S idx) as Hlen.
  { rewrite <- (length_fmap wiring), E, length_app, length_fmap. simpl. unfold idx. lia. }
  pose proof (val_nonempty _ _ _ _ V) as Hne.
  assert (forall n nd', nodes ntk' !! n = Some nd' ->
            (n < idx)%nat /\ (exists nd, nodes ntk !! n = Some nd /\
                                 children nd' = children nd /\ ci nd' = ci nd) \/
            n = idx /\ children nd' = k /\ ci nd' = false) as Hw.
  { intros n nd' Hn.
    assert (((wiring <$> nodes ntk) ++ [(k, false)]) !! n = Some (wiring nd')) as H
      by (by rewrite <- E, list_lookup_fmap, Hn).
    destruct (decide (n < idx)%nat) as [Hlt|Hge].
    - left. split; [done|]. rewrite lookup_app_l in H by (by rewrite length_fmap).
      rewrite list_lookup_fmap in H. destruct (nodes ntk !! n) as [nd|]; [|done].
      simpl in H. exists nd. unfold wiring in H. by simplify_eq.
    - right. pose proof (lookup_lt_Some _ _ _ Hn) as Hlt. rewrite Hlen in Hlt.
      assert (n = idx) as -> by lia. split; [done|].
      rewrite lookup_app_r in H by (by rewrite length_fmap).
      rewrite length_fmap in H. fold idx in H. rewrite Nat.sub_diag in H.
      simpl in H. unfold wiring in H. by simplify_eq. }
  assert (forall k0, Forall (fun s => (index s < idx)%nat) (triple_list k0) ->
            maj3 (fun n => if decide (n = idx) then maj3 v k else v n) k0 = maj3 v k0)
    as Hm.
  { intros k0 H. apply maj3_ext. eapply Forall_impl; [exact H|].
    intros s Hs. simpl in *. rewrite decide_False; [done|lia]. }
  split.
  - rewrite Hlen. lia.
  - rewrite decide_False by (fold idx; lia). apply V.
  - intros n nd' Hn Hn0 Hci.
    destruct (Hw n nd' Hn) as [[Hlt (nd & Hnd & _ & Hi)]|[-> [_ Hi]]]; [|congruence].
    rewrite decide_False by (fold idx; lia).
    apply (val_pi _ _ _ _ V n nd Hnd Hn0). congruence.
  - intros n nd' Hn Hn0 Hci. fold idx. rewrite Hlen.
    destruct (Hw n nd' Hn) as [[Hlt (nd & Hnd & Hc & Hi)]|[-> [Hc _]]].
    + rewrite !decide_False by lia. rewrite Hc.
      destruct (val_gate _ _ _ _ V n nd Hnd Hn0 ltac:(congruence)) as [Hv Hb].
      fold idx in Hb. split.
      * rewrite Hm; [done|]. eapply Forall_impl; [exact Hb|]. by intros s [? ?].
      * eapply Forall_impl; [exact Hb|]. intros s [Hs Hr]. simpl.
        rewrite decide_False by lia. lia.
    + rewrite !decide_True by done. rewrite Hc. fold idx in Hk. split.
      * rewrite Hm; [done|]. eapply Forall_impl; [exact Hk|]. by intros s [? ?].
      * eapply Forall_impl; [exact Hk|]. intros s [Hs Hr]. simpl.
        rewrite decide_False by lia. lia.
Qed.

Lemma valuation_lower (ntk : network) (asg v : nat -> bool) (rank : nat -> nat)
    (i r0 : nat) :
  valuation ntk asg v rank ->
  (r0 <= rank i)%nat ->
  (forall nd, nodes ntk !! i = Some nd ->
     Forall (fun s => (rank (index s) < r0)%nat) (triple_list (children nd))) ->
  valuation ntk asg v (fun n => if decide (n = i) then r0 else rank n).
Proof.
  intros V Hr Hi. split; [apply V..|].
  intros n nd Hn Hn0 Hci.
  destruct (val_gate _ _ _ _ V n nd Hn Hn0 Hci) as [Hv Hb]. split; [done|].
  apply Forall_forall. intros s Hs. rewrite Forall_forall in Hb.
  destruct (Hb s Hs) as [Hlt Hrk]. split; [done|].
  destruct (decide (n = i)) as [->|Hni].
  - specialize (Hi nd Hn). rewrite Forall_forall in Hi. specialize (Hi s Hs).
    simpl in *. repeat case_decide; subst; try done; lia.
  - simpl in *. repeat case_decide; subst; try done; lia.
Qed.

Lemma sig_val_rewire (v : nat -> bool) (old : nat) (new_signal s : signal) :
  sig_val v new_signal = v old -> sig_val v (rewire old new_signal s) = sig_val v s.
Proof.
  intros H. unfold rewire. destruct (Nat.eqb_spec (index s) old) as [E|E]; [|done].
  unfold sig_val in *. simpl. rewrite E, <- H.
  by destruct (v (index new_signal)), (complement new_signal), (complement s).
Qed.

Lemma valuation_set_children (ntk ntk' : network) (asg v : nat -> bool) (rank : nat -> nat)
    (m : nat) (k : triple) :
  valuation ntk asg v rank ->
  wiring <$> nodes ntk' = wiring <$> alter (set_children k) m (nodes ntk) ->
  v m = maj3 v k ->
  Forall (fun s => (index s < length (nodes ntk))%nat /\ (rank (index s) < rank m)%nat)
         (triple_list k) ->
  valuation ntk' asg v rank.
Proof.
  intros V E Hv Hk.
  assert (length (nodes ntk') = length (nodes ntk)) as Hlen.
  { by rewrite <- (length_fmap wiring), E, length_fmap, length_alter. }
  assert (forall n nd', nodes ntk' !! n = Some nd' ->
            exists nd, nodes ntk !! n = Some nd /\ ci nd' = ci nd /\
                       children nd' = if decide (m = n) then k else children nd) as Hw.
  { intros n nd' Hn.
    assert ((wiring <$> alter (set_children k) m (nodes ntk)) !! n = Some (wiring nd')) as H
      by (by rewrite <- E, list_lookup_fmap, Hn).
    rewrite list_lookup_fmap, lookup_alter_bump in H.
    destruct (nodes ntk !! n) as [nd|]; [|done]. simpl in H. exists nd.
    split; [done|]. unfold bump, wiring in H. case_decide; simplify_eq; by destruct nd. }
  split.
  - rewrite Hlen. apply V.
  - apply V.
  - intros n nd' Hn Hn0 Hci. destruct (Hw n nd' Hn) as (nd & Hnd & Hi & _).
    apply (val_pi _ _ _ _ V n nd Hnd Hn0). congruence.
  - intros n nd' Hn Hn0 Hci. destruct (Hw n nd' Hn) as (nd & Hnd & Hi & Hc).
    rewrite Hlen, Hc. case_decide; subst; [done|].
    apply (val_gate _ _ _ _ V n nd Hnd Hn0). congruence.
Qed.

Lemma replace_in_node_valuation (ntk : network) (m old : nat) (new_signal : signal)
    (asg v : nat -> bool) (rank : nat -> nat) :
  consistent ntk -> is_live_gate ntk m = true ->
  valuation ntk asg v rank ->
  (index new_signal < length (nodes ntk))%nat ->
  sig_val v new_signal = v old ->
  (rank (index new_signal) <= rank old)%nat ->
  valuation (replace_in_node ntk m old new_signal).1 asg v rank.
Proof.
  intros C Hlive V Hnew Hval Hrank.
  destruct (replace_in_node_outcome ntk m old new_signal C Hlive)
    as [-> _ _|s nd x y z c0 c1 c2 -> _ _ _ _ _ _
       |nd x y z c0 c1 c2 _ Hnd Hk Hord Hss Hmiss Hocc ->]; [done|done|].
  assert (live_at m nd = true) as Hl by (by rewrite <- (is_live_gate_lookup _ _ _ Hnd)).
  unfold live_at in Hl. apply andb_prop in Hl as [Hl _]. apply andb_prop in Hl as [Hm0 Hci].
  apply negb_true_iff in Hm0, Hci. unfold is_constant in Hm0. apply Nat.eqb_neq in Hm0.
  destruct (val_gate _ _ _ _ V m nd Hnd Hm0 Hci) as [Hv Hb]. rewrite Hk in Hv, Hb.
  pose proof (order_inputs_perm (rewire old new_signal x) (rewire old new_signal y)
                (rewire old new_signal z)) as Hperm.
  rewrite Hord in Hperm. simpl in Hperm.
  apply (valuation_set_children ntk _ asg v rank m (c0, c1, c2) V).
  - simpl. by rewrite !wiring_alter by (apply incr_keeps_shape || apply decr_keeps_shape).
  - rewrite Hv, (maj3_perm v _ _ _ _ _ _ Hperm). simpl.
    by rewrite !sig_val_rewire.
  - simpl. rewrite Hperm. simpl in Hb.
    assert (exists s0, s0 ∈ [x; y; z] /\ index s0 = old) as (s0 & Hs0 & Hi0).
    { rewrite occurrences_triple in Hocc.
      repeat case_decide; try lia;
        [exists x|exists y|exists z]; (split; [rewrite !elem_of_cons; auto|done]). }
    rewrite Forall_forall in Hb. destruct (Hb s0 Hs0) as [_ Hr0]. rewrite Hi0 in Hr0.
    assert (forall s, s ∈ [x; y; z] ->
              (index (rewire old new_signal s) < length (nodes ntk))%nat /\
              (rank (index (rewire old new_signal s)) < rank m)%nat) as Hrw.
    { intros s Hs. destruct (Hb s Hs) as [? ?]. unfold rewire.
      destruct (index s =? old)%nat; simpl; [split; [done|lia]|done]. }
    repeat constructor; apply Hrw; rewrite !elem_of_cons; auto.
Qed.

Lemma replace_in_outputs_valuation (ntk : network) (n : nat) (s : signal)
    (asg v : nat -> bool) (rank : nat -> nat) :
  valuation ntk asg v rank -> sig_val v s = v n ->
  valuation (replace_in_outputs ntk n s) asg v rank /\
  sig_val v <$> outputs (replace_in_outputs ntk n s) = sig_val v <$> outputs ntk.
Proof.
  intros V Hs. unfold replace_in_outputs.
  pose proof (replace_outputs_loop_fst n s true (outputs ntk) (nodes ntk)) as Hf.
  pose proof (replace_outputs_loop_shape n s true (outputs ntk) (nodes ntk)) as Hsh.
  destruct (replace_outputs_loop n s true (outputs ntk) (nodes ntk)) as [os ns].
  simpl in *. split.
  - apply (valuation_wiring ntk); [|done]. simpl. by apply wiring_same_shape.
  - rewrite Hf, <- list_fmap_compose. apply list_fmap_ext. intros i o _. simpl.
    rewrite ?orb_true_r, ?andb_true_r.
    destruct (Nat.eqb_spec (index o) n) as [E|E]; [|done].
    unfold sig_val in *. simpl. rewrite E, <- Hs.
    by destruct (v (index s)), (complement s), (complement o).
Qed.

Lemma take_out_valuation (ntk : network) (n : nat)
    (asg v : nat -> bool) (rank : nat -> nat) :
  valuation ntk asg v rank -> valuation (take_out_node ntk n) asg v rank.
Proof.
  intros V. destruct (is_live_gate ntk n) eqn:Hlive.
  - destruct (is_live_gate_Some _ _ Hlive) as (nd & Hnd & Hl).
    destruct (children nd) as [[a b] c] eqn:Hk.
    rewrite (take_out_node_live ntk n nd a b c Hnd Hl Hk).
    apply (valuation_wiring ntk); [|done]. simpl.
    rewrite !wiring_alter by apply decr_keeps_shape. apply wiring_mark_dead.
  - by rewrite take_out_node_not_live.
Qed.

(** ** The values of the outputs through one inversion *)

Lemma create_maj_sorted (ntk : network) (a b c : signal) :
  strictly_sorted (a, b, c) ->
  create_maj_without_changing_comp ntk a b c
  = match hash ntk !! (a, b, c) with
    | Some i => (ntk, Signal i false)
    | None =>
        (Network
           (alter incr_h1 (index c) (alter incr_h1 (index b) (alter incr_h1 (index a)
              (nodes ntk ++ [Node (a, b, c) 0 false false]))))
           (<[(a, b, c) := length (nodes ntk)]> (hash ntk)) (outputs ntk)
           (on_add (length (nodes ntk)) (a, b, c) (_fanout ntk)),
         Signal (length (nodes ntk)) false)
    end.
Proof.
  simpl. intros [Hab Hbc]. unfold create_maj_without_changing_comp.
  rewrite order_inputs_sorted_id by lia.
  destruct (Nat.eqb_spec (index a) (index b)); [lia|].
  destruct (Nat.eqb_spec (index b) (index c)); [lia|]. done.
Qed.

Lemma take_out_outputs (ntk : network) (n : nat) :
  outputs (take_out_node ntk n) = outputs ntk.
Proof.
  unfold take_out_node. destruct (negb _); [done|].
  by destruct (children _) as [[a b] c].
Qed.

Lemma rewire_consumers_valuation (n : nat) (new_node : signal) (l : list nat)
    (ntk : network) (asg v : nat -> bool) (rank : nat -> nat) :
  consistent ntk ->
  (forall u, u ∈ l -> is_live_gate ntk u = true) ->
  (index new_node < length (nodes ntk))%nat ->
  valuation ntk asg v rank ->
  sig_val v new_node = v n ->
  (rank (index new_node) <= rank n)%nat ->
  valuation (rewire_consumers n new_node l ntk) asg v rank.
Proof.
  revert ntk. induction l as [|u l IH]; intros ntk C Hlive Hnew V Hv Hr; simpl; [done|].
  pose proof (replace_in_node_steady ntk u n new_node C (Hlive u ltac:(left)) Hnew) as Hs.
  apply IH.
  - apply (steady_consistent _ _ Hs).
  - intros w Hw. rewrite (steady_live _ _ Hs). apply Hlive. by right.
  - by rewrite (steady_length _ _ Hs).
  - apply replace_in_node_valuation; try done. apply Hlive. left.
  - done.
  - done.
Qed.

Lemma inv_node_values (ntk : network) (n : nat) (asg : nat -> bool) (bs : list bool) :
  consistent ntk -> is_live_gate ntk n = true ->
  keeps_values asg bs ntk -> keeps_values asg bs (IM.inv_node ntk n true).1.
Proof.
  intros C Hlive (v & rank & V & Hbs).
  destruct (live_gate_flags _ _ Hlive) as (Hp & Hc & Hd).
  destruct (is_live_gate_Some _ _ Hlive) as (nd & Hnd & Hl).
  pose proof (lookup_lt_Some _ _ _ Hnd) as Hn.
  assert (n ≠ 0%nat) as Hn0 by (unfold is_constant in Hc; by apply Nat.eqb_neq in Hc).
  assert (ci nd = false) as Hci.
  { unfold is_pi in Hp. by rewrite (get_node_obj_lookup _ _ _ Hnd) in Hp. }
  unfold IM.inv_node. rewrite Hp, Hc. simpl. rewrite (get_node_obj_lookup _ _ _ Hnd).
  pose proof (gates_sorted _ C n nd Hnd Hl) as Hss.
  destruct (val_gate _ _ _ _ V n nd Hnd Hn0 Hci) as [Hvn Hb].
  destruct (children nd) as [[a b] c] eqn:Hk. simpl in Hss, Hb, Hvn.
  assert (strictly_sorted (sig_not a, sig_not b, sig_not c)) as Hss' by done.
  rewrite (create_maj_sorted ntk _ _ _ Hss').
  assert (maj3 v (sig_not a, sig_not b, sig_not c) = negb (v n)) as Hneg.
  { simpl. by rewrite !sig_val_not, maj_neg, Hvn. }
  assert (Forall (fun s => (index s < length (nodes ntk))%nat /\
                           (rank (index s) < rank n)%nat)
            [sig_not a; sig_not b; sig_not c]) as Hb'.
  { change [sig_not a; sig_not b; sig_not c] with (sig_not <$> [a; b; c]).
    apply Forall_fmap. eapply Forall_impl; [exact Hb|]. intros x Hx. exact Hx. }
  (* the network after the constructor, with its valuation *)
  assert (exists ntk1 s v1 rank1,
    (match hash ntk !! (sig_not a, sig_not b, sig_not c) with
     | Some i => (ntk, Signal i false)
     | None =>
         (Network
            (alter incr_h1 (index (sig_not c)) (alter incr_h1 (index (sig_not b))
               (alter incr_h1 (index (sig_not a))
                  (nodes ntk ++ [Node (sig_not a, sig_not b, sig_not c) 0 false false]))))
            (<[(sig_not a, sig_not b, sig_not c) := length (nodes ntk)]> (hash ntk))
            (outputs ntk)
            (on_add (length (nodes ntk)) (sig_not a, sig_not b, sig_not c) (_fanout ntk)),
          Signal (length (nodes ntk)) false)
     end) = (ntk1, s) /\
    consistent ntk1 /\ valuation ntk1 asg v1 rank1 /\
    sig_val v1 <$> outputs ntk1 = bs /\
    (index s < length (nodes ntk1))%nat /\
    sig_val v1 (sig_not s) = v1 n /\ (rank1 (index s) <= rank1 n)%nat)
    as (ntk1 & s & v1 & rank1 & -> & C1 & V1 & Hbs1 & Hs1 & Hv1 & Hr1).
  { destruct (hash ntk !! (sig_not a, sig_not b, sig_not c)) as [i|] eqn:Hh.
    - destruct (hash_sound _ C _ _ Hh) as (ndi & Hndi & Hli & Hki).
      assert (i ≠ n) as Hin.
      { intros ->. rewrite Hnd in Hndi. injection Hndi as <-. rewrite Hk in Hki.
        injection Hki as Ha _ _. destruct a as [ia []]; discriminate. }
      unfold live_at in Hli. apply andb_prop in Hli as [Hli _].
      apply andb_prop in Hli as [Hi0 Hcii]. apply negb_true_iff in Hi0, Hcii.
      unfold is_constant in Hi0. apply Nat.eqb_neq in Hi0.
      destruct (val_gate _ _ _ _ V i ndi Hndi Hi0 Hcii) as [Hvi Hbi]. rewrite Hki in Hvi, Hbi.
      exists ntk, (Signal i false), v,
        (fun j => if decide (j = i) then Nat.min (rank i) (rank n) else rank j).
      split; [done|]. split; [done|]. split.
      { apply valuation_lower; [done|lia|]. intros nd' ?. simplify_eq. rewrite Hki.
        apply Forall_forall. intros s0 Hs0. rewrite Forall_forall in Hbi, Hb'.
        destruct (Hbi s0 Hs0), (Hb' s0 Hs0). lia. }
      split; [done|]. split; [by eapply lookup_lt_Some|]. split.
      + rewrite sig_val_not. unfold sig_val. simpl. rewrite Hvi, Hneg.
        by destruct (v n).
      + simpl. rewrite decide_True by done. rewrite decide_False by done. lia.
    - set (k := (sig_not a, sig_not b, sig_not c)) in *.
      set (idx := length (nodes ntk)).
      assert (Forall (fun s => (index s < length (nodes ntk))%nat) [sig_not a; sig_not b; sig_not c])
        as Hkb by (eapply Forall_impl; [exact Hb'|]; by intros ? [? ?]).
      pose proof (create_gate_consistent ntk _ _ _ C Hss' Hh Hkb) as C1.
      set (ntk1 := Network _ _ _ _) in *.
      exists ntk1, (Signal idx false),
        (fun j => if decide (j = idx) then maj3 v k else v j),
        (fun j => if decide (j = idx) then rank n else rank j).
      split; [done|]. split; [done|]. split.
      { apply (valuation_append ntk ntk1 asg v rank k (rank n) V); [|done].
        unfold ntk1. simpl.
        rewrite !wiring_alter by apply incr_keeps_shape. by rewrite fmap_app. }
      split.
      { rewrite <- Hbs. apply list_fmap_ext. intros j o Ho. unfold sig_val.
        rewrite decide_False; [done|].
        pose proof (outputs_bounded _ C) as Hob. rewrite Forall_forall in Hob.
        specialize (Hob o (list_elem_of_lookup_2 _ _ _ Ho)). fold idx in Hob. lia. }
      split.
      { unfold ntk1. simpl. rewrite !length_alter, length_app. simpl. fold idx. lia. }
      split.
      + rewrite sig_val_not. unfold sig_val. cbn [index complement].
        rewrite decide_True by done. rewrite decide_False by (fold idx in Hn; lia).
        rewrite Hneg. by destruct (v n).
      + simpl. rewrite decide_True by done. rewrite decide_False by (fold idx in Hn; lia).
        done. }
  set (new_node := sig_not s).
  assert (index new_node = index s) as Hidx by done.
  destruct (replace_in_outputs_valuation ntk1 n new_node asg v1 rank1 V1 Hv1) as [V2 Hbs2].
  destruct (replace_in_outputs_consistent ntk1 n new_node C1 ltac:(by rewrite Hidx))
    as (C2 & Hshape & _ & _ & _).
  set (ntk2 := replace_in_outputs ntk1 n new_node) in *.
  change (fold_left _ (fanout_of ntk2 n) ntk2)
    with (rewire_consumers n new_node (fanout_of ntk2 n) ntk2).
  assert (length (nodes ntk2) = length (nodes ntk1)) as Hlen2 by (by destruct Hshape).
  assert (forall u, u ∈ fanout_of ntk2 n -> is_live_gate ntk2 u = true) as Hlv.
  { intros u Hu. destruct (fanout_sound _ C2 n u Hu) as (ndu & Hndu & Hlu & _).
    by rewrite (is_live_gate_lookup _ _ _ Hndu). }
  pose proof (rewire_consumers_steady n new_node (fanout_of ntk2 n) ntk2 C2 Hlv
                ltac:(rewrite Hlen2, Hidx; done)) as Hst.
  pose proof (rewire_consumers_valuation n new_node (fanout_of ntk2 n) ntk2 asg v1 rank1
                C2 Hlv ltac:(rewrite Hlen2, Hidx; done) V2 Hv1
                ltac:(rewrite Hidx; done)) as V3.
  set (ntk3 := rewire_consumers n new_node (fanout_of ntk2 n) ntk2) in *.
  simpl. exists v1, rank1. split.
  - destruct (_ =? _); [by apply take_out_valuation|done].
  - assert (outputs (if fanout_size ntk3 n =? 0 then take_out_node ntk3 n else ntk3)
            = outputs ntk3) as -> by (destruct (_ =? _); [apply take_out_outputs|done]).
    rewrite (steady_outputs _ _ Hst). by rewrite Hbs2.
Qed.

(** ** What every inversion keeps, the sweep keeps *)

Section sweep.
Context (P : network -> Prop).
Hypothesis P_inv : forall nt n,
  consistent nt -> is_live_gate nt n = true -> P nt -> P (IM.inv_node nt n true).1.

Lemma sweep_keeps_P (l : list nat) (ntk : network) :
  consistent ntk -> (forall u, u ∈ l -> (u < length (nodes ntk))%nat) -> P ntk ->
  P (fold_left
       (fun nt fo => if 0 <? IM.one_level nt fo then fst (IM.inv_node nt fo true) else nt)
       l ntk).
Proof.
  revert ntk. induction l as [|u l IH]; intros ntk C Hin HP; simpl; [done|].
  assert (no_more_gates ntk
            (if 0 <? IM.one_level ntk u then (IM.inv_node ntk u true).1 else ntk) /\
          P (if 0 <? IM.one_level ntk u then (IM.inv_node ntk u true).1 else ntk))
    as [Hs HP'].
  { destruct (0 <? IM.one_level ntk u) eqn:E; [|split; [by apply no_more_gates_refl|done]].
    assert (is_live_gate ntk u = true) as Hl.
    { apply one_level_pos_live; [|done]. apply Hin. left. }
    split; [by apply inv_node_no_more_gates|by apply P_inv]. }
  apply IH; [apply Hs| |done].
  intros v Hv. pose proof (after_length _ _ Hs). specialize (Hin v ltac:(by right)). lia.
Qed.

Lemma visit_keeps_P (ntk : network) (st : stats) (n : nat) :
  consistent ntk -> (n < length (nodes ntk))%nat -> P ntk ->
  P (IM.visit (ntk, st) n).1.
Proof.
  intros C Hn HP. unfold IM.visit.
  destruct (is_dead ntk n); [done|].
  assert (exists ntk1 st1,
    (if 0 <? IM.one_level ntk n
     then ((IM.inv_node ntk n true).1, credit st (IM.one_level ntk n)) else (ntk, st))
    = (ntk1, st1) /\ no_more_gates ntk ntk1 /\ P ntk1) as (ntk1 & st1 & -> & H1 & HP1).
  { destruct (0 <? IM.one_level ntk n) eqn:E.
    - eexists _, _. split; [done|].
      assert (is_live_gate ntk n = true) as Hl by (by apply one_level_pos_live).
      split; [by apply inv_node_no_more_gates|by apply P_inv].
    - eexists _, _. split; [done|]. split; [by apply no_more_gates_refl|done]. }
  pose proof (after_consistent _ _ H1) as C1.
  pose proof (after_length _ _ H1) as L1.
  destruct (0 <? IM.two_level ntk1 n) eqn:E2; [|done].
  assert (is_live_gate ntk1 n = true) as Hl1 by (apply two_level_pos_live; [lia|done]).
  pose proof (inv_node_no_more_gates ntk1 n C1 Hl1) as H2.
  pose proof (P_inv ntk1 n C1 Hl1 HP1) as HP2.
  destruct (IM.inv_node ntk1 n true) as [ntk2 new_node]. simpl in *.
  apply sweep_keeps_P; [apply H2| |done].
  intros u Hu.
  destruct (fanout_sound _ (after_consistent _ _ H2) _ _ Hu) as (nd & Hnd & _).
  by eapply lookup_lt_Some.
Qed.

Lemma run_keeps_P (l : list nat) (ntk : network) (st : stats) :
  consistent ntk -> (forall n, n ∈ l -> (n < length (nodes ntk))%nat) -> P ntk ->
  P (fold_left (fun acc n => if is_live_gate acc.1 n then IM.visit acc n else acc)
       l (ntk, st)).1.
Proof.
  revert ntk st. induction l as [|n l IH]; intros ntk st C Hin HP; cbn [fold_left fst];
    [done|].
  assert (no_more_gates ntk
            (if is_live_gate ntk n then IM.visit (ntk, st) n else (ntk, st)).1 /\
          P (if is_live_gate ntk n then IM.visit (ntk, st) n else (ntk, st)).1)
    as [Hs HP'].
  { destruct (is_live_gate ntk n); [|split; [by apply no_more_gates_refl|done]].
    assert (n < length (nodes ntk))%nat as Hn by (apply Hin; left).
    split; [by apply visit_no_more_gates|by apply visit_keeps_P]. }
  destruct (if is_live_gate ntk n then IM.visit (ntk, st) n else (ntk, st))
    as [ntk1 st1]. simpl in Hs, HP'.
  apply IH; [apply Hs| |done].
  intros v Hv. pose proof (after_length _ _ Hs). specialize (Hin v ltac:(by right)). lia.
Qed.

Lemma minimization_keeps_P (elapsed : Z) (ntk : network) :
  consistent (fanout_view ntk) -> P (fanout_view ntk) ->
  consistent (IM.mig_inv_minimization elapsed ntk).1 /\
  P (IM.mig_inv_minimization elapsed ntk).1.
Proof.
  intros C HP. unfold IM.mig_inv_minimization, IM.run.
  assert (forall n, n ∈ gate_range (fanout_view ntk) ->
                    (n < length (nodes (fanout_view ntk)))%nat) as Hr.
  { intros n Hn. unfold gate_range in Hn. apply elem_of_seq in Hn. simpl in *. lia. }
  pose proof (run_no_more_gates _ (fanout_view ntk) default_stats C Hr) as H.
  pose proof (run_keeps_P _ (fanout_view ntk) default_stats C Hr HP) as H'.
  destruct (fold_left _ _ _) as [ntk' st']. simpl in *. split; [apply H|done].
Qed.
End sweep.

(** ** The outputs keep their values *)

Lemma values_eval (ntk : network) (asg v : nat -> bool) (rank : nat -> nat)
    (fuel : nat) (os : list signal) :
  valuation ntk asg v rank ->
  Forall (fun o => (index o < length (nodes ntk))%nat) os ->
  Forall (fun o => (rank (index o) < fuel)%nat) os ->
  eval_signal fuel ntk asg <$> os = Some <$> (sig_val v <$> os).
Proof.
  intros V Hb Hr. rewrite <- list_fmap_compose. apply list_fmap_ext.
  intros i o Ho. simpl. rewrite Forall_forall in Hb, Hr.
  pose proof (list_elem_of_lookup_2 _ _ _ Ho) as Hin.
  by apply (valuation_eval_signal _ _ _ rank); [|apply Hb|apply Hr].
Qed.

Lemma eval_signal_fanout_view (fuel : nat) (ntk : network) (asg : nat -> bool) (s : signal) :
  eval_signal fuel (fanout_view ntk) asg s = eval_signal fuel ntk asg s.
Proof. unfold eval_signal. by rewrite (eval_node_ext ntk (fanout_view ntk)). Qed.

(** X8. On a network whose fanout view is well-formed, the minimization
    pass preserves the value of every primary output under every
    assignment of the inputs: the output tables before and after have the
    same length and evaluate, entry by entry, to the same Booleans; in
    particular every output of the result can still be evaluated. *)
Theorem minimization_preserves_outputs (elapsed : Z) (ntk : network) (asg : nat -> bool) :
  wf (fanout_view ntk) ->
  let ntk' := (IM.mig_inv_minimization elapsed ntk).1 in
  exists fuel bs,
    eval_signal fuel ntk asg <$> outputs ntk = Some <$> bs /\
    eval_signal fuel ntk' asg <$> outputs ntk' = Some <$> bs.
Proof.
  intros W. simpl.
  pose proof (wf_valuation _ asg W) as V0.
  pose proof (wf_consistent _ W) as C0.
  set (v0 := fun n => default false (eval_node (S n) (fanout_view ntk) asg n)) in V0.
  set (bs := sig_val v0 <$> outputs ntk).
  destruct (minimization_keeps_P (keeps_values asg bs)
              (fun nt n => inv_node_values nt n asg bs) elapsed ntk C0)
    as (C' & v' & rank' & V' & Hbs').
  { by exists v0, id. }
  set (ntk' := (IM.mig_inv_minimization elapsed ntk).1) in *.
  exists (length (nodes ntk)
          + S (max_list ((fun o => rank' (index o)) <$> outputs ntk')))%nat, bs.
  split.
  - transitivity (eval_signal (length (nodes ntk)
                     + S (max_list ((fun o => rank' (index o)) <$> outputs ntk')))
                    (fanout_view ntk) asg <$> outputs (fanout_view ntk)).
    { apply list_fmap_ext. intros i o _. by rewrite eval_signal_fanout_view. }
    apply (values_eval _ _ _ id); [done|apply (outputs_bounded _ C0)|].
    eapply Forall_impl; [apply (outputs_bounded _ C0)|]. intros o Ho. simpl in *.
    unfold id. lia.
  - rewrite <- Hbs'. apply (values_eval _ _ _ rank'); [done|apply (outputs_bounded _ C')|].
    apply Forall_forall. intros o Ho.
    assert (rank' (index o) ∈ (fun o => rank' (index o)) <$> outputs ntk') as Hin
      by (apply list_elem_of_fmap; by exists o).
    apply max_list_elem_of_le in Hin. lia.
Qed.

(** The network of the one-level test, inputs set by parity. *)
Lemma minimization_preserves_outputs_witness :
  wf (fanout_view Examples.one_level_test) /\
  exists fuel bs,
    eval_signal fuel Examples.one_level_test (fun n => Nat.even n)
      <$> outputs Examples.one_level_test = Some <$> bs /\
    eval_signal fuel (IM.mig_inv_minimization 0 Examples.one_level_test).1
        (fun n => Nat.even n)
      <$> outputs (IM.mig_inv_minimization 0 Examples.one_level_test).1 = Some <$> bs.
Proof.
  assert (wf (fanout_view Examples.one_level_test)) as W by wf_by_computation.
  split; [exact W|].
  exact (minimization_preserves_outputs 0 Examples.one_level_test (fun n => Nat.even n) W).
Defined.

(** ** The invariants the minimization pass keeps *)

Lemma consistent_I1 (ntk : network) : consistent ntk -> I1 ntk.
Proof.
  intros C. unfold I1. apply NoDup_fmap_2_strong.
  - intros n m Hn Hm E.
    apply elem_of_live_gates in Hn, Hm.
    destruct (is_live_gate_Some _ _ Hn) as (nd & Hnd & Hl).
    destruct (is_live_gate_Some _ _ Hm) as (md & Hmd & Hlm).
    rewrite (get_node_obj_lookup _ _ _ Hnd), (get_node_obj_lookup _ _ _ Hmd) in E.
    pose proof (gates_sorted _ C n nd Hnd Hl) as Hs.
    pose proof (gates_sorted _ C m md Hmd Hlm) as Hsm.
    pose proof (gates_hashed _ C n nd Hnd Hl) as Hh.
    pose proof (gates_hashed _ C m md Hmd Hlm) as Hhm.
    destruct (children nd) as [[a b] c], (children md) as [[a' b'] c'].
    simpl in Hs, Hsm, E.
    rewrite !order_inputs_sorted_id in E by lia. rewrite E in Hh. congruence.
  - unfold live_gates. apply NoDup_filter, NoDup_seq.
Qed.

Lemma consistent_I2 (ntk : network) : consistent ntk -> I2 ntk.
Proof.
  intros C. unfold I2. apply Forall_forall. intros n Hn Hd.
  apply elem_of_seq in Hn. destruct (lookup_lt_is_Some_2 (nodes ntk) n ltac:(lia)) as [nd Hnd].
  unfold fanout_size, is_dead in *. rewrite (get_node_obj_lookup _ _ _ Hnd) in *.
  by apply (refs_exact _ C).
Qed.

Lemma consistent_I4 (ntk : network) : consistent ntk -> I4 ntk.
Proof.
  intros C. split; [apply C|]. split.
  - apply Forall_forall. intros n _. apply Forall_forall. intros m Hm.
    destruct (fanout_sound _ C n m Hm) as (nd & Hnd & Hl & Hex).
    rewrite (is_live_gate_lookup _ _ _ Hnd), (fanins_live _ _ _ Hnd Hl). done.
  - apply Forall_forall. intros m Hm. apply elem_of_live_gates in Hm.
    destruct (is_live_gate_Some _ _ Hm) as (nd & Hnd & Hl).
    rewrite (fanins_live _ _ _ Hnd Hl). apply Forall_forall. intros s Hs.
    by apply (fanout_complete _ C m nd).
Qed.

(** X9. On a network whose fanout view is well-formed, the result of
    the minimization pass still satisfies I1 (no two live gates with the
    same fan-ins), I2 (exact reference counts) and I4 (the fanout index
    agrees with the fan-ins); its outputs point into the pool, and the
    pool has not shrunk. *)
Theorem minimization_keeps_invariants (elapsed : Z) (ntk : network) :
  wf (fanout_view ntk) ->
  let ntk' := (IM.mig_inv_minimization elapsed ntk).1 in
  I1 ntk' /\ I2 ntk' /\ I4 ntk' /\
  Forall (fun s => (index s < length (nodes ntk'))%nat) (outputs ntk') /\
  (length (nodes ntk) <= length (nodes ntk'))%nat.
Proof.
  intros W. apply wf_consistent in W. simpl.
  unfold IM.mig_inv_minimization, IM.run.
  pose proof (run_no_more_gates (gate_range (fanout_view ntk)) (fanout_view ntk)
                default_stats W) as H.
  destruct (fold_left _ _ _) as [ntk' st']. simpl in *.
  destruct H as [C _ L].
  { intros n Hn. unfold gate_range in Hn. apply elem_of_seq in Hn. simpl in *. lia. }
  split; [by apply consistent_I1|]. split; [by apply consistent_I2|].
  split; [by apply consistent_I4|]. split; [apply C|done].
Qed.

(** On [chain], where the pass inverts a gate. *)
Lemma minimization_keeps_invariants_witness :
  wf (fanout_view Examples.chain) /\
  I1 (IM.mig_inv_minimization 0 Examples.chain).1 /\
  I2 (IM.mig_inv_minimization 0 Examples.chain).1 /\
  I4 (IM.mig_inv_minimization 0 Examples.chain).1 /\
  Forall (fun s => (index s < length (nodes (IM.mig_inv_minimization 0 Examples.chain).1))%nat)
         (outputs (IM.mig_inv_minimization 0 Examples.chain).1) /\
  (length (nodes Examples.chain)
   <= length (nodes (IM.mig_inv_minimization 0 Examples.chain).1))%nat.
Proof.
  assert (wf (fanout_view Examples.chain)) as W by wf_by_computation.
  split; [exact W|]. exact (minimization_keeps_invariants 0 Examples.chain W).
Defined.

(** ** The value of the signal the majority constructor returns *)

Lemma maj_tie (v : nat -> bool) (p q r : signal) :
  index p = index q ->
  sig_val v (if eqb (complement p) (complement q) then p else r)
  = maj (sig_val v p) (sig_val v q) (sig_val v r).
Proof.
  intros E. unfold sig_val. destruct p as [ip cp], q as [iq cq], r as [ir cr].
  simpl in *. subst. destruct cp, cq; simpl; by destruct (v iq), (v ir), cr.
Qed.

Lemma maj_tie_r (v : nat -> bool) (p q r : signal) :
  index q = index r ->
  sig_val v (if eqb (complement q) (complement r) then q else p)
  = maj (sig_val v p) (sig_val v q) (sig_val v r).
Proof.
  intros E. unfold sig_val. destruct p as [ip cp], q as [iq cq], r as [ir cr].
  simpl in *. subst. destruct cq, cr; simpl; by destruct (v ip), (v ir), cp.
Qed.

(** X3. On a well-formed network and three signals of the pool, the
    signal that [create_maj_without_changing_comp] returns evaluates, in
    the network it leaves, to the majority of the values of the three
    arguments, whether it is an argument itself (trivial cases), a node
    found in the hash table, or the appended node. *)
Theorem create_maj_value (ntk : network) (a b c : signal) (asg : nat -> bool) :
  wf ntk ->
  Forall (fun s => (index s < length (nodes ntk))%nat) [a; b; c] ->
  let r := create_maj_without_changing_comp ntk a b c in
  let fuel := S (length (nodes ntk)) in
  exists x y z,
    eval_signal fuel ntk asg a = Some x /\
    eval_signal fuel ntk asg b = Some y /\
    eval_signal fuel ntk asg c = Some z /\
    eval_signal fuel r.1 asg r.2 = Some (maj x y z).
Proof.
  intros W Hb. simpl.
  pose proof (wf_valuation ntk asg W) as V. pose proof (wf_consistent ntk W) as C.
  set (v := fun n => default false (eval_node (S n) ntk asg n)) in V.
  assert (forall s, (index s < length (nodes ntk))%nat ->
            eval_signal (S (length (nodes ntk))) ntk asg s = Some (sig_val v s)) as Hev.
  { intros s Hs. apply (valuation_eval_signal _ _ _ id); [done|done|]. unfold id. lia. }
  exists (sig_val v a), (sig_val v b), (sig_val v c).
  assert (index a < length (nodes ntk) /\ index b < length (nodes ntk)
          /\ index c < length (nodes ntk))%nat as (Ha & Hb' & Hc).
  { rewrite !Forall_cons in Hb. tauto. }
  do 3 (split; [by apply Hev|]).
  pose proof (order_inputs_perm a b c) as Hperm.
  unfold create_maj_without_changing_comp.
  destruct (order_inputs a b c) as [[a' b'] c'] eqn:Hord. simpl in Hperm.
  pose proof (order_inputs_bound _ _ _ _ _ _ _ Hord Hb) as Hkb.
  assert (index a' < length (nodes ntk) /\ index b' < length (nodes ntk)
          /\ index c' < length (nodes ntk))%nat as (Ha' & Hb'' & Hc').
  { rewrite !Forall_cons in Hkb. tauto. }
  assert (maj (sig_val v a) (sig_val v b) (sig_val v c) = maj3 v (a', b', c')) as ->
    by (symmetry; apply (maj3_perm v _ _ _ _ _ _ Hperm)).
  destruct (Nat.eqb_spec (index a') (index b')) as [Eab|Nab].
  { simpl. rewrite Hev by (by destruct (eqb _ _)). f_equal. by apply maj_tie. }
  destruct (Nat.eqb_spec (index b') (index c')) as [Ebc|Nbc].
  { simpl. rewrite Hev by (by destruct (eqb _ _)). f_equal. by apply maj_tie_r. }
  destruct (hash ntk !! (a', b', c')) as [i|] eqn:Hh.
  - simpl. destruct (hash_sound _ C _ _ Hh) as (ndi & Hndi & Hli & Hki).
    unfold live_at in Hli. apply andb_prop in Hli as [Hli _].
    apply andb_prop in Hli as [Hi0 Hcii]. apply negb_true_iff in Hi0, Hcii.
    unfold is_constant in Hi0. apply Nat.eqb_neq in Hi0.
    destruct (val_gate _ _ _ _ V i ndi Hndi Hi0 Hcii) as [Hvi _]. rewrite Hki in Hvi.
    rewrite Hev by (simpl; by eapply lookup_lt_Some).
    f_equal. unfold sig_val at 1. cbn [index complement].
    by rewrite xorb_false_r, Hvi.
  - cbn [fst snd].
    set (ntk1 := Network _ _ _ _).
    assert (valuation ntk1 asg
              (fun n => if decide (n = length (nodes ntk)) then maj3 v (a', b', c') else v n)
              (fun n => if decide (n = length (nodes ntk)) then length (nodes ntk) else id n))
      as V1.
    { apply (valuation_append ntk ntk1 asg v id (a', b', c') (length (nodes ntk)) V).
      - unfold ntk1. simpl. rewrite !wiring_alter by apply incr_keeps_shape.
        by rewrite fmap_app.
      - simpl. unfold id. repeat constructor; done. }
    assert (length (nodes ntk1) = S (length (nodes ntk))) as Hlen1.
    { unfold ntk1. cbn [nodes]. rewrite !length_alter, length_app. simpl. lia. }
    rewrite (valuation_eval_signal _ _ _ _ _ _ V1).
    + f_equal. unfold sig_val at 1. cbn [index complement].
      by rewrite decide_True, xorb_false_r by done.
    + cbn [index]. lia.
    + cbn [index]. rewrite decide_True by done. lia.
Qed.

(** On [chain], with two gates among the arguments. *)
Lemma create_maj_value_witness :
  wf Examples.chain /\
  Forall (fun s => (index s < length (nodes Examples.chain))%nat)
         [Examples.neg 6; Examples.pos 2; Examples.neg 5] /\
  exists x y z,
    eval_signal 8 Examples.chain (fun n => Nat.even n) (Examples.neg 6) = Some x /\
    eval_signal 8 Examples.chain (fun n => Nat.even n) (Examples.pos 2) = Some y /\
    eval_signal 8 Examples.chain (fun n => Nat.even n) (Examples.neg 5) = Some z /\
    eval_signal 8
      (create_maj_without_changing_comp Examples.chain
         (Examples.neg 6) (Examples.pos 2) (Examples.neg 5)).1
      (fun n => Nat.even n)
      (create_maj_without_changing_comp Examples.chain
         (Examples.neg 6) (Examples.pos 2) (Examples.neg 5)).2
    = Some (maj x y z).
Proof.
  assert (Forall (fun s => (index s < length (nodes Examples.chain))%nat)
            [Examples.neg 6; Examples.pos 2; Examples.neg 5]) as Hb
    by (repeat constructor; vm_compute; lia).
  split; [exact wf_chain|]. split; [exact Hb|].
  exact (create_maj_value Examples.chain _ _ _ (fun n => Nat.even n) wf_chain Hb).
Defined.

(** ** The complement counters of the tests *)

Lemma elem_of_concat {A} (x : A) (ls : list (list A)) :
  x ∈ concat ls <-> exists l, x ∈ l /\ l ∈ ls.
Proof.
  induction ls as [|l ls IH]; simpl.
  - split; [by intros ?%elem_of_nil|]. by intros (l & _ & ?%elem_of_nil).
  - rewrite elem_of_app, IH. split.
    + intros [?|(l' & ? & ?)]; [exists l; split; [done|left]|exists l'; split; [done|by right]].
    + intros (l' & Hx & [->|?]%elem_of_cons); [by left|right; by exists l'].
Qed.

Lemma elem_of_counted_edges (ntk : network) (s : signal) :
  s ∈ counted_edges ntk
  <-> (exists m, is_live_gate ntk m = true /\ s ∈ fanins ntk m) \/ s ∈ outputs ntk.
Proof.
  unfold counted_edges. rewrite elem_of_app, elem_of_concat. split.
  - intros [(l & Hs & Hl)|?]; [|by right]. left.
    apply list_elem_of_fmap in Hl as (m & -> & Hm). exists m.
    split; [by apply elem_of_live_gates|done].
  - intros [(m & Hm & Hs)|?]; [|by right]. left. exists (fanins ntk m).
    split; [done|]. apply list_elem_of_fmap. exists m.
    split; [done|by apply elem_of_live_gates].
Qed.

Lemma length_filter_zero {A} (P : A -> Prop) `{forall x, Decision (P x)} (l : list A) :
  length (filter P l) = 0%nat <-> Forall (fun x => ~ P x) l.
Proof.
  induction l as [|x l IH]; [by split|].
  rewrite filter_cons, Forall_cons. case_decide; simpl.
  - split; [done|]. by intros [? _].
  - rewrite IH. tauto.
Qed.

Lemma except_pi_zero (ntk : network) :
  complement_count_except_pi ntk = 0%nat
  <-> forall s, s ∈ counted_edges ntk -> complement s = true ->
                is_pi ntk (index s) = true \/ is_constant (index s) = true.
Proof.
  unfold complement_count_except_pi. fold (counted_edges ntk).
  rewrite length_filter_zero, Forall_forall. split.
  - intros H s Hs Hc. specialize (H s Hs).
    destruct (is_pi ntk (index s)); [by left|].
    destruct (is_constant (index s)); [by right|]. by destruct H.
  - intros H s Hs (Hc & Hp & Hk). destruct (H s Hs Hc); congruence.
Qed.

(** X17. [complement_count_except_pi] of the tests is 0 exactly when
    every complemented fan-in of a live gate and every complemented
    primary output references a primary input or the constant. *)
Theorem complement_count_except_pi_zero (ntk : network) :
  complement_count_except_pi ntk = 0%nat
  <-> (forall m s, is_live_gate ntk m = true -> s ∈ fanins ntk m -> complement s = true ->
                   is_pi ntk (index s) = true \/ is_constant (index s) = true) /\
      (forall s, s ∈ outputs ntk -> complement s = true ->
                 is_pi ntk (index s) = true \/ is_constant (index s) = true).
Proof.
  rewrite except_pi_zero. split.
  - intros H. split.
    + intros m s Hm Hs. apply H, elem_of_counted_edges. left. by exists m.
    + intros s Hs. apply H, elem_of_counted_edges. by right.
  - intros [Hg Ho] s Hs. apply elem_of_counted_edges in Hs as [(m & Hm & Hs)|Hs].
    + by apply (Hg m).
    + by apply Ho.
Qed.

Theorem complement_count_except_pi_le (ntk : network) :
  (complement_count_except_pi ntk <= complement_count ntk)%nat.
Proof.
  unfold complement_count_except_pi, complement_count.
  generalize (concat (fanins ntk <$> live_gates ntk) ++ outputs ntk). intros l.
  induction l as [|s l IH]; [done|].
  rewrite !filter_cons. repeat case_decide; simpl; try lia. tauto.
Qed.

(** ** Networks the propagation pass leaves alone *)

Lemma I3_fanins (ntk : network) (n : nat) :
  I3 ntk -> Forall (fun s => (index s < n)%nat) (fanins ntk n).
Proof.
  intros H. destruct (decide (n < length (nodes ntk))%nat) as [Hn|Hn].
  - unfold I3 in H. rewrite Forall_forall in H. apply H, elem_of_seq. lia.
  - unfold fanins, is_gate. rewrite bool_decide_eq_false_2 by done.
    by rewrite andb_false_r.
Qed.

Lemma cone_weight_stable (ntk : network) :
  I3 ntk ->
  forall fuel fuel' n, (n <= fuel)%nat -> (n <= fuel')%nat ->
                       cone_weight fuel ntk n = cone_weight fuel' ntk n.
Proof.
  intros H fuel. induction fuel as [|fuel IH]; intros fuel' n Hn Hn'.
  - assert (n = 0%nat) as -> by lia. by destruct fuel'.
  - destruct fuel' as [|fuel'].
    { assert (n = 0%nat) as -> by lia. done. }
    simpl. destruct (is_constant n || is_pi ntk n || is_dead ntk n); [done|].
    f_equal. f_equal. apply Forall_fmap_ext_1.
    eapply Forall_impl; [apply (I3_fanins ntk n H)|].
    intros s Hs. simpl in *. apply IH; lia.
Qed.

Lemma cone_weight_pos (fuel : nat) (ntk : network) (n : nat) :
  (1 <= cone_weight fuel ntk n)%nat.
Proof. destruct fuel; simpl; [lia|]. destruct (_ || _); lia. Qed.

Lemma cone_weight_gate (ntk : network) (n : nat) :
  I3 ntk -> is_constant n || is_pi ntk n || is_dead ntk n = false ->
  cone_weight n ntk n = S (queue_weight ntk (index <$> fanins ntk n)).
Proof.
  intros H E. destruct n as [|n]; [done|]. cbn [cone_weight]. rewrite E. f_equal.
  unfold queue_weight. rewrite <- list_fmap_compose. f_equal.
  apply Forall_fmap_ext_1.
  eapply Forall_impl; [apply (I3_fanins ntk (S n) H)|].
  intros s Hs. simpl in *. apply cone_weight_stable; [done|lia|lia].
Qed.

Lemma queue_weight_app (ntk : network) (q q' : list nat) :
  queue_weight ntk (q ++ q') = (queue_weight ntk q + queue_weight ntk q')%nat.
Proof. unfold queue_weight. by rewrite fmap_app, sum_list_with_app || rewrite fmap_app, sum_list_app. Qed.

Lemma has_comp_fanout_clean (ntk : network) (n : nat) :
  complement_count_except_pi ntk = 0%nat ->
  is_constant n || is_pi ntk n || is_dead ntk n = false ->
  IP.has_comp_fanout ntk n = false.
Proof.
  intros Hz E. apply orb_false_elim in E as [E _]. apply orb_false_elim in E as [Hc Hp].
  rewrite except_pi_zero in Hz.
  destruct (IP.has_comp_fanout ntk n) eqn:Hh; [|done].
  apply has_comp_fanout_true in Hh as [(fo & Hl & Hf)|(po & Hpo & Hi & Hcp)].
  - unfold is_fanout_comp in Hf. rewrite fold_comp_last in Hf.
    destruct (last (filter _ (fanins ntk fo))) as [s|] eqn:El; [|done]. simpl in Hf.
    apply last_Some_elem_of, list_elem_of_filter in El as [Hi Hs].
    destruct (Hz s) as [?|?]; [apply elem_of_counted_edges; left; by exists fo|done|..];
      congruence.
  - destruct (Hz po) as [?|?]; [apply elem_of_counted_edges; by right|done|..]; congruence.
Qed.

Lemma loop_clean (ntk : network) (st : stats) :
  I3 ntk -> complement_count_except_pi ntk = 0%nat ->
  forall fuel q, (queue_weight ntk q < fuel)%nat ->
    IP.loop fuel (IP.Impl ntk st q) = Some (IP.Impl ntk st []).
Proof.
  intros H3 Hz fuel. induction fuel as [|fuel IH]; intros q Hq; [lia|].
  simpl. destruct q as [|n rest]; [done|].
  unfold IP.step. simpl.
  change (queue_weight ntk (n :: rest))
    with (cone_weight n ntk n + queue_weight ntk rest)%nat in Hq.
  destruct (is_constant n || is_pi ntk n || is_dead ntk n) eqn:E.
  - apply IH. pose proof (cone_weight_pos n ntk n). lia.
  - rewrite (has_comp_fanout_clean ntk n Hz E). apply IH.
    rewrite queue_weight_app. rewrite (cone_weight_gate ntk n H3 E) in Hq. lia.
Qed.

(** X16. On a network in index order (I3) that has no complemented edge
    or output on a gate ([complement_count_except_pi] is 0), the
    propagation pass terminates without inverting anything: it returns the
    network, under its fanout view, unchanged. *)
Theorem propagation_fixpoint (ntk : network) :
  I3 ntk -> complement_count_except_pi ntk = 0%nat ->
  exists fuel, IP.mig_inv_propogation fuel ntk = Some (fanout_view ntk, default_stats).
Proof.
  intros H3 Hz.
  exists (S (queue_weight (fanout_view ntk) (index <$> outputs ntk))).
  unfold IP.mig_inv_propogation, IP.run, IP.seed. rewrite seed_fold.
  cbn [IP.ntk IP.st IP.q app].
  rewrite (loop_clean (fanout_view ntk) default_stats H3 Hz); [done|].
  cbn [outputs fanout_view]. lia.
Qed.

(** Two gates whose only complemented fan-ins are inputs. *)
Lemma propagation_fixpoint_witness :
  I3 (build 3 [(Examples.pos 1, Examples.pos 2, Examples.neg 3);
               (Examples.neg 1, Examples.pos 2, Examples.pos 4)] [Examples.pos 5]) /\
  complement_count_except_pi
    (build 3 [(Examples.pos 1, Examples.pos 2, Examples.neg 3);
              (Examples.neg 1, Examples.pos 2, Examples.pos 4)] [Examples.pos 5]) = 0%nat /\
  exists fuel,
    IP.mig_inv_propogation fuel
      (build 3 [(Examples.pos 1, Examples.pos 2, Examples.neg 3);
                (Examples.neg 1, Examples.pos 2, Examples.pos 4)] [Examples.pos 5])
    = Some (fanout_view
              (build 3 [(Examples.pos 1, Examples.pos 2, Examples.neg 3);
                        (Examples.neg 1, Examples.pos 2, Examples.pos 4)] [Examples.pos 5]),
            default_stats).
Proof.
  set (net := build 3 [(Examples.pos 1, Examples.pos 2, Examples.neg 3);
                       (Examples.neg 1, Examples.pos 2, Examples.pos 4)] [Examples.pos 5]).
  assert (I3 net) as H3 by (unfold I3; by_computation).
  assert (complement_count_except_pi net = 0%nat) as Hz by (vm_compute; reflexivity).
  split; [exact H3|]. split; [exact Hz|]. exact (propagation_fixpoint net H3 Hz).
Defined.

Lemma grows_refl (ntk : network) : grows ntk ntk.
Proof. split; [done|]. exists 0%nat. by rewrite app_nil_r. Qed.

Lemma grows_trans (n1 n2 n3 : network) : grows n1 n2 -> grows n2 n3 -> grows n1 n3.
Proof.
  intros [H1 [k1 E1]] [H2 [k2 E2]]. split; [congruence|].
  exists (k1 + k2)%nat. by rewrite E2, E1, <- app_assoc, replicate_add.
Qed.

Lemma grows_same (ntk ntk' : network) :
  length (outputs ntk') = length (outputs ntk) ->
  ci <$> nodes ntk' = ci <$> nodes ntk -> grows ntk ntk'.
Proof. intros H1 H2. split; [done|]. exists 0%nat. by rewrite app_nil_r. Qed.

Lemma ci_alter (f : node -> node) (i : nat) (l : list node) :
  keeps_shape f -> ci <$> alter f i l = ci <$> l.
Proof.
  intros Hf. apply list_eq. intros j. rewrite !list_lookup_fmap, lookup_alter_bump.
  destruct (l !! j) as [x|]; [|done]. simpl. f_equal. unfold bump.
  case_decide; [|done]. by destruct (Hf x) as (_ & -> & _).
Qed.

Lemma ci_alter_same (f : node -> node) (i : nat) (l : list node) :
  (forall x, ci (f x) = ci x) -> ci <$> alter f i l = ci <$> l.
Proof.
  intros Hf. apply list_eq. intros j. rewrite !list_lookup_fmap, lookup_alter_bump.
  destruct (l !! j) as [x|]; [|done]. simpl. f_equal. unfold bump.
  case_decide; [|done]. apply Hf.
Qed.

Lemma ci_iter (f : node -> node) (i k : nat) (l : list node) :
  keeps_shape f -> ci <$> Nat.iter k (alter f i) l = ci <$> l.
Proof. intros Hf. induction k as [|k IH]; [done|]. simpl. by rewrite ci_alter. Qed.

Lemma ci_same_shape (ns ns' : list node) : same_shape ns ns' -> ci <$> ns' = ci <$> ns.
Proof.
  intros H. apply wiring_same_shape in H.
  apply (f_equal (fmap snd)) in H. by rewrite <- !list_fmap_compose in H.
Qed.

Lemma grows_lookup (ntk ntk' : network) :
  grows ntk ntk' ->
  (length (nodes ntk) <= length (nodes ntk'))%nat /\ forall j, is_pi ntk' j = is_pi ntk j.
Proof.
  intros [_ [k E]]. split.
  - apply (f_equal length) in E. rewrite length_app, !length_fmap in E. lia.
  - intros j. unfold is_pi, get_node_obj.
    apply (f_equal (fun l => l !! j)) in E. rewrite list_lookup_fmap in E.
    destruct (decide (j < length (nodes ntk))%nat) as [Hlt|Hge].
    + rewrite lookup_app_l, list_lookup_fmap in E by (by rewrite length_fmap).
      destruct (nodes ntk' !! j), (nodes ntk !! j); simpl in *; congruence.
    + rewrite lookup_app_r in E by (rewrite length_fmap; lia).
      assert (nodes ntk !! j = None) as -> by (apply lookup_ge_None; lia).
      destruct (nodes ntk' !! j) as [x|]; [|done]. simpl in *.
      symmetry in E. apply lookup_replicate in E as [E _]. exact E.
Qed.

Lemma grows_create (ntk : network) (a b c : signal) :
  grows ntk (create_maj_without_changing_comp ntk a b c).1.
Proof.
  unfold create_maj_without_changing_comp.
  destruct (order_inputs a b c) as [[x y] z].
  destruct (index x =? index y)%nat; [apply grows_refl|].
  destruct (index y =? index z)%nat; [apply grows_refl|].
  destruct (hash ntk !! (x, y, z)); [apply grows_refl|].
  split; [done|]. exists 1%nat. cbn [fst nodes].
  rewrite !ci_alter by apply incr_keeps_shape. by rewrite fmap_app.
Qed.

Lemma grows_replace_in_outputs_cond_comp (ntk : network) (old : nat) (s : signal) (f : bool) :
  grows ntk (replace_in_outputs_cond_comp ntk old s f).
Proof.
  apply grows_same.
  - rewrite cond_comp_outputs.
    destruct (is_dead ntk old); [done|]. by rewrite length_fmap.
  - apply ci_same_shape, cond_comp_shape.
Qed.

Lemma grows_replace_in_outputs (ntk : network) (n : nat) (s : signal) :
  grows ntk (replace_in_outputs ntk n s).
Proof.
  unfold replace_in_outputs.
  pose proof (replace_outputs_loop_fst n s true (outputs ntk) (nodes ntk)) as Hf.
  pose proof (replace_outputs_loop_shape n s true (outputs ntk) (nodes ntk)) as Hs.
  destruct (replace_outputs_loop n s true (outputs ntk) (nodes ntk)) as [os ns].
  simpl in *. apply grows_same; simpl.
  - subst os. by rewrite length_fmap.
  - by apply ci_same_shape.
Qed.

Lemma grows_replace_in_node (ntk : network) (m old : nat) (s : signal) :
  grows ntk (replace_in_node ntk m old s).1.
Proof.
  unfold replace_in_node.
  destruct (negb (is_gate ntk m)); [apply grows_refl|].
  destruct (occurrences old (children (get_node_obj ntk m)) =? 0)%nat; [apply grows_refl|].
  destruct (children (get_node_obj ntk m)) as [[x y] z].
  destruct (order_inputs _ _ _) as [[c0 c1] c2].
  destruct (index c0 =? index c1)%nat; [apply grows_refl|].
  destruct (index c1 =? index c2)%nat; [apply grows_refl|].
  destruct (hash ntk !! (c0, c1, c2)); [apply grows_refl|].
  apply grows_same; [done|]. cbn [fst nodes].
  rewrite !ci_iter by (apply incr_keeps_shape || apply decr_keeps_shape).
  by apply ci_alter_same.
Qed.

Lemma grows_take_out_node (ntk : network) (n : nat) : grows ntk (take_out_node ntk n).
Proof.
  unfold take_out_node. destruct (negb (is_live_gate ntk n)); [apply grows_refl|].
  destruct (children (get_node_obj ntk n)) as [[a b] c].
  apply grows_same; [done|]. cbn [nodes].
  rewrite !ci_alter by apply decr_keeps_shape. by apply ci_alter_same.
Qed.

Lemma grows_release (ntk : network) (n : nat) :
  grows ntk (if fanout_size ntk n =? 0 then take_out_node ntk n else ntk).
Proof. destruct (fanout_size ntk n =? 0); [apply grows_take_out_node|apply grows_refl]. Qed.

Lemma grows_fold {A : Type} (f : network -> A -> network) (l : list A) (ntk : network) :
  (forall nt x, grows nt (f nt x)) -> grows ntk (fold_left f l ntk).
Proof.
  intros Hf. revert ntk. induction l as [|x l IH]; intros ntk; [apply grows_refl|].
  simpl. eapply grows_trans; [apply Hf|apply IH].
Qed.

Lemma grows_fanout_view (ntk : network) : grows ntk (fanout_view ntk).
Proof. by apply grows_same. Qed.

(** *** The minimization pass *)

Lemma grows_IM_inv_node (ntk : network) (n : nat) (f : bool) :
  grows ntk (IM.inv_node ntk n f).1.
Proof.
  unfold IM.inv_node. destruct (is_pi ntk n || is_constant n); [apply grows_refl|].
  destruct (children (get_node_obj ntk n)) as [[a b] c].
  pose proof (grows_create ntk (sig_not a) (sig_not b) (sig_not c)) as H1.
  destruct (create_maj_without_changing_comp _ _ _ _) as [ntk1 s]. cbn [fst] in *.
  eapply grows_trans; [exact H1|].
  eapply grows_trans; [apply grows_replace_in_outputs|].
  eapply grows_trans; [|apply grows_release].
  apply grows_fold. intros nt x.
  destruct (f || is_fanout_comp nt n x); [apply grows_replace_in_node|apply grows_refl].
Qed.

Lemma grows_IM_visit (acc : network * stats) (n : nat) : grows acc.1 (IM.visit acc n).1.
Proof.
  destruct acc as [ntk st]. unfold IM.visit. cbn [fst].
  destruct (is_dead ntk n); [apply grows_refl|].
  set (r1 := if 0 <? IM.one_level ntk n then _ else _).
  assert (grows ntk r1.1) as H1.
  { unfold r1. destruct (0 <? IM.one_level ntk n); [apply grows_IM_inv_node|apply grows_refl]. }
  destruct r1 as [ntk1 st1]. cbn [fst] in *.
  destruct (0 <? IM.two_level ntk1 n); [|exact H1].
  pose proof (grows_IM_inv_node ntk1 n true) as H2.
  destruct (IM.inv_node ntk1 n true) as [ntk2 new_node]. cbn [fst] in *.
  eapply grows_trans; [exact H1|]. eapply grows_trans; [exact H2|].
  apply grows_fold. intros nt x.
  destruct (0 <? IM.one_level nt x); [apply grows_IM_inv_node|apply grows_refl].
Qed.

Lemma grows_IM_run (elapsed : Z) (ntk : network) (st : stats) :
  grows ntk (IM.run elapsed ntk st).1.
Proof.
  unfold IM.run.
  assert (forall l acc, grows acc.1
            (fold_left (fun acc n => if is_live_gate acc.1 n then IM.visit acc n else acc)
                       l acc).1) as H.
  { induction l as [|x l IH]; intros acc; [apply grows_refl|]. simpl.
    eapply grows_trans; [|apply IH].
    destruct (is_live_gate acc.1 x); [apply grows_IM_visit|apply grows_refl]. }
  specialize (H (gate_range ntk) (ntk, st)).
  destruct (fold_left _ _ _) as [ntk' st']. exact H.
Qed.

(** X18. The minimization pass keeps the interface of the network: the
    number of primary outputs is unchanged, no node is removed from the
    pool, every index is a primary input after the pass exactly when it
    was one before, so the nodes the pass appends are gates. This needs
    no assumption on the network. *)
Theorem minimization_keeps_interface (elapsed : Z) (ntk : network) :
  let ntk' := (IM.mig_inv_minimization elapsed ntk).1 in
  length (outputs ntk') = length (outputs ntk) /\
  (length (nodes ntk) <= length (nodes ntk'))%nat /\
  forall j, is_pi ntk' j = is_pi ntk j.
Proof.
  intros ntk'.
  assert (grows ntk ntk') as H.
  { eapply grows_trans; [apply grows_fanout_view|apply grows_IM_run]. }
  split; [apply H|]. by apply grows_lookup.
Qed.

(** *** The propagation pass *)

Lemma grows_substitute_step (old : nat) (s : signal) (l : list nat)
    (acc : network * list (nat * signal)) :
  grows acc.1 (fold_left (substitute_step old s) l acc).1.
Proof.
  revert acc. induction l as [|x l IH]; intros acc; [apply grows_refl|].
  simpl. eapply grows_trans; [|apply IH].
  destruct acc as [nt todo]. unfold substitute_step. cbn [fst].
  destruct (is_live_gate nt x); [|apply grows_refl].
  pose proof (grows_replace_in_node nt x old s) as H.
  by destruct (replace_in_node nt x old s) as [nt' [r|]].
Qed.

Lemma grows_release_all (done : list nat) (ntk : network) :
  grows ntk (release_all done ntk).
Proof.
  unfold release_all. induction (length done) as [|k IH]; [apply grows_refl|].
  simpl. eapply grows_trans; [exact IH|].
  apply grows_fold. intros nt x. apply grows_release.
Qed.

Lemma grows_substitute_loop (fuel : nat) (ntk : network) (todo : list (nat * signal))
    (seen : list nat) (r : network) :
  substitute_loop fuel ntk todo seen = Some r -> grows ntk r.
Proof.
  revert ntk todo seen. induction fuel as [|fuel IH]; intros ntk todo seen; [done|].
  simpl. destruct todo as [|[old s] rest].
  { intros [= <-]. apply grows_refl. }
  pose proof (grows_substitute_step old s (gate_range ntk) (ntk, rest)) as H1.
  destruct (fold_left _ _ _) as [ntk1 todo1]. cbn [fst] in H1.
  intros H. apply IH in H.
  eapply grows_trans; [exact H1|]. eapply grows_trans; [|exact H].
  eapply grows_trans; [apply grows_replace_in_outputs|apply grows_release_all].
Qed.

Lemma grows_rewire_consumer (fuel n : nat) (s : signal) (f : bool) (l : list nat)
    (ntk r : network) :
  fold_left (IP.rewire_consumer fuel n s f) l (Some ntk) = Some r -> grows ntk r.
Proof.
  revert ntk. induction l as [|x l IH]; intros ntk.
  { intros [= <-]. apply grows_refl. }
  simpl. destruct (is_live_gate ntk x && (f || is_fanout_comp ntk n x)); [|apply IH].
  pose proof (grows_replace_in_node ntk x n s) as H1.
  destruct (replace_in_node ntk x n s) as [nt' [ret|]]; cbn [fst] in H1.
  - destruct (substitute_node fuel nt' x ret) as [nt''|] eqn:E.
    + intros H. apply IH in H. apply grows_substitute_loop in E.
      eapply grows_trans; [exact H1|]. by eapply grows_trans.
    + intros H. exfalso. clear -H. induction l as [|y l IHl]; [done|]. by apply IHl.
  - intros H. apply IH in H. by eapply grows_trans.
Qed.

Lemma grows_IP_inv_node (fuel : nat) (ntk : network) (n : nat) (f : bool) (r : network * nat) :
  IP.inv_node fuel ntk n f = Some r -> grows ntk r.1.
Proof.
  unfold IP.inv_node. destruct (is_pi ntk n || is_constant n).
  { intros [= <-]. apply grows_refl. }
  destruct (children (get_node_obj ntk n)) as [[a b] c].
  pose proof (grows_create ntk (sig_not a) (sig_not b) (sig_not c)) as H1.
  destruct (create_maj_without_changing_comp _ _ _ _) as [ntk1 s]. cbn [fst] in *.
  destruct (fold_left _ _ _) as [ntk3|] eqn:E; [|done].
  apply grows_rewire_consumer in E. intros [= <-]. cbn [fst].
  eapply grows_trans; [exact H1|].
  eapply grows_trans; [apply grows_replace_in_outputs_cond_comp|].
  eapply grows_trans; [exact E|apply grows_release].
Qed.

Lemma grows_IP_loop (fuel : nat) (p r : IP.impl) :
  IP.loop fuel p = Some r -> grows (IP.ntk p) (IP.ntk r).
Proof.
  revert p. induction fuel as [|fuel IH]; intros p; [done|].
  simpl. destruct (IP.q p) as [|n rest].
  { intros [= <-]. apply grows_refl. }
  destruct (IP.step fuel p n rest) as [p'|] eqn:E; [|done].
  intros H. apply IH in H. eapply grows_trans; [|exact H]. clear H.
  unfold IP.step in E.
  destruct (is_constant n || is_pi (IP.ntk p) n || is_dead (IP.ntk p) n).
  { injection E as <-. apply grows_refl. }
  destruct (IP.has_comp_fanout (IP.ntk p) n).
  - destruct (IP.inv_node fuel (IP.ntk p) n false) as [x|] eqn:E1; [|done].
    apply grows_IP_inv_node in E1. simpl in E. by injection E as <-.
  - injection E as <-. apply grows_refl.
Qed.

(** X19. Whenever the propagation pass returns, it has kept the
    interface of the network: the number of primary outputs is unchanged,
    no node is removed from the pool, and every index is a primary input
    after the pass exactly when it was one before. *)
Theorem propagation_keeps_interface (fuel : nat) (ntk ntk' : network) (st : stats) :
  IP.mig_inv_propogation fuel ntk = Some (ntk', st) ->
  length (outputs ntk') = length (outputs ntk) /\
  (length (nodes ntk) <= length (nodes ntk'))%nat /\
  forall j, is_pi ntk' j = is_pi ntk j.
Proof.
  unfold IP.mig_inv_propogation, IP.run, IP.seed. rewrite seed_fold.
  destruct (IP.loop _ _) as [p|] eqn:E; [|done].
  intros [= <- <-]. apply grows_IP_loop in E. cbn [IP.ntk] in E.
  assert (grows ntk (IP.ntk p)) as H.
  { eapply grows_trans; [apply grows_fanout_view|exact E]. }
  split; [apply H|]. by apply grows_lookup.
Qed.

(** The network of the propagation test, on which the pass returns. *)
Lemma propagation_keeps_interface_witness :
  exists net' s,
    IP.mig_inv_propogation 200 Examples.propagation_test = Some (net', s) /\
    length (outputs net') = length (outputs Examples.propagation_test) /\
    (length (nodes Examples.propagation_test) <= length (nodes net'))%nat /\
    forall j, is_pi net' j = is_pi Examples.propagation_test j.
Proof.
  destruct (IP.mig_inv_propogation 200 Examples.propagation_test) as [[net' s]|] eqn:E.
  - exists net', s. split; [reflexivity|].
    exact (propagation_keeps_interface 200 Examples.propagation_test net' s E).
  - exfalso. revert E. vm_compute. discriminate.
Defined.
